(** * Label assignment, cascade orchestration and pseudo-label weighting

    A shallow embedding of three pieces of the detection code base:

    - [ATSS]: [ATSSAssigner.assign]
      (mmdet/core/bbox/assigners/atss_assigner.py);
    - [Cascade]: [CascadeRoIHead.forward_train],
      [CascadeRoIHead.simple_test], [forward_dummy], [init_bboxhead] and
      [init_maskhead] (mmdet/models/roi_heads/cascade_roi_head.py);
    - [SemiMixUp]: [SemiMixUpDetector.weight], [gt_loss], [pseudo_loss],
      [update_pseudo_instances], [filter_pseudo_instances],
      [project_pseudo_instances], [mixup], [loss] and
      [_load_from_state_dict] (mmdet/models/detectors/semi_mixup.py).

    Tensors are lists (matrices are lists of rows), tensor entries are
    rationals, and Python exceptions are values of an error monad.  The
    rounding of floating-point arithmetic is outside the model; the one
    place where the code can produce a NaN that changes the control
    flow (mean and standard deviation of too few samples) is modelled
    by [option]. *)

From Stdlib Require Import QArith Qminmax Lia Ascii String.
From stdpp Require Import base option list sorting gmap strings pretty.

Local Open Scope Q_scope.
Local Open Scope nat_scope.
Local Open Scope stdpp_scope.

(** ** Python exceptions as an error monad *)

Inductive exn : Type :=
| ValueError
| RuntimeError
| IndexError
| ZeroDivisionError.

Inductive result (A : Type) : Type :=
| Ok (a : A)
| Raise (e : exn).
Arguments Ok {A} a.
Arguments Raise {A} e.

#[global] Instance result_ret : MRet result := fun A a => Ok a.
#[global] Instance result_bind : MBind result := fun A B f m =>
  match m with
  | Ok a => f a
  | Raise e => Raise e
  end.
#[global] Instance result_fmap : FMap result := fun A B f m =>
  match m with
  | Ok a => Ok (f a)
  | Raise e => Raise e
  end.

(** [l[i]] with Python's bounds check (indices are never negative here). *)
Definition index {A} (l : list A) (i : nat) : result A :=
  match l !! i with
  | Some x => Ok x
  | None => Raise IndexError
  end.

(** [l[idx]] for an index tensor [idx]. *)
Definition gather {A} (l : list A) (idx : list nat) : result (list A) :=
  mapM (index l) idx.

(** ** Boxes and strings *)

(** A box [tl_x, tl_y, br_x, br_y]; [bboxes[:, :4]] keeps these four
    columns. *)
Record bbox : Type := BBox { x1 : Q; y1 : Q; x2 : Q; y2 : Q }.

(** [x > y]. *)
Definition Qgt_bool (x y : Q) : bool := negb (Qle_bool x y).

#[global] Instance Qlt_decision : RelDecision Qlt.
Proof.
  intros x y. destruct (Qlt_le_dec x y) as [H|H].
  - left. exact H.
  - right. apply Qle_not_lt. exact H.
Defined.

(** Python's [needle in s] on strings. *)
Fixpoint contains (needle s : string) : bool :=
  if String.prefix needle s then true
  else match s with
       | EmptyString => false
       | String _ s' => contains needle s'
       end.

(** The string has no dot. *)
Fixpoint dotfree (s : string) : Prop :=
  match s with
  | EmptyString => True
  | String c s' => c ≠ "."%char ∧ dotfree s'
  end.

(** ** Tensor operations *)

(** The matrix with [rows] rows and [cols] columns whose entry is [f r c]. *)
Definition tabulate {A} (rows cols : nat) (f : nat → nat → A) : list (list A) :=
  (λ r, (λ c, f r c) <$> seq 0 cols) <$> seq 0 rows.

(** Entry [(r, c)] of a matrix. *)
Definition mget {A} (M : list (list A)) (r c : nat) : option A :=
  M !! r ≫= (λ row : list A, row !! c).

(** [M.shape == (rows, cols)] *)
Definition shape {A} (M : list (list A)) (rows cols : nat) : Prop :=
  length M = rows ∧ Forall (λ row, length row = cols) M.

Definition mat_zip_with {A B C} (f : A → B → C)
    (M : list (list A)) (N : list (list B)) : list (list C) :=
  zip_with (zip_with f) M N.

(** [M op v[None, :]]: a row vector broadcast over the rows of [M]. *)
Definition broadcast_rows {A B C} (f : A → B → C) (M : list (list A)) (v : list B)
    : list (list C) :=
  (λ row, zip_with f row v) <$> M.

(** [v.view(1, -1).expand(n, len(v)).contiguous().view(-1)] *)
Definition expand_flat {A} (n : nat) (v : list A) : list A :=
  concat (replicate n v).

(** Column [g] of a matrix. *)
Definition column {A} (d : A) (g : nat) (M : list (list A)) : list A :=
  (λ row, nth g row d) <$> M.

(** [M.t()] for a matrix with [cols] columns. *)
Definition transpose {A} (d : A) (cols : nat) (M : list (list A)) : list (list A) :=
  (λ g, column d g M) <$> seq 0 cols.

(** [l.view(-1, cols)]: torch refuses to infer [-1] on an empty tensor and
    refuses a size that [cols] does not divide. *)
Definition view_rows {A} (cols : nat) (l : list A) : result (list (list A)) :=
  match l with
  | [] => Raise RuntimeError
  | _ =>
      if decide (cols ≠ 0 ∧ length l `mod` cols = 0)
      then Ok (reshape (replicate (length l `div` cols) cols) l)
      else Raise RuntimeError
  end.

(** [l.view(rows, -1)]. *)
Definition view_cols {A} (rows : nat) (l : list A) : result (list (list A)) :=
  match l with
  | [] => Raise RuntimeError
  | _ =>
      if decide (rows ≠ 0 ∧ length l `mod` rows = 0)
      then Ok (reshape (replicate rows (length l `div` rows)) l)
      else Raise RuntimeError
  end.

(** [torch.cat(ts, dim=0)]: an empty list of tensors is an error. *)
Definition torch_cat {A} (ts : list (list A)) : result (list A) :=
  match ts with
  | [] => Raise RuntimeError
  | _ => Ok (concat ts)
  end.

(** [l[mask]] for a boolean mask of the same shape. *)
Definition masked_select {A} (l : list A) (mask : list bool) : result (list A) :=
  if decide (length l = length mask)
  then Ok ((filter (λ p : A * bool, p.2 = true) (zip l mask)).*1)
  else Raise IndexError.

(** [dst[idx] = vals], element by element. *)
Fixpoint index_put {A} (dst : list A) (idx : list nat) (vals : list A)
    : result (list A) :=
  match idx, vals with
  | i :: idx', v :: vals' =>
      if decide (i < length dst)
      then index_put (<[i:=v]> dst) idx' vals'
      else Raise IndexError
  | _, _ => Ok dst
  end.

(** Sum of a tensor. *)
Definition Qsum (xs : list Q) : Q := foldr Qplus 0%Q xs.

(** [xs.mean()]; [None] is the NaN torch returns for an empty tensor. *)
Definition mean (xs : list Q) : option Q :=
  match xs with
  | [] => None
  | _ => Some (Qsum xs / inject_Z (Z.of_nat (length xs)))%Q
  end.

Definition sq (x : Q) : Q := (x * x)%Q.

(** Ordering of distance/position pairs by distance. *)
Definition dist_le (p q : Q * nat) : Prop := Qle_bool p.1 q.1 = true.

#[global] Instance dist_le_dec : RelDecision dist_le.
Proof. intros p q. unfold dist_le. apply _. Defined.

(** Positions of [xs], by increasing value. *)
Definition argsort (xs : list Q) : list nat :=
  (merge_sort dist_le (zip xs (seq 0 (length xs)))).*2.

(** Positions of the [k] smallest values of [xs]. *)
Definition topk_smallest (k : nat) (xs : list Q) : list nat :=
  take k (argsort xs).

(** [M.topk(k, dim=0, largest=False)[1]] for a matrix with [cols] columns:
    row [r], column [g] holds the position of the [r]-th smallest entry of
    column [g].  torch raises when [k] exceeds the number of rows. *)
Definition topk_dim0 (k cols : nat) (M : list (list Q)) : result (list (list nat)) :=
  if decide (k ≤ length M)
  then Ok (tabulate k cols (λ r g, nth r (topk_smallest k (column 0%Q g M)) 0))
  else Raise RuntimeError.

(** [row.max()]: the maximum and the first position where it is reached. *)
Fixpoint max_with_index (row : list Q) : option (Q * nat) :=
  match row with
  | [] => None
  | x :: rest =>
      match max_with_index rest with
      | None => Some (x, 0)
      | Some (m, i) => if Qle_bool m x then Some (x, 0) else Some (m, S i)
      end
  end.

(** [M.max(dim=1)]. *)
Definition max_dim1 (M : list (list Q)) : result (list (Q * nat)) :=
  mapM (λ row, match max_with_index row with
               | Some p => Ok p
               | None => Raise IndexError
               end) M.

(** ** ATSSAssigner *)

Module ATSS.

(** The fields [AssignResult] is built from. *)
Record AssignResult : Type := mkAssignResult {
  num_gts : nat;
  gt_inds : list nat;
  max_overlaps : list Q;
  labels : option (list Z)
}.

Definition INF : Q := 100000000%Q.

Definition center_x (b : bbox) : Q := ((x1 b + x2 b) / 2)%Q.
Definition center_y (b : bbox) : Q := ((y1 b + y2 b) / 2)%Q.

(** [x >= thr], false when [thr] is NaN. *)
Definition ge_thr (x : Q) (thr : option Q) : bool :=
  match thr with
  | Some t => Qle_bool t x
  | None => false
  end.

(** [is_pos = candidate_overlaps >= overlaps_thr_per_gt[None, :]] *)
Definition is_pos_of (candidate_overlaps : list (list Q)) (thr : list (option Q))
    : list (list bool) :=
  broadcast_rows ge_thr candidate_overlaps thr.

(** [for gt_idx in range(num_gt): candidate_idxs[:, gt_idx] += gt_idx * num_bboxes] *)
Definition add_gt_offsets (num_bboxes : nat) (candidate_idxs : list (list nat))
    : list (list nat) :=
  imap (λ gt_idx i, i + gt_idx * num_bboxes) <$> candidate_idxs.

(** [is_in_gts = torch.stack([l, t, r, b], dim=1).min(dim=1)[0] > 0.01],
    from the gathered centres [ex], [ey]. *)
Definition is_in_gts_of (ex ey : list (list Q)) (gt_bboxes : list bbox)
    : list (list bool) :=
  let l : list (list Q) := broadcast_rows (λ v g, v - x1 g)%Q ex gt_bboxes in
  let t : list (list Q) := broadcast_rows (λ v g, v - y1 g)%Q ey gt_bboxes in
  let r : list (list Q) := broadcast_rows (λ v g, x2 g - v)%Q ex gt_bboxes in
  let b : list (list Q) := broadcast_rows (λ v g, y2 g - v)%Q ey gt_bboxes in
  let m : list (list Q) :=
    mat_zip_with Qmin (mat_zip_with Qmin l t) (mat_zip_with Qmin r b) in
  (λ row : list Q, (λ v, Qgt_bool v (1 # 100)) <$> row) <$> m.

(** [overlaps[candidate_idxs, torch.arange(num_gt)]] *)
Definition candidate_overlaps_of (overlaps : list (list Q)) (num_gt : nat)
    (candidate_idxs : list (list nat)) : result (list (list Q)) :=
  mapM (λ row,
          mapM (λ p : nat * nat, r ← index overlaps p.1; index r p.2)
               (zip row (seq 0 num_gt)))
       candidate_idxs.

(** [topk_idxs_per_level + start_idx] *)
Definition shift_idxs (start_idx : nat) (idxs : list (list nat)) : list (list nat) :=
  (λ row : list nat, (λ i, i + start_idx) <$> row) <$> idxs.

(** [torch.full_like(overlaps, v)] *)
Definition full_like (overlaps : list (list Q)) (v : Q) : list (list Q) :=
  (λ row : list Q, (λ _, v) <$> row) <$> overlaps.

(** [assigned_gt_inds[max_overlaps != -INF] = argmax_overlaps[...] + 1] on
    a tensor of zeros. *)
Definition assigned_of (mx : list (Q * nat)) : list nat :=
  (λ p, if Qeq_bool p.1 (- INF) then 0 else p.2 + 1) <$> mx.

(** [torch.nonzero(assigned_gt_inds > 0).squeeze()] *)
Definition nonzero_pos (assigned : list nat) : list nat :=
  (filter (λ p : nat * nat, 0 < p.2) (zip (seq 0 (length assigned)) assigned)).*1.

(** The [gt_labels is not None] branch. *)
Definition assigned_labels_of (assigned : list nat) (gt_labels : list Z)
    : result (list Z) :=
  let assigned_labels := replicate (length assigned) 0%Z in
  let pos_inds := nonzero_pos assigned in
  if decide (0 < length pos_inds)
  then
    a ← gather assigned pos_inds;
    vals ← gather gt_labels ((λ i, i - 1) <$> a);
    index_put assigned_labels pos_inds vals
  else Ok assigned_labels.

Section assigner.

(** Modelled from the spec: [bbox_overlaps] (mmdet/core/bbox/geometry.py is
    not part of the sources) is the "IoU/overlap computation between box
    sets"; entry [(i, j)] of its result is the overlap of box [i] of the
    first set with box [j] of the second. *)
Variable bbox_overlaps : bbox → bbox → Q.

(** [Tensor.sqrt], entry by entry. *)
Variable sqrt : Q → Q.

(** [self.topk] *)
Variable topk : nat.

Definition overlaps_of (bboxes gt_bboxes : list bbox) : list (list Q) :=
  (λ b, bbox_overlaps b <$> gt_bboxes) <$> bboxes.

(** [(bboxes_points[:, None, :] - gt_points[None, :, :]).pow(2).sum(-1).sqrt()] *)
Definition distances_of (bboxes gt_bboxes : list bbox) : list (list Q) :=
  (λ b, (λ g, sqrt (sq (center_x b - center_x g) + sq (center_y b - center_y g))%Q)
          <$> gt_bboxes) <$> bboxes.

(** [xs.std()], unbiased; NaN for fewer than two samples. *)
Definition std (xs : list Q) : option Q :=
  match xs with
  | [] | [_] => None
  | _ =>
      m ← mean xs;
      Some (sqrt (Qsum ((λ x, sq (x - m)) <$> xs)
                  / inject_Z (Z.of_nat (length xs - 1)))%Q)
  end.

(** [candidate_overlaps.mean(0) + candidate_overlaps.std(0)] *)
Definition overlaps_thr_per_gt (num_gt : nat) (candidate_overlaps : list (list Q))
    : list (option Q) :=
  (λ g, let col := column 0%Q g candidate_overlaps in
        m ← mean col; s ← std col; Some (m + s)%Q) <$> seq 0 num_gt.

(** The loop over pyramid levels. *)
Fixpoint select_levels (distances : list (list Q)) (num_gt start_idx : nat)
    (num_level_bboxes : list nat) : result (list (list (list nat))) :=
  match num_level_bboxes with
  | [] => Ok []
  | bboxes_per_level :: rest =>
      let end_idx := start_idx + bboxes_per_level in
      let distances_per_level := drop start_idx (take end_idx distances) in
      topk_idxs_per_level ← topk_dim0 topk num_gt distances_per_level;
      tl ← select_levels distances num_gt end_idx rest;
      Ok (shift_idxs start_idx topk_idxs_per_level :: tl)
  end.

Definition select_candidates (distances : list (list Q)) (num_gt : nat)
    (num_level_bboxes : list nat) : result (list (list nat)) :=
  select_levels distances num_gt 0 num_level_bboxes ≫= torch_cat.

Definition assign (bboxes : list bbox) (num_level_bboxes : list nat)
    (gt_bboxes : list bbox) (gt_labels : option (list Z)) : result AssignResult :=
  if decide (length bboxes = 0 ∨ length gt_bboxes = 0) then Raise ValueError else
  let num_gt := length gt_bboxes in
  let overlaps := overlaps_of bboxes gt_bboxes in
  let bboxes_cx := center_x <$> bboxes in
  let bboxes_cy := center_y <$> bboxes in
  let distances := distances_of bboxes gt_bboxes in
  candidate_idxs ← select_candidates distances num_gt num_level_bboxes;
  candidate_overlaps ← candidate_overlaps_of overlaps num_gt candidate_idxs;
  let overlaps_thr := overlaps_thr_per_gt num_gt candidate_overlaps in
  let is_pos := is_pos_of candidate_overlaps overlaps_thr in
  let num_bboxes := length bboxes in
  let candidate_idxs := add_gt_offsets num_bboxes candidate_idxs in
  let expand_bboxes_cx := expand_flat num_gt bboxes_cx in
  let expand_bboxes_cy := expand_flat num_gt bboxes_cy in
  let candidate_idxs := concat candidate_idxs in
  ex ← gather expand_bboxes_cx candidate_idxs ≫= view_rows num_gt;
  ey ← gather expand_bboxes_cy candidate_idxs ≫= view_rows num_gt;
  let is_in_gts := is_in_gts_of ex ey gt_bboxes in
  let is_pos := mat_zip_with andb is_pos is_in_gts in
  let overlaps_inf :=
    concat (transpose 0%Q num_gt (full_like overlaps (- INF))) in
  index ← masked_select candidate_idxs (concat is_pos);
  vals ← gather (concat (transpose 0%Q num_gt overlaps)) index;
  overlaps_inf ← index_put overlaps_inf index vals;
  overlaps_inf ← view_cols num_gt overlaps_inf;
  let overlaps_inf := transpose 0%Q num_bboxes overlaps_inf in
  mx ← max_dim1 overlaps_inf;
  let assigned_gt_inds := assigned_of mx in
  assigned_labels ←
    match gt_labels with
    | Some gl => Some <$> assigned_labels_of assigned_gt_inds gl
    | None => Ok None
    end;
  Ok (mkAssignResult num_gt assigned_gt_inds (mx.*1) assigned_labels).

(** *** Vocabulary of the specification *)

(** Euclidean distance between the centres of two boxes. *)
Definition center_distance (b g : bbox) : Q :=
  sqrt (sq (center_x b - center_x g) + sq (center_y b - center_y g))%Q.

(** Mean plus (sample) standard deviation of a list of overlaps. *)
Definition mean_plus_std (xs : list Q) : option Q :=
  m ← mean xs; s ← std xs; Some (m + s)%Q.

(** *** The values computed on the way to a result

    [assign] succeeds exactly when each of its steps does; [is_run] names
    the intermediate tensors of a successful call. *)

Record run : Type := mkRun {
  r_cand : list (list nat);
  r_co : list (list Q);
  r_ex : list (list Q);
  r_ey : list (list Q);
  r_index : list nat;
  r_vals : list Q;
  r_inf : list Q;
  r_rows : list (list Q);
  r_mx : list (Q * nat);
  r_labels : option (list Z)
}.

Section run.

Variable bboxes : list bbox.
Variable num_level_bboxes : list nat.
Variable gt_bboxes : list bbox.
Variable gt_labels : option (list Z).

(** [candidate_idxs.view(-1)] after the offsets have been added. *)
Definition r_flat (t : run) : list nat :=
  concat (add_gt_offsets (length bboxes) (r_cand t)).

Definition r_thr (t : run) : list (option Q) :=
  overlaps_thr_per_gt (length gt_bboxes) (r_co t).

(** [is_pos & is_in_gts] *)
Definition r_is_pos (t : run) : list (list bool) :=
  mat_zip_with andb (is_pos_of (r_co t) (r_thr t))
               (is_in_gts_of (r_ex t) (r_ey t) gt_bboxes).

Definition is_run (t : run) : Prop :=
  let num_gt := length gt_bboxes in
  let overlaps := overlaps_of bboxes gt_bboxes in
  select_candidates (distances_of bboxes gt_bboxes) num_gt num_level_bboxes
  = Ok (r_cand t)
  ∧ candidate_overlaps_of overlaps num_gt (r_cand t) = Ok (r_co t)
  ∧ gather (expand_flat num_gt (center_x <$> bboxes)) (r_flat t) ≫= view_rows num_gt
    = Ok (r_ex t)
  ∧ gather (expand_flat num_gt (center_y <$> bboxes)) (r_flat t) ≫= view_rows num_gt
    = Ok (r_ey t)
  ∧ masked_select (r_flat t) (concat (r_is_pos t)) = Ok (r_index t)
  ∧ gather (concat (transpose 0%Q num_gt overlaps)) (r_index t) = Ok (r_vals t)
  ∧ index_put (concat (transpose 0%Q num_gt (full_like overlaps (- INF))))
              (r_index t) (r_vals t) = Ok (r_inf t)
  ∧ view_cols num_gt (r_inf t) = Ok (r_rows t)
  ∧ max_dim1 (transpose 0%Q (length bboxes) (r_rows t)) = Ok (r_mx t)
  ∧ match gt_labels with
    | Some gl => Some <$> assigned_labels_of (assigned_of (r_mx t)) gl
    | None => Ok None
    end = Ok (r_labels t).

End run.

End assigner.

(** First position of level [l] in the partition [num_level_bboxes]. *)
Definition level_start (num_level_bboxes : list nat) (l : nat) : nat :=
  sum_list (take l num_level_bboxes).

(** A concrete instance: intersection over union, and a square root
    rounded down to three decimals. *)
Definition area (b : bbox) : Q := ((x2 b - x1 b) * (y2 b - y1 b))%Q.

Definition iou (a b : bbox) : Q :=
  let w := Qmax 0 (Qmin (x2 a) (x2 b) - Qmax (x1 a) (x1 b)) in
  let h := Qmax 0 (Qmin (y2 a) (y2 b) - Qmax (y1 a) (y1 b)) in
  let inter := (w * h)%Q in
  Qred (inter / (area a + area b - inter))%Q.

Definition sqrt3 (q : Q) : Q :=
  (Z.sqrt (Qnum q * 1000000 / Z.pos (Qden q)) # 1000)%Q.

(** Six boxes on two pyramid levels and two ground truths. *)
Definition box (a b c d : Z) : bbox :=
  BBox (inject_Z a) (inject_Z b) (inject_Z c) (inject_Z d).

Definition example_bboxes : list bbox :=
  [box 0 0 10 10; box 2 2 12 12; box 20 20 30 30;
   box 0 0 40 40; box 1 1 11 11; box 18 18 32 32].

Definition example_levels : list nat := [3; 3].

Definition example_gts : list bbox := [box 1 1 11 11; box 19 19 31 31].

Definition example_labels : option (list Z) := Some [7%Z; 9%Z].

(** With [topk = 2] only the fifth box, which coincides with the first
    ground truth, becomes positive. *)
Definition example_result : AssignResult :=
  mkAssignResult 2 [0; 0; 0; 0; 1; 0]
    [(- INF)%Q; (- INF)%Q; (- INF)%Q; (- INF)%Q; 1%Q; (- INF)%Q]
    (Some [0%Z; 0%Z; 0%Z; 0%Z; 7%Z; 0%Z]).

End ATSS.

(** ** CascadeRoIHead *)

Module Cascade.

(** Score tensors: one row per RoI, one column per class. *)
Abbreviation tensor := (list (list Q)).

(** The collaborators of the head (assigners, samplers, RoI extractors,
    box and mask heads) and the data they exchange.  None of them is part
    of the sources; the head only calls them. *)
Record Components : Type := mkComponents {
  Feats : Type;
  Meta : Type;
  Boxes : Type;
  Labels : Type;
  Masks : Type;
  Cfg : Type;
  AssignRes : Type;
  SamplingRes : Type;
  Rois : Type;
  RoiFeats : Type;
  BboxPred : Type;
  Targets : Type;
  MaskPred : Type;
  MaskTargets : Type;
  LossVal : Type;
  Dets : Type;
  (** [build_assigner(cfg.assigner).assign(proposals, gt, ignore, labels)] *)
  assigner_assign : Cfg → Boxes → Boxes → option Boxes → Labels → AssignRes;
  (** [build_sampler(cfg.sampler).sample(..., feats=[lvl[j][None] for lvl in x])] *)
  sampler_sample : Cfg → AssignRes → Boxes → Boxes → Labels → Feats → nat → SamplingRes;
  (** [res.bboxes] and [res.pos_bboxes] *)
  res_bboxes : SamplingRes → Boxes;
  res_pos_bboxes : SamplingRes → Boxes;
  bbox2roi : list Boxes → Rois;
  (** [len(rois)] *)
  len_rois : Rois → nat;
  (** [self.bbox_roi_extractor[i](x[:num_inputs], rois)] *)
  bbox_roi_extractor : nat → Feats → Rois → RoiFeats;
  shared_head : RoiFeats → RoiFeats;
  (** [self.bbox_head[i](bbox_feats)] *)
  bbox_head : nat → RoiFeats → tensor * BboxPred;
  get_target : nat → list SamplingRes → list Boxes → list Labels → Cfg → Targets;
  bbox_loss : nat → tensor → BboxPred → Targets → gmap string LossVal;
  mask_roi_extractor : nat → Feats → Rois → RoiFeats;
  (** [bbox_feats[pos_inds.type(torch.bool)]] *)
  pos_feats : RoiFeats → list SamplingRes → RoiFeats;
  mask_head : nat → RoiFeats → MaskPred;
  mask_get_target : nat → list SamplingRes → option Masks → Cfg → MaskTargets;
  (** [mask_head.loss(mask_pred, mask_targets, pos_labels)] *)
  mask_loss : nat → MaskPred → MaskTargets → list SamplingRes → gmap string LossVal;
  (** [bbox_head.refine_bboxes(rois, bbox_targets[0], bbox_pred, pos_is_gts, img_meta)] *)
  refine_bboxes : nat → Rois → Targets → BboxPred → list SamplingRes → list Meta → list Boxes;
  (** [value * lw] *)
  mul_weight : LossVal → Q → LossVal;
  (** [bbox_head.regress_by_class(rois, bbox_label, bbox_pred, img_meta[0])] *)
  regress_by_class : nat → Rois → list nat → BboxPred → Meta → Rois;
  (** [self.bbox_head[-1].get_det_bboxes(rois, cls_score, bbox_pred, ...)] *)
  get_det_bboxes : Rois → tensor → BboxPred → Meta → bool → Dets
}.

(** The attributes of the head that the two entry points read.
    [__init__] asserts that a box head is given, so [with_bbox] holds, and
    [init_bboxhead] and [init_maskhead] assert that there is one extractor
    and one head per stage. *)
Record CascadeRoIHead (C : Components) : Type := mkHead {
  num_stages : nat;
  stage_loss_weights : list Q;
  train_cfg : list (Cfg C);
  with_mask : bool;
  with_shared_head : bool;
  share_roi_extractor : bool
}.
Arguments num_stages {C} _.
Arguments stage_loss_weights {C} _.
Arguments train_cfg {C} _.
Arguments with_mask {C} _.
Arguments with_shared_head {C} _.
Arguments share_roi_extractor {C} _.

(** The calls to the collaborators, in the order they are made. *)
Inductive event (C : Components) : Type :=
| EvAssign (stage img : nat) (proposals : Boxes C)
| EvSample (stage img : nat) (res : SamplingRes C)
| EvExtract (stage : nat) (rois : Rois C)
| EvPredict (stage : nat) (bbox_pred : BboxPred C)
| EvLoss (stage : nat) (entries : gmap string (LossVal C))
| EvRefine (stage : nat) (refined : list (Boxes C)).
Arguments EvAssign {C} _ _ _.
Arguments EvSample {C} _ _ _.
Arguments EvExtract {C} _ _.
Arguments EvPredict {C} _ _.
Arguments EvLoss {C} _ _.
Arguments EvRefine {C} _ _.

Record train_state (C : Components) : Type := mkTrainState {
  proposal_list : list (Boxes C);
  losses : gmap string (LossVal C);
  trace : list (event C)
}.
Arguments mkTrainState {C} _ _ _.
Arguments proposal_list {C} _.
Arguments losses {C} _.
Arguments trace {C} _.

(** ['s{}.{}'.format(i, name)] *)
Definition loss_key (i : nat) (name : string) : string :=
  "s" +:+ pretty i +:+ "." +:+ name.

Section head.

Context {C : Components} (self : CascadeRoIHead C).

(** [value * lw if 'loss' in name else value] *)
Definition weighted (lw : Q) (name : string) (value : LossVal C) : LossVal C :=
  if contains "loss" name then mul_weight C value lw else value.

(** [for name, value in d.items(): losses['s{}.{}'.format(i, name)] = ...] *)
Definition add_losses (i : nat) (lw : Q) (d : gmap string (LossVal C))
    (losses : gmap string (LossVal C)) : gmap string (LossVal C) :=
  map_fold (λ name value acc, <[loss_key i name := weighted lw name value]> acc)
           losses d.

(** Head [i] applied to the features of [rois]: the scores and the box
    prediction of stage [i]. *)
Definition stage_forward (x : Feats C) (i : nat) (rois : Rois C)
    : tensor * BboxPred C :=
  let bbox_feats := bbox_roi_extractor C i x rois in
  let bbox_feats :=
    if with_shared_head self then shared_head C bbox_feats else bbox_feats in
  bbox_head C i bbox_feats.

(** The dictionary built from the loss calls [evs] (stage and returned
    entries), in order. *)
Definition fold_losses (L : gmap string (LossVal C))
    (evs : list (nat * gmap string (LossVal C))) : gmap string (LossVal C) :=
  foldl (λ L p, match stage_loss_weights self !! p.1 with
                | Some lw => add_losses p.1 lw p.2 L
                | None => L
                end) L evs.

Section forward_train.

Variable x : Feats C.
Variable img_meta : list (Meta C).
Variable gt_bboxes : list (Boxes C).
Variable gt_labels : list (Labels C).
Variable gt_bboxes_ignore : option (list (Boxes C)).
Variable gt_masks : option (Masks C).

(** [gt_bboxes_ignore[j]] after [None] has been replaced by a list of
    [None]s. *)
Definition ignore_at (j : nat) : result (option (Boxes C)) :=
  match gt_bboxes_ignore with
  | None => if decide (j < length img_meta) then Ok None else Raise IndexError
  | Some l => Some <$> index l j
  end.

(** The loop over the images of the batch. *)
Fixpoint assign_sample_loop (i : nat) (rcnn_train_cfg : Cfg C)
    (proposals : list (Boxes C)) (js : list nat)
    : result (list (SamplingRes C) * list (event C)) :=
  match js with
  | [] => Ok ([], [])
  | j :: rest =>
      p ← index proposals j;
      gb ← index gt_bboxes j;
      ig ← ignore_at j;
      gl ← index gt_labels j;
      let assign_result := assigner_assign C rcnn_train_cfg p gb ig gl in
      let sampling_result :=
        sampler_sample C rcnn_train_cfg assign_result p gb gl x j in
      r ← assign_sample_loop i rcnn_train_cfg proposals rest;
      Ok (sampling_result :: r.1,
          EvAssign i j p :: EvSample i j sampling_result :: r.2)
  end.

(** One iteration of [for i in range(self.num_stages)]. *)
Definition run_stage (i : nat) (st : train_state C) : result (train_state C) :=
  rcnn_train_cfg ← index (train_cfg self) i;
  lw ← index (stage_loss_weights self) i;
  as_ ← assign_sample_loop i rcnn_train_cfg (proposal_list st)
         (seq 0 (length img_meta));
  let sampling_results : list (SamplingRes C) := as_.1 in
  let tr : list (event C) := trace st ++ as_.2 in
  let rois := bbox2roi C (res_bboxes C <$> sampling_results) in
  if decide (len_rois C rois = 0)
  then Ok (mkTrainState (proposal_list st) (losses st) tr)
  else
    let bbox_feats := bbox_roi_extractor C i x rois in
    let bbox_feats :=
      if with_shared_head self then shared_head C bbox_feats else bbox_feats in
    let out := bbox_head C i bbox_feats in
    let cls_score := out.1 in
    let bbox_pred := out.2 in
    let bbox_targets :=
      get_target C i sampling_results gt_bboxes gt_labels rcnn_train_cfg in
    let loss_bbox := bbox_loss C i cls_score bbox_pred bbox_targets in
    let ls := add_losses i lw loss_bbox (losses st) in
    let tr := tr ++ [EvExtract i rois; EvPredict i bbox_pred; EvLoss i loss_bbox] in
    let '(ls, tr) :=
      if with_mask self
      then
        let mask_feats :=
          if share_roi_extractor self
          then pos_feats C bbox_feats sampling_results
          else
            let pos_rois := bbox2roi C (res_pos_bboxes C <$> sampling_results) in
            let mask_feats := mask_roi_extractor C i x pos_rois in
            if with_shared_head self then shared_head C mask_feats else mask_feats in
        let mask_pred := mask_head C i mask_feats in
        let mask_targets :=
          mask_get_target C i sampling_results gt_masks rcnn_train_cfg in
        let loss_mask := mask_loss C i mask_pred mask_targets sampling_results in
        (add_losses i lw loss_mask ls, tr ++ [EvLoss i loss_mask])
      else (ls, tr) in
    if decide (i < num_stages self - 1)
    then
      let refined :=
        refine_bboxes C i rois bbox_targets bbox_pred sampling_results img_meta in
      Ok (mkTrainState refined ls (tr ++ [EvRefine i refined]))
    else Ok (mkTrainState (proposal_list st) ls tr).

Fixpoint run_stages (stages : list nat) (st : train_state C)
    : result (train_state C) :=
  match stages with
  | [] => Ok st
  | i :: rest => run_stage i st ≫= run_stages rest
  end.

(** The state after the loop over the stages. *)
Definition forward_train_state (proposals : list (Boxes C)) : result (train_state C) :=
  run_stages (seq 0 (num_stages self)) (mkTrainState proposals ∅ []).

Definition forward_train (proposals : list (Boxes C))
    : result (gmap string (LossVal C)) :=
  losses <$> forward_train_state proposals.

(** *** Vocabulary of the specification *)

(** The calls of the loop over the images: assign, then sample, image by
    image. *)
Definition stage_calls (i : nat) (proposals : list (Boxes C))
    (sampling_results : list (SamplingRes C)) : list (event C) :=
  concat (zip_with (λ j res,
                      match proposals !! j with
                      | Some p => [EvAssign i j p; EvSample i j res]
                      | None => []
                      end)
                   (seq 0 (length img_meta)) sampling_results).

(** The box prediction of stage [i] on [rois]. *)
Definition stage_bbox_pred (i : nat) (rois : Rois C) : BboxPred C :=
  (stage_forward x i rois).2.

Definition is_loss_event (i : nat) (e : event C) : Prop :=
  ∃ entries, e = EvLoss i entries.

(** The calls of stage [i] started with the proposals [P], and the
    proposals it leaves to the next stage: a stage whose sampled RoIs are
    empty stops after sampling and keeps [P]. *)
Inductive stage_segment (i : nat) (P : list (Boxes C))
    : list (event C) → list (Boxes C) → Prop :=
| seg_skipped srs :
    length srs = length img_meta →
    len_rois C (bbox2roi C (res_bboxes C <$> srs)) = 0 →
    stage_segment i P (stage_calls i P srs) P
| seg_last srs ls :
    length srs = length img_meta →
    let rois := bbox2roi C (res_bboxes C <$> srs) in
    len_rois C rois ≠ 0 →
    ¬ i < num_stages self - 1 →
    Forall (is_loss_event i) ls →
    stage_segment i P
      (stage_calls i P srs
       ++ [EvExtract i rois; EvPredict i (stage_bbox_pred i rois)] ++ ls)
      P
| seg_refined srs ls targets :
    length srs = length img_meta →
    let rois := bbox2roi C (res_bboxes C <$> srs) in
    let refined :=
      refine_bboxes C i rois targets (stage_bbox_pred i rois) srs img_meta in
    len_rois C rois ≠ 0 →
    i < num_stages self - 1 →
    Forall (is_loss_event i) ls →
    stage_segment i P
      (stage_calls i P srs
       ++ [EvExtract i rois; EvPredict i (stage_bbox_pred i rois)] ++ ls
       ++ [EvRefine i refined])
      refined.

(** [cascade_trace n i P tr]: [tr] lists the calls of the [n] stages
    [i], [i + 1], ..., the first of them started with the proposals [P],
    each of the others with the proposals left by the stage before it. *)
Inductive cascade_trace : nat → nat → list (Boxes C) → list (event C) → Prop :=
| cascade_done i P : cascade_trace 0 i P []
| cascade_stage n i P seg P' tr :
    stage_segment i P seg P' →
    cascade_trace n (S i) P' tr →
    cascade_trace (S n) i P (seg ++ tr).

(** The dictionaries returned by the loss calls, with their stage. *)
Definition loss_events (tr : list (event C))
    : list (nat * gmap string (LossVal C)) :=
  omap (λ e, match e with
             | EvLoss i entries => Some (i, entries)
             | _ => None
             end) tr.

(** Every stage runs its box head, whether or not RoIs were sampled. *)
Definition every_stage_predicts (tr : list (event C)) : Prop :=
  ∀ i, i < num_stages self → ∃ bbox_pred, EvPredict i bbox_pred ∈ tr.

End forward_train.

(** *** [simple_test], up to the detections of the box branch *)

Definition scalar_add (c : Q) (t : tensor) : tensor :=
  (λ row : list Q, Qplus c <$> row) <$> t.

Definition tensor_add (s t : tensor) : tensor := mat_zip_with Qplus s t.

Definition tensor_div (t : tensor) (n : nat) : tensor :=
  (λ row : list Q, (λ v, v / inject_Z (Z.of_nat n))%Q <$> row) <$> t.

(** Python's [sum(ts)] of a non-empty list of tensors: [((0 + t0) + t1) + ...] *)
Definition py_sum (ts : list tensor) : tensor :=
  match ts with
  | [] => []
  | t :: rest => foldl tensor_add (scalar_add 0 t) rest
  end.

(** [cls_score.argmax(dim=1)] *)
Definition argmax_dim1 (cls_score : tensor) : result (list nat) :=
  (λ mx : list (Q * nat), mx.*2) <$> max_dim1 cls_score.

Record test_state : Type := mkTestState {
  rois : Rois C;
  ms_scores : list tensor;
  last_bbox_pred : option (BboxPred C)
}.

Section simple_test.

Variable x : Feats C.

(** One iteration of the loop over the stages. *)
Definition test_stage (img_meta0 : Meta C) (i : nat) (st : test_state)
    : result test_state :=
  let bbox_feats := bbox_roi_extractor C i x (rois st) in
  let bbox_feats :=
    if with_shared_head self then shared_head C bbox_feats else bbox_feats in
  let out := bbox_head C i bbox_feats in
  let cls_score := out.1 in
  let bbox_pred := out.2 in
  let ms := ms_scores st ++ [cls_score] in
  if decide (i < num_stages self - 1)
  then
    bbox_label ← argmax_dim1 cls_score;
    Ok (mkTestState (regress_by_class C i (rois st) bbox_label bbox_pred img_meta0)
                    ms (Some bbox_pred))
  else Ok (mkTestState (rois st) ms (Some bbox_pred)).

Fixpoint test_stages (img_meta0 : Meta C) (stages : list nat) (st : test_state)
    : result test_state :=
  match stages with
  | [] => Ok st
  | i :: rest => test_stage img_meta0 i st ≫= test_stages img_meta0 rest
  end.

(** The averaged score [cls_score] and the detections computed from it.
    The mask branch that follows only reads the detections. *)
Definition simple_test (proposal_list : list (Boxes C)) (img_meta : list (Meta C))
    (rescale : bool) : result (tensor * Dets C) :=
  img_meta0 ← index img_meta 0;
  st ← test_stages img_meta0 (seq 0 (num_stages self))
         (mkTestState (bbox2roi C proposal_list) [] None);
  if decide (num_stages self = 0) then Raise ZeroDivisionError else
  let cls_score := tensor_div (py_sum (ms_scores st)) (num_stages self) in
  match last_bbox_pred st with
  | Some bbox_pred =>
      Ok (cls_score, get_det_bboxes C (rois st) cls_score bbox_pred img_meta0 rescale)
  | None => Raise RuntimeError
  end.

(** *** Vocabulary of the specification *)

(** The RoIs scored by stage [i]: the proposals for the first stage, and
    for every other stage the RoIs of the stage before, regressed with the
    box prediction of that stage. *)
Fixpoint rois_at (img_meta0 : Meta C) (rois0 : Rois C) (i : nat)
    : result (Rois C) :=
  match i with
  | 0 => Ok rois0
  | S j =>
      r ← rois_at img_meta0 rois0 j;
      bbox_label ← argmax_dim1 (stage_forward x j r).1;
      Ok (regress_by_class C j r bbox_label (stage_forward x j r).2 img_meta0)
  end.

End simple_test.

End head.

(** A concrete head with two stages: boxes are numbers, the sampler keeps
    every proposal, refinement moves every box by one. *)
Definition example_components : Components :=
  {| Feats := unit; Meta := unit; Boxes := list nat; Labels := unit;
     Masks := unit; Cfg := unit; AssignRes := list nat;
     SamplingRes := list nat; Rois := list nat; RoiFeats := list nat;
     BboxPred := list nat; Targets := unit; MaskPred := unit;
     MaskTargets := unit; LossVal := Q; Dets := list nat;
     assigner_assign := λ _ p _ _ _, p;
     sampler_sample := λ _ ar _ _ _ _ _, ar;
     res_bboxes := λ res, res;
     res_pos_bboxes := λ res, res;
     bbox2roi := λ l, concat l;
     len_rois := λ rois, length rois;
     bbox_roi_extractor := λ _ _ rois, rois;
     shared_head := λ f, f;
     bbox_head := λ i f, ((λ b, [inject_Z (Z.of_nat (b + i)); 1%Q]) <$> f, f);
     get_target := λ _ _ _ _ _, tt;
     bbox_loss := λ _ _ _ _, <["loss_cls" := 3%Q]> (<["acc" := 1%Q]> ∅);
     mask_roi_extractor := λ _ _ rois, rois;
     pos_feats := λ f _, f;
     mask_head := λ _ _, tt;
     mask_get_target := λ _ _ _ _, tt;
     mask_loss := λ _ _ _ _, <["loss_mask" := 5%Q]> ∅;
     refine_bboxes := λ _ rois _ _ _ metas, (λ _, S <$> rois) <$> metas;
     mul_weight := Qmult;
     regress_by_class := λ _ rois _ _ _, S <$> rois;
     get_det_bboxes := λ rois _ _ _ _, rois |}.

Definition example_head : CascadeRoIHead example_components :=
  mkHead example_components 2 [1%Q; (1 # 2)%Q] [tt; tt] false false true.

(** *** [init_bboxhead] and [init_maskhead] *)

(** An argument of [__init__] that is one configuration for all stages or
    a list of configurations. *)
Inductive stage_cfg (A : Type) : Type :=
| Single (cfg : A)
| PerStage (cfgs : list A).
Arguments Single {A} _.
Arguments PerStage {A} _.

(** [[cfg for _ in range(self.num_stages)]] unless [cfg] is a list. *)
Definition per_stage {A} (num_stages : nat) (cfg : stage_cfg A) : list A :=
  match cfg with
  | Single cfg => replicate num_stages cfg
  | PerStage cfgs => cfgs
  end.

Section init.

Context {ExtractorCfg HeadCfg MaskHeadCfg Extractor Head MaskHead : Type}.

(** [builder.build_roi_extractor] and [builder.build_head] *)
Variable build_roi_extractor : ExtractorCfg → Extractor.
Variable build_head : HeadCfg → Head.
Variable build_mask_head : MaskHeadCfg → MaskHead.

(** The lists [self.bbox_roi_extractor] and [self.bbox_head]; [None] is the
    [AssertionError]. *)
Definition init_bboxhead (num_stages : nat)
    (bbox_roi_extractor : stage_cfg ExtractorCfg) (bbox_head : stage_cfg HeadCfg)
    : option (list Extractor * list Head) :=
  let bbox_roi_extractor := per_stage num_stages bbox_roi_extractor in
  let bbox_head := per_stage num_stages bbox_head in
  if decide (length bbox_roi_extractor = length bbox_head
             ∧ length bbox_head = num_stages)
  then
    let pairs := zip bbox_roi_extractor bbox_head in
    Some ((λ p : ExtractorCfg * HeadCfg, build_roi_extractor p.1) <$> pairs,
          (λ p : ExtractorCfg * HeadCfg, build_head p.2) <$> pairs)
  else None.

(** [self.mask_head], [self.share_roi_extractor] and
    [self.mask_roi_extractor], given [self.bbox_roi_extractor]. *)
Definition init_maskhead (num_stages : nat) (self_bbox_roi_extractor : list Extractor)
    (mask_roi_extractor : option (stage_cfg ExtractorCfg))
    (mask_head : stage_cfg MaskHeadCfg)
    : option (list MaskHead * bool * list Extractor) :=
  let mask_head := per_stage num_stages mask_head in
  if decide (length mask_head = num_stages)
  then
    let self_mask_head := build_mask_head <$> mask_head in
    match mask_roi_extractor with
    | Some mask_roi_extractor =>
        let mask_roi_extractor := per_stage num_stages mask_roi_extractor in
        if decide (length mask_roi_extractor = num_stages)
        then Some (self_mask_head, false,
                   build_roi_extractor <$> mask_roi_extractor)
        else None
    | None => Some (self_mask_head, true, self_bbox_roi_extractor)
    end
  else None.

End init.

(** *** [forward_dummy] *)

(** The entries of the tuple [outs]. *)
Inductive dummy_out (C : Components) : Type :=
| OutScore (cls_score : tensor)
| OutBbox (bbox_pred : BboxPred C)
| OutMask (mask_pred : MaskPred C).
Arguments OutScore {C} _.
Arguments OutBbox {C} _.
Arguments OutMask {C} _.

Section forward_dummy.

Context {C : Components} (self : CascadeRoIHead C).

(** [rois[:n]] *)
Variable rois_take : nat → Rois C → Rois C.

(** [self.mask_roi_extractor[i]], which [init_maskhead] makes the box
    extractor when the extractors are shared. *)
Definition self_mask_roi_extractor (i : nat) : Feats C → Rois C → RoiFeats C :=
  if share_roi_extractor self
  then bbox_roi_extractor C i
  else mask_roi_extractor C i.

Definition forward_dummy (x : Feats C) (proposals : Boxes C)
    : list (dummy_out C) :=
  let outs : list (dummy_out C) := [] in
  let rois := bbox2roi C [proposals] in
  let outs :=
    foldl (λ outs i,
             let out := stage_forward self x i rois in
             outs ++ [OutScore out.1; OutBbox out.2])
          outs (seq 0 (num_stages self)) in
  if with_mask self
  then
    let mask_rois := rois_take 100 rois in
    foldl (λ outs i,
             let mask_feats := self_mask_roi_extractor i x mask_rois in
             let mask_feats :=
               if with_shared_head self
               then shared_head C mask_feats else mask_feats in
             let mask_pred := mask_head C i mask_feats in
             outs ++ [OutMask mask_pred])
          outs (seq 0 (num_stages self))
  else outs.

End forward_dummy.

(** *** The state of the loop of [simple_test] *)

Section tested.

Context {C : Components} (self : CascadeRoIHead C).
Variable x : Feats C.
Variable img_meta0 : Meta C.
Variable rois0 : Rois C.

(** What the loop has computed after the stages below [k]: the RoIs of
    stage [k], or those of the last stage once it has run, one score per
    stage, and the box prediction of stage [k - 1]. *)
Definition tested (k : nat) (st : test_state) : Prop :=
  rois_at self x img_meta0 rois0 (k `min` (num_stages self - 1)) = Ok (rois st)
  ∧ length (ms_scores st) = k
  ∧ (0 < k →
     ∃ r, rois_at self x img_meta0 rois0 (k - 1) = Ok r
          ∧ last_bbox_pred st = Some (stage_forward self x (k - 1) r).2).

End tested.

End Cascade.

(** ** SemiMixUpDetector *)

Module SemiMixUp.

(** A loss entry: a tensor, or a [Sequence] of tensors. *)
Inductive loss_value : Type :=
| Scalar (v : Q)
| Sequence (items : list Q).

(** [gt_instances]: boxes and their labels, kept as two tensors. *)
Record InstanceData : Type := mkInstances {
  bboxes : list bbox;
  labels : list Z
}.

(** [results.pred_instances] *)
Record PredInstances : Type := mkPred {
  pred_bboxes : list bbox;
  pred_labels : list Z;
  scores : list Q
}.

Record DataSample (Meta : Type) : Type := mkSample {
  gt_instances : InstanceData;
  meta : Meta
}.
Arguments mkSample {Meta} _ _.
Arguments gt_instances {Meta} _.
Arguments meta {Meta} _.

(** [self.semi_train_cfg] *)
Record SemiTrainCfg : Type := mkCfg {
  sup_weight : option Q;
  unsup_weight : option Q;
  score_thr : Q;
  min_pseudo_bbox_wh : Q * Q
}.

(** [[item * weight for item in loss]] or [loss * weight] *)
Definition scale (w : Q) (loss : loss_value) : loss_value :=
  match loss with
  | Sequence items => Sequence ((λ item, item * w)%Q <$> items)
  | Scalar v => Scalar (v * w)%Q
  end.

(** [weight(losses, weight)]: the loop assigns into [losses] itself. *)
Definition weight (losses : gmap string loss_value) (w : Q)
    : gmap string loss_value :=
  map_fold (λ name loss acc,
              if contains "loss" name then <[name := scale w loss]> acc else acc)
           losses losses.

(** Every tensor of the entry is zero. *)
Definition is_zero (loss : loss_value) : Prop :=
  match loss with
  | Scalar v => (v == 0)%Q
  | Sequence items => Forall (λ item, item == 0)%Q items
  end.

(** [{prefix + k: v for k, v in d.items()}] *)
Definition prefix_keys (prefix : string) (d : gmap string loss_value)
    : gmap string loss_value :=
  kmap (String.app prefix) d.

(** [data_samples.gt_instances.new(bboxes=b[mask], labels=l[mask])] *)
Definition select_instances (bs : list bbox) (ls : list Z) (mask : list bool)
    : result InstanceData :=
  b ← masked_select bs mask;
  l ← masked_select ls mask;
  Ok (mkInstances b l).

(** The body of the loop of [filter_pseudo_instances]. *)
Definition filter_pseudo_one (cfg : SemiTrainCfg) (gi : InstanceData)
    : result InstanceData :=
  let pseudo_bboxes := bboxes gi in
  if decide (length pseudo_bboxes = 0) then Ok gi else
  let w := (λ b, x2 b - x1 b)%Q <$> pseudo_bboxes in
  let h := (λ b, y2 b - y1 b)%Q <$> pseudo_bboxes in
  let valid_mask :=
    zip_with andb ((λ v, Qgt_bool v (min_pseudo_bbox_wh cfg).1) <$> w)
                  ((λ v, Qgt_bool v (min_pseudo_bbox_wh cfg).2) <$> h) in
  select_instances (bboxes gi) (labels gi) valid_mask.

(** The body of the loop of [update_pseudo_instances]. *)
Definition update_pseudo_one (cfg : SemiTrainCfg) (results : PredInstances)
    : result InstanceData :=
  let valid_flag := (λ s, Qgt_bool s (score_thr cfg)) <$> scores results in
  select_instances (pred_bboxes results) (pred_labels results) valid_flag.

(** *** Vocabulary of the specification *)

(** [pseudo] holds the predicted boxes of [results], with their labels,
    whose score is above the threshold. *)
Definition above_score_thr (cfg : SemiTrainCfg) (results : PredInstances)
    (pseudo : InstanceData) : Prop :=
  length (bboxes pseudo) = length (labels pseudo)
  ∧ zip (bboxes pseudo) (labels pseudo)
    = (filter (λ p : (bbox * Z) * Q, (score_thr cfg < p.2)%Q)
              (zip (zip (pred_bboxes results) (pred_labels results))
                   (scores results))).*1.

(** [kept] holds the boxes of [gi], with their labels, that are wider and
    higher than the minimum. *)
Definition large_enough (cfg : SemiTrainCfg) (gi kept : InstanceData) : Prop :=
  length (bboxes kept) = length (labels kept)
  ∧ zip (bboxes kept) (labels kept)
    = filter (λ p : bbox * Z,
                ((min_pseudo_bbox_wh cfg).1 < x2 p.1 - x1 p.1)%Q
                ∧ ((min_pseudo_bbox_wh cfg).2 < y2 p.1 - y1 p.1)%Q)
             (zip (bboxes gi) (labels gi)).

(** The fields of an [InstanceData] have one entry per instance. *)
Definition pred_well_formed (results : PredInstances) : Prop :=
  length (pred_labels results) = length (pred_bboxes results)
  ∧ length (scores results) = length (pred_bboxes results).

Definition instances_well_formed (gi : InstanceData) : Prop :=
  length (labels gi) = length (bboxes gi).

Section detector.

Context {Inputs Meta : Type}.

(** [self.student.loss] and [self.teacher.predict] *)
Variable student_loss : Inputs → list (DataSample Meta) → gmap string loss_value.
Variable teacher_predict : Inputs → list (DataSample Meta) → list PredInstances.

Variable cfg : SemiTrainCfg.

Definition gt_loss (batch_inputs : Inputs)
    (batch_data_samples : list (DataSample Meta)) : gmap string loss_value :=
  prefix_keys "sup_"
    (weight (student_loss batch_inputs batch_data_samples)
            (default 1%Q (sup_weight cfg))).

Definition pseudo_loss (batch_inputs : Inputs)
    (batch_data_samples : list (DataSample Meta)) : gmap string loss_value :=
  let pseudo_instances_num :=
    sum_list ((λ ds, length (bboxes (gt_instances ds))) <$> batch_data_samples) in
  let unsup_weight :=
    if decide (0 < pseudo_instances_num)
    then default 1%Q (unsup_weight cfg) else 0%Q in
  prefix_keys "unsup_"
    (weight (student_loss batch_inputs batch_data_samples) unsup_weight).

Definition filter_pseudo_instances (batch_data_samples : list (DataSample Meta))
    : result (list (DataSample Meta)) :=
  mapM (λ ds : DataSample Meta,
          gi ← filter_pseudo_one cfg (gt_instances ds);
          Ok (mkSample gi (meta ds)))
       batch_data_samples.

(** The loop over [zip(batch_data_samples, results_list)]; the samples are
    updated in place and the whole batch is returned. *)
Fixpoint update_loop (batch_data_samples : list (DataSample Meta))
    (results_list : list PredInstances) : result (list (DataSample Meta)) :=
  match batch_data_samples, results_list with
  | ds :: samples, results :: rest =>
      gi ← update_pseudo_one cfg results;
      tl ← update_loop samples rest;
      Ok (mkSample gi (meta ds) :: tl)
  | _, _ => Ok batch_data_samples
  end.

Definition update_pseudo_instances (batch_inputs : Inputs)
    (batch_data_samples : list (DataSample Meta))
    : result (list (DataSample Meta)) :=
  update_loop batch_data_samples (teacher_predict batch_inputs batch_data_samples).

End detector.

(** A concrete student and teacher: three loss entries, and two
    predicted boxes of which the second is small and scored low. *)
Definition example_losses : gmap string loss_value :=
  <["loss_cls" := Scalar 2%Q]>
    (<["acc" := Scalar 90%Q]> (<["loss_bbox" := Sequence [1%Q; 3%Q]]> ∅)).

Definition example_cfg : SemiTrainCfg :=
  mkCfg None (Some 4%Q) (9 # 10)%Q (1%Q, 1%Q).

Definition example_empty_batch : list (DataSample unit) :=
  [mkSample (mkInstances [] []) tt].

Definition example_batch : list (DataSample unit) :=
  [mkSample (mkInstances [BBox 0 0 10 10; BBox 5 5 (11 # 2) (11 # 2)]
                         [3%Z; 8%Z]) tt].

Definition example_pred : PredInstances :=
  mkPred [BBox 0 0 10 10; BBox 5 5 (11 # 2) (11 # 2)] [3%Z; 8%Z]
         [(95 # 100)%Q; (5 # 10)%Q].

(** *** [mixup], [project_pseudo_instances] and [loss] *)

(** [torch.cat] of the boxes and of the labels of two [InstanceData]. *)
Definition cat_instances (a b : InstanceData) : InstanceData :=
  mkInstances (bboxes a ++ bboxes b) (labels a ++ labels b).

(** [multi_batch_inputs] and [multi_batch_data_samples]: the entries read
    at the keys ['sup'], ['unsup_teacher'] and ['unsup_student']. *)
Record MultiBatch (A : Type) : Type := mkMultiBatch {
  sup : A;
  unsup_teacher : A;
  unsup_student : A
}.
Arguments mkMultiBatch {A} _ _ _.
Arguments sup {A} _.
Arguments unsup_teacher {A} _.
Arguments unsup_student {A} _.

Section semi_loss.

Context {Inputs Meta : Type}.

Variable student_loss : Inputs → list (DataSample Meta) → gmap string loss_value.
Variable teacher_predict : Inputs → list (DataSample Meta) → list PredInstances.
Variable cfg : SemiTrainCfg.

(** [bbox_project] of mmdet.core (not part of the sources), applied to the
    boxes with the [homography_matrix] and the [img_shape] of a sample. *)
Variable bbox_project : list bbox → Meta → list bbox.

(** [len(batch_inputs)] *)
Variable num_images : Inputs → nat.

(** [int(np.random.choice(n, 1))] for [n > 0]: some position below [n]. *)
Variable random_choice : nat → nat.

(** The pixels of [mixup]: the zero tensor of the larger height and width
    to which half of image [sup_idx] of [sup_batch_inputs] and half of
    [unsup_batch_inputs] are added. *)
Variable mix_inputs : Inputs → nat → Inputs → result Inputs.

Definition mixup (sup_batch_inputs : Inputs)
    (sup_batch_data_samples : list (DataSample Meta))
    (unsup_batch_inputs : Inputs)
    (unsup_batch_data_samples : list (DataSample Meta))
    : result (Inputs * list (DataSample Meta)) :=
  if decide (num_images sup_batch_inputs = 0) then Raise ValueError else
  let sup_idx := random_choice (num_images sup_batch_inputs) in
  sup_data_samples ← index sup_batch_data_samples sup_idx;
  mixup_batch_inputs ← mix_inputs sup_batch_inputs sup_idx unsup_batch_inputs;
  Ok (mixup_batch_inputs,
      (λ data_samples : DataSample Meta,
         mkSample (cat_instances (gt_instances data_samples)
                                 (gt_instances sup_data_samples))
                  (meta data_samples))
        <$> unsup_batch_data_samples).

(** The loop over [zip(batch_pseudo_instances, batch_data_samples)]. *)
Fixpoint project_loop (batch_pseudo_instances batch_data_samples
    : list (DataSample Meta)) : list (DataSample Meta) :=
  match batch_pseudo_instances, batch_data_samples with
  | pseudo_instances :: pseudo, data_samples :: samples =>
      let pseudo_bboxes :=
        bbox_project (bboxes (gt_instances pseudo_instances))
                     (meta data_samples) in
      let pseudo_labels := labels (gt_instances pseudo_instances) in
      mkSample (mkInstances pseudo_bboxes pseudo_labels) (meta data_samples)
        :: project_loop pseudo samples
  | _, _ => batch_data_samples
  end.

Definition project_pseudo_instances
    (batch_pseudo_instances batch_data_samples : list (DataSample Meta))
    : result (list (DataSample Meta)) :=
  filter_pseudo_instances cfg
    (project_loop batch_pseudo_instances batch_data_samples).

(** [losses.update] writes the entries of its argument over [losses]. *)
Definition loss (multi_batch_inputs : MultiBatch Inputs)
    (multi_batch_data_samples : MultiBatch (list (DataSample Meta)))
    : result (gmap string loss_value) :=
  let losses : gmap string loss_value :=
    gt_loss student_loss cfg (sup multi_batch_inputs)
            (sup multi_batch_data_samples) ∪ ∅ in
  origin_pseudo_instances ←
    update_pseudo_instances teacher_predict cfg
      (unsup_teacher multi_batch_inputs)
      (unsup_teacher multi_batch_data_samples);
  unsup_student_samples ←
    project_pseudo_instances origin_pseudo_instances
      (unsup_student multi_batch_data_samples);
  mixed ←
    mixup (sup multi_batch_inputs) (sup multi_batch_data_samples)
          (unsup_student multi_batch_inputs) unsup_student_samples;
  Ok (pseudo_loss student_loss cfg mixed.1 mixed.2 ∪ losses).

End semi_loss.

(** *** [_load_from_state_dict]: the state dict handed to the parent class *)

(** ['student' in key or 'teacher' in key] *)
Definition names_model (key : string) : bool :=
  contains "student" key || contains "teacher" key.

(** [{prefix + k: state_dict[k] for k in keys}], as the list of its entries
    in the order they are written; [None] is the [KeyError] of a missing
    key. *)
Definition prefixed_entries {V} (prefix : string) (state_dict : gmap string V)
    (keys : list string) : option (list (string * V)) :=
  mapM (λ k, v ← state_dict !! k; Some (prefix +:+ k, v)) keys.

(** [state_dict.update(entries)] *)
Definition dict_update {V} (state_dict : gmap string V)
    (entries : list (string * V)) : gmap string V :=
  foldl (λ acc p, <[p.1 := p.2]> acc) state_dict entries.

(** [for k in keys: state_dict.pop(k)] *)
Fixpoint pop_all {V} (state_dict : gmap string V) (keys : list string)
    : option (gmap string V) :=
  match keys with
  | [] => Some state_dict
  | k :: rest =>
      match state_dict !! k with
      | Some _ => pop_all (delete k state_dict) rest
      | None => None
      end
  end.

Definition _load_from_state_dict {V} (state_dict : gmap string V)
    : option (gmap string V) :=
  let keys := (map_to_list state_dict).*1 in
  if existsb names_model keys then Some state_dict else
  teacher ← prefixed_entries "teacher." state_dict keys;
  let state_dict := dict_update state_dict teacher in
  student ← prefixed_entries "student." state_dict keys;
  let state_dict := dict_update state_dict student in
  pop_all state_dict keys.

(** A checkpoint of a plain detector, and a batch for [loss]: the teacher
    predicts nothing above the threshold, the labelled image has one
    box. *)
Definition example_state_dict : gmap string Z :=
  <["backbone.weight" := 1%Z]> (<["head.bias" := 2%Z]> ∅).

Definition example_sup_batch : list (DataSample unit) :=
  [mkSample (mkInstances [BBox 0 0 10 10] [3%Z]) tt].

Definition example_low_pred : PredInstances :=
  mkPred [BBox 0 0 10 10] [3%Z] [(5 # 10)%Q].

End SemiMixUp.

(** * Properties *)

(** ** The error monad *)

Lemma bind_Ok {A B} (f : A → result B) (m : result A) (b : B) :
  m ≫= f = Ok b ↔ ∃ a, m = Ok a ∧ f a = Ok b.
Proof.
  destruct m as [a|e]; simpl; split.
  - intros H. by exists a.
  - by intros (a' & [= ->] & H).
  - done.
  - by intros (a' & [=] & _).
Qed.

Lemma fmap_Ok {A B} (f : A → B) (m : result A) (b : B) :
  f <$> m = Ok b ↔ ∃ a, m = Ok a ∧ b = f a.
Proof.
  destruct m as [a|e]; simpl; split.
  - intros [= <-]. by exists a.
  - by intros (a' & [= ->] & ->).
  - done.
  - by intros (a' & [=] & _).
Qed.

Section result_facts.

Context {A B : Type}.

Lemma mapM_Ok (f : A → result B) (l : list A) (k : list B) :
  mapM f l = Ok k ↔ Forall2 (λ x y, f x = Ok y) l k.
Proof.
  revert k. induction l as [|x l IH]; intros k; simpl.
  - split.
    + intros [= <-]. constructor.
    + by inversion 1.
  - split.
    + intros H. apply bind_Ok in H as (y & Hy & H).
      apply bind_Ok in H as (k' & Hk' & [= <-]).
      constructor; [done|]. by apply IH.
    + inversion 1 as [|? y ? k' Hy Hk']; subst.
      rewrite Hy. simpl. apply IH in Hk'. by rewrite Hk'.
Qed.

Lemma mapM_total (f : A → result B) (l : list A) :
  Forall (λ x, ∃ y, f x = Ok y) l → ∃ k, mapM f l = Ok k.
Proof.
  induction 1 as [|x l [y Hy] _ [k Hk]]; simpl.
  - by exists [].
  - exists (y :: k). by rewrite Hy; simpl; rewrite Hk.
Qed.

End result_facts.

Lemma index_Ok {A} (l : list A) (i : nat) (x : A) :
  index l i = Ok x ↔ l !! i = Some x.
Proof. unfold index. destruct (l !! i); naive_solver. Qed.

Lemma index_total {A} (l : list A) (i : nat) :
  i < length l → ∃ x, index l i = Ok x.
Proof.
  intros Hi. destruct (lookup_lt_is_Some_2 l i Hi) as [x Hx].
  exists x. by apply index_Ok.
Qed.

Lemma gather_Ok {A} (l : list A) (idx : list nat) (v : list A) :
  gather l idx = Ok v ↔ Forall2 (λ i x, l !! i = Some x) idx v.
Proof.
  unfold gather. rewrite mapM_Ok.
  split; intros H; eapply Forall2_impl; try exact H; intros i x; by rewrite index_Ok.
Qed.

Lemma gather_total {A} (l : list A) (idx : list nat) :
  Forall (λ i, i < length l) idx → ∃ v, gather l idx = Ok v.
Proof.
  intros H. apply mapM_total. eapply Forall_impl; [exact H|].
  intros i Hi. by apply index_total.
Qed.

(** ** Matrices *)

Section matrix_facts.

Context {A : Type}.
Implicit Types M : list (list A).

Lemma mget_Some M r c x :
  mget M r c = Some x ↔ ∃ row, M !! r = Some row ∧ row !! c = Some x.
Proof.
  unfold mget. destruct (M !! r) as [row|]; simpl.
  - split; [intros H; by exists row|by intros (row' & [= ->] & H)].
  - split; [done|by intros (row' & [=] & _)].
Qed.

Lemma shape_row M rows cols r row :
  shape M rows cols → M !! r = Some row → length row = cols.
Proof.
  intros [_ H] Hr. by eapply (Forall_lookup_1 _ _ _ _ H Hr).
Qed.

Lemma shape_mget M rows cols r c :
  shape M rows cols → r < rows → c < cols → is_Some (mget M r c).
Proof.
  intros [Hl H] Hr Hc.
  destruct (lookup_lt_is_Some_2 M r) as [row Hrow]; [lia|].
  assert (length row = cols) by (by eapply (Forall_lookup_1 _ _ _ _ H Hrow)).
  destruct (lookup_lt_is_Some_2 row c) as [x Hx]; [lia|].
  exists x. apply mget_Some. eauto.
Qed.

Lemma mget_lt M rows cols r c x :
  shape M rows cols → mget M r c = Some x → r < rows ∧ c < cols.
Proof.
  intros HM (row & Hrow & Hx)%mget_Some.
  pose proof (shape_row _ _ _ _ _ HM Hrow) as Hlen.
  destruct HM as [Hl _].
  apply lookup_lt_Some in Hrow, Hx. lia.
Qed.

Lemma tabulate_shape rows cols (f : nat → nat → A) :
  shape (tabulate rows cols f) rows cols.
Proof.
  unfold shape, tabulate. split.
  - by rewrite length_fmap, length_seq.
  - apply Forall_fmap, Forall_forall. intros r _. simpl.
    by rewrite length_fmap, length_seq.
Qed.

Lemma mget_tabulate rows cols (f : nat → nat → A) r c :
  r < rows → c < cols → mget (tabulate rows cols f) r c = Some (f r c).
Proof.
  intros Hr Hc. apply mget_Some. unfold tabulate.
  exists ((λ c, f r c) <$> seq 0 cols). split.
  - rewrite list_lookup_fmap, lookup_seq_lt by done. done.
  - rewrite list_lookup_fmap, lookup_seq_lt by done. done.
Qed.

Lemma length_concat_shape M rows cols :
  shape M rows cols → length (concat M) = rows * cols.
Proof.
  intros [<- H]. induction H as [|row M Hrow _ IH]; simpl; [done|].
  rewrite length_app, IH, Hrow. lia.
Qed.

Lemma reshape_concat M rows cols :
  shape M rows cols → reshape (replicate rows cols) (concat M) = M.
Proof.
  intros [<- H]. induction H as [|row M Hrow _ IH]; simpl; [done|].
  rewrite take_app_length', drop_app_length' by done. by rewrite IH.
Qed.

Lemma view_rows_Ok (cols : nat) (l : list A) :
  0 < length l → cols ≠ 0 → length l `mod` cols = 0 →
  view_rows cols l = Ok (reshape (replicate (length l `div` cols) cols) l).
Proof.
  intros Hl Hc Hm. unfold view_rows.
  destruct l; [simpl in Hl; lia|]. by rewrite decide_True.
Qed.

Lemma view_cols_Ok (rows : nat) (l : list A) :
  0 < length l → rows ≠ 0 → length l `mod` rows = 0 →
  view_cols rows l = Ok (reshape (replicate rows (length l `div` rows)) l).
Proof.
  intros Hl Hc Hm. unfold view_cols.
  destruct l; [simpl in Hl; lia|]. by rewrite decide_True.
Qed.

Lemma view_rows_concat M rows cols :
  shape M rows cols → 0 < rows → 0 < cols → view_rows cols (concat M) = Ok M.
Proof.
  intros HM Hr Hc.
  pose proof (length_concat_shape _ _ _ HM) as Hlen.
  rewrite view_rows_Ok.
  - rewrite Hlen, Nat.div_mul by lia. by rewrite reshape_concat.
  - rewrite Hlen. nia.
  - lia.
  - rewrite Hlen. by rewrite Nat.Div0.mod_mul.
Qed.

Lemma mget_concat M rows cols r c :
  shape M rows cols → c < cols → concat M !! (r * cols + c) = mget M r c.
Proof.
  intros [<- H]. revert r. induction H as [|row M Hrow _ IH]; intros r Hc.
  - by destruct r.
  - destruct r as [|r]; simpl.
    + unfold mget; simpl. by rewrite lookup_app_l by lia.
    + rewrite lookup_app_r by lia.
      replace (cols + r * cols + c - length row) with (r * cols + c) by lia.
      rewrite IH by done. done.
Qed.

End matrix_facts.

Section reshape_facts.

Context {A : Type}.
Implicit Types M : list (list A).

Lemma reshape_shape rows cols (l : list A) :
  length l = rows * cols →
  shape (reshape (replicate rows cols) l) rows cols
  ∧ concat (reshape (replicate rows cols) l) = l.
Proof.
  revert l. induction rows as [|rows IH]; intros l Hl; simpl.
  - destruct l; [|simpl in Hl; lia]. by repeat split.
  - destruct (IH (drop cols l)) as [[IH1 IH2] IH3].
    { rewrite length_drop. lia. }
    repeat split.
    + simpl. by rewrite IH1.
    + constructor; [|done]. rewrite length_take. lia.
    + rewrite IH3. apply take_drop.
Qed.

Lemma mget_reshape rows cols (l : list A) r c :
  length l = rows * cols → c < cols →
  mget (reshape (replicate rows cols) l) r c = l !! (r * cols + c).
Proof.
  intros Hl Hc. destruct (reshape_shape rows cols l Hl) as [Hs Hj].
  rewrite <- (mget_concat _ _ _ _ _ Hs Hc). by rewrite Hj.
Qed.

Lemma replicate_shape rows (v : list A) :
  shape (replicate rows v) rows (length v).
Proof.
  split; [by rewrite length_replicate|].
  apply Forall_forall. by intros row ->%elem_of_replicate_inv.
Qed.

Lemma expand_flat_lookup num_gt (v : list A) g b :
  g < num_gt → b < length v →
  expand_flat num_gt v !! (b + g * length v) = v !! b.
Proof.
  intros Hg Hb. unfold expand_flat.
  rewrite (Nat.add_comm b).
  rewrite (mget_concat _ _ _ _ _ (replicate_shape num_gt v) Hb).
  unfold mget. by rewrite lookup_replicate_2.
Qed.

Lemma length_expand_flat num_gt (v : list A) :
  length (expand_flat num_gt v) = num_gt * length v.
Proof. apply length_concat_shape, replicate_shape. Qed.

Lemma transpose_shape (d : A) cols M :
  shape (transpose d cols M) cols (length M).
Proof.
  unfold transpose, column. split.
  - by rewrite length_fmap, length_seq.
  - apply Forall_fmap, Forall_forall. intros g _. simpl.
    by rewrite length_fmap.
Qed.

Lemma mget_transpose (d : A) cols M g r row :
  g < cols → M !! r = Some row →
  mget (transpose d cols M) g r = Some (nth g row d).
Proof.
  intros Hg Hr. apply mget_Some. exists (column d g M). split.
  - unfold transpose. by rewrite list_lookup_fmap, lookup_seq_lt.
  - unfold column. by rewrite list_lookup_fmap, Hr.
Qed.

Lemma nth_lookup_Some' (l : list A) i d x : l !! i = Some x → nth i l d = x.
Proof. intros H. by apply nth_lookup_Some. Qed.

Lemma Forall2_concat_inv_l {B} (P : A → B → Prop) M (v : list B) :
  Forall2 P (concat M) v →
  ∃ V, v = concat V ∧ Forall2 (Forall2 P) M V.
Proof.
  revert v. induction M as [|row M IH]; intros v H; simpl in *.
  - inversion H; subst. exists []. split; [done|constructor].
  - apply Forall2_app_inv_l in H as (v1 & v2 & H1 & H2 & ->).
    destruct (IH _ H2) as (V & -> & HV).
    exists (v1 :: V). split; [done|]. by constructor.
Qed.

Lemma Forall2_shape {B} (P : A → B → Prop) M (V : list (list B)) rows cols :
  Forall2 (Forall2 P) M V → shape M rows cols → shape V rows cols.
Proof.
  intros H [Hl HM]. split.
  - by rewrite <- (Forall2_length _ _ _ H).
  - clear Hl. induction H as [|row vrow M V Hrow _ IH]; [constructor|].
    inversion HM; subst. constructor; [|by apply IH].
    by rewrite <- (Forall2_length _ _ _ Hrow).
Qed.

Lemma Forall2_mget {B} (P : A → B → Prop) M (V : list (list B)) r c x :
  Forall2 (Forall2 P) M V → mget M r c = Some x →
  ∃ y, mget V r c = Some y ∧ P x y.
Proof.
  intros H (row & Hrow & Hx)%mget_Some.
  destruct (Forall2_lookup_l _ _ _ _ _ H Hrow) as (vrow & Hvrow & Hrows).
  destruct (Forall2_lookup_l _ _ _ _ _ Hrows Hx) as (y & Hy & HP).
  exists y. split; [|done]. apply mget_Some. eauto.
Qed.

Lemma Forall2_mget_r {B} (P : A → B → Prop) M (V : list (list B)) r c y :
  Forall2 (Forall2 P) M V → mget V r c = Some y →
  ∃ x, mget M r c = Some x ∧ P x y.
Proof.
  intros H (row & Hrow & Hx)%mget_Some.
  destruct (Forall2_lookup_r _ _ _ _ _ H Hrow) as (vrow & Hvrow & Hrows).
  destruct (Forall2_lookup_r _ _ _ _ _ Hrows Hx) as (x & Hy & HP).
  exists x. split; [|done]. apply mget_Some. eauto.
Qed.

End reshape_facts.

Section zip_facts.

Context {A B C : Type}.

Lemma mget_mat_zip_with (f : A → B → C) (M : list (list A)) (N : list (list B))
    r c z :
  mget (mat_zip_with f M N) r c = Some z ↔
  ∃ x y, mget M r c = Some x ∧ mget N r c = Some y ∧ z = f x y.
Proof.
  unfold mat_zip_with. rewrite mget_Some. split.
  - intros (row & Hrow & Hz).
    apply lookup_zip_with_Some in Hrow as (rm & rn & -> & Hrm & Hrn).
    apply lookup_zip_with_Some in Hz as (x & y & -> & Hx & Hy).
    exists x, y. repeat split; apply mget_Some; eauto.
  - intros (x & y & (rm & Hrm & Hx)%mget_Some & (rn & Hrn & Hy)%mget_Some & ->).
    exists (zip_with f rm rn). split; apply lookup_zip_with_Some; eauto 10.
Qed.

Lemma mget_broadcast_rows (f : A → B → C) (M : list (list A)) (v : list B) r c z :
  mget (broadcast_rows f M v) r c = Some z ↔
  ∃ x y, mget M r c = Some x ∧ v !! c = Some y ∧ z = f x y.
Proof.
  unfold broadcast_rows. rewrite mget_Some. split.
  - intros (row & Hrow & Hz).
    rewrite list_lookup_fmap in Hrow.
    destruct (M !! r) as [rm|] eqn:Hrm; [|done]. injection Hrow as <-.
    apply lookup_zip_with_Some in Hz as (x & y & -> & Hx & Hy).
    exists x, y. repeat split; [|done]. apply mget_Some; eauto.
  - intros (x & y & (rm & Hrm & Hx)%mget_Some & Hy & ->).
    exists (zip_with f rm v). split.
    + by rewrite list_lookup_fmap, Hrm.
    + apply lookup_zip_with_Some; eauto 10.
Qed.

Lemma mat_zip_with_shape (f : A → B → C) (M : list (list A)) (N : list (list B))
    rows cols :
  shape M rows cols → shape N rows cols → shape (mat_zip_with f M N) rows cols.
Proof.
  intros [HlM HM] [HlN HN]. unfold mat_zip_with. split.
  - rewrite length_zip_with. lia.
  - clear HlM HlN. revert N HN.
    induction HM as [|rm M Hrm _ IH]; intros N HN; [constructor|].
    destruct HN as [|rn N Hrn HN]; [constructor|].
    cbn [zip_with]. constructor; [|by apply IH].
    rewrite length_zip_with. lia.
Qed.

Lemma broadcast_rows_shape (f : A → B → C) (M : list (list A)) (v : list B)
    rows cols :
  shape M rows cols → length v = cols → shape (broadcast_rows f M v) rows cols.
Proof.
  intros [HlM HM] Hv. unfold broadcast_rows. split.
  - by rewrite length_fmap.
  - apply Forall_fmap. eapply Forall_impl; [exact HM|].
    intros row Hrow. simpl in *. rewrite length_zip_with. lia.
Qed.

End zip_facts.

Lemma mget_fmap {A B} (f : A → B) (M : list (list A)) r c :
  mget ((λ row : list A, f <$> row) <$> M) r c = f <$> mget M r c.
Proof.
  unfold mget. rewrite list_lookup_fmap.
  destruct (M !! r) as [row|]; simpl; [|done]. by rewrite list_lookup_fmap.
Qed.

Lemma fmap_shape {A B} (f : A → B) (M : list (list A)) rows cols :
  shape M rows cols → shape ((λ row : list A, f <$> row) <$> M) rows cols.
Proof.
  intros [Hl HM]. split; [by rewrite length_fmap|].
  apply Forall_fmap. eapply Forall_impl; [exact HM|].
  intros row Hrow. simpl in *. by rewrite length_fmap.
Qed.

(** ** Masks, scatter and row maxima *)

Section select_facts.

Context {A : Type}.

Lemma masked_select_Ok (l : list A) (mask : list bool) :
  length l = length mask →
  masked_select l mask
  = Ok ((filter (λ p : A * bool, p.2 = true) (zip l mask)).*1).
Proof. intros H. unfold masked_select. by rewrite decide_True. Qed.

Lemma masked_select_inv (l : list A) (mask : list bool) (v : list A) :
  masked_select l mask = Ok v →
  length l = length mask
  ∧ v = (filter (λ p : A * bool, p.2 = true) (zip l mask)).*1.
Proof.
  unfold masked_select. destruct (decide _); [|done]. by intros [= <-].
Qed.

Lemma masked_select_elem (l : list A) (mask : list bool) (v : list A) (x : A) :
  masked_select l mask = Ok v →
  x ∈ v ↔ ∃ p, l !! p = Some x ∧ mask !! p = Some true.
Proof.
  intros [_ ->]%masked_select_inv. rewrite list_elem_of_fmap. split.
  - intros ([y b] & -> & [Hb Hin]%list_elem_of_filter). simpl in *. subst b.
    apply elem_of_lookup_zip_with in Hin as (p & y' & b' & [= -> ->] & Hl & Hm).
    eauto.
  - intros (p & Hl & Hm). exists (x, true). split; [done|].
    apply list_elem_of_filter. split; [done|].
    apply elem_of_lookup_zip_with. eauto 10.
Qed.

Lemma index_put_length (dst : list A) idx vals dst' :
  index_put dst idx vals = Ok dst' → length dst' = length dst.
Proof.
  revert dst vals. induction idx as [|i idx IH]; intros dst vals H; simpl in H.
  - by injection H as <-.
  - destruct vals as [|v vals]; [by injection H as <-|].
    destruct (decide _); [|done].
    apply IH in H. by rewrite length_insert in H.
Qed.

Lemma index_put_total (dst : list A) idx vals :
  Forall (λ i, i < length dst) idx → ∃ dst', index_put dst idx vals = Ok dst'.
Proof.
  revert dst vals. induction idx as [|i idx IH]; intros dst vals H; simpl.
  - by eexists.
  - destruct vals as [|v vals]; [by eexists|].
    inversion H; subst. rewrite decide_True by done.
    apply IH. by rewrite length_insert.
Qed.

Lemma index_put_inv (dst : list A) idx vals dst' j v :
  index_put dst idx vals = Ok dst' → dst' !! j = Some v →
  dst !! j = Some v ∨ ∃ p, idx !! p = Some j ∧ vals !! p = Some v.
Proof.
  revert dst vals. induction idx as [|i idx IH]; intros dst vals H Hj; simpl in H.
  - injection H as <-. by left.
  - destruct vals as [|w vals]; [injection H as <-; by left|].
    destruct (decide _) as [Hi|]; [|done].
    destruct (IH _ _ H Hj) as [Hd|(p & Hp & Hv)].
    + destruct (decide (i = j)) as [->|Hne].
      * rewrite list_lookup_insert_eq in Hd by done. injection Hd as ->.
        right. by exists 0.
      * rewrite list_lookup_insert_ne in Hd by done. by left.
    + right. by exists (S p).
Qed.

Lemma index_put_notin (dst : list A) idx vals dst' j :
  index_put dst idx vals = Ok dst' → j ∉ idx → dst' !! j = dst !! j.
Proof.
  revert dst vals. induction idx as [|i idx IH]; intros dst vals H Hj; simpl in H.
  - by injection H as <-.
  - destruct vals as [|w vals]; [by injection H as <-|].
    destruct (decide _) as [Hi|]; [|done].
    apply not_elem_of_cons in Hj as [Hne Hj].
    rewrite (IH _ _ H Hj). by rewrite list_lookup_insert_ne.
Qed.

Lemma index_put_NoDup (dst : list A) idx vals dst' p j v :
  index_put dst idx vals = Ok dst' → NoDup idx →
  idx !! p = Some j → vals !! p = Some v → dst' !! j = Some v.
Proof.
  revert dst vals p.
  induction idx as [|i idx IH]; intros dst vals p H Hnd Hp Hv; simpl in H.
  - done.
  - destruct vals as [|w vals]; [done|].
    destruct (decide _) as [Hi|]; [|done].
    apply NoDup_cons in Hnd as [Hni Hnd].
    destruct p as [|p]; simpl in *.
    + injection Hp as ->. injection Hv as ->.
      rewrite (index_put_notin _ _ _ _ _ H Hni).
      by rewrite list_lookup_insert_eq.
    + by eapply IH.
Qed.

End select_facts.

Lemma max_with_index_lookup (row : list Q) m i :
  max_with_index row = Some (m, i) → row !! i = Some m.
Proof.
  revert m i. induction row as [|x row IH]; intros m i H; simpl in H; [done|].
  destruct (max_with_index row) as [[m' i']|].
  - destruct (Qle_bool m' x).
    + by injection H as <- <-.
    + injection H as <- <-. simpl. by apply IH.
  - by injection H as <- <-.
Qed.

Lemma max_with_index_is_Some (row : list Q) :
  row ≠ [] → is_Some (max_with_index row).
Proof.
  destruct row as [|x row]; [done|]. intros _. simpl.
  destruct (max_with_index row) as [[m' i']|]; [|by eexists].
  destruct (Qle_bool m' x); by eexists.
Qed.

Lemma Forall_mget {A} (P : A → Prop) (M : list (list A)) :
  (∀ r c x, mget M r c = Some x → P x) → Forall (Forall P) M.
Proof.
  intros H. apply Forall_lookup. intros r row Hrow.
  apply Forall_lookup. intros c x Hx. apply (H r c). apply mget_Some. eauto.
Qed.

Lemma Forall_concat {A} (P : A → Prop) (M : list (list A)) :
  Forall (Forall P) M → Forall P (concat M).
Proof. induction 1; simpl; [constructor|]. by apply Forall_app. Qed.

Lemma max_dim1_total (M : list (list Q)) :
  Forall (λ row, row ≠ []) M → ∃ mx, max_dim1 M = Ok mx.
Proof.
  intros H. apply mapM_total. eapply Forall_impl; [exact H|].
  intros row Hrow. simpl in *.
  destruct (max_with_index_is_Some row Hrow) as [p ->]. by eexists.
Qed.

Lemma Forall_is_Some_Forall2 {A B} (f : A → option B) (l : list A) :
  Forall (λ a, is_Some (f a)) l → ∃ vs, Forall2 (λ a v, f a = Some v) l vs.
Proof.
  induction 1 as [|a l [v Hv] _ [vs Hvs]].
  - exists []. constructor.
  - exists (v :: vs). by constructor.
Qed.

(** ** Selection of the k smallest entries *)

#[local] Instance dist_le_total : Total dist_le.
Proof.
  intros [x i] [y j]. unfold dist_le. simpl.
  rewrite !Qle_bool_iff.
  destruct (Qlt_le_dec x y) as [H|H]; [left; by apply Qlt_le_weak|by right].
Qed.

#[local] Instance dist_le_trans : Transitive dist_le.
Proof.
  intros [x i] [y j] [z k]. unfold dist_le. simpl.
  rewrite !Qle_bool_iff. apply Qle_trans.
Qed.

Lemma argsort_Permutation (xs : list Q) : argsort xs ≡ₚ seq 0 (length xs).
Proof.
  unfold argsort. rewrite merge_sort_Permutation.
  rewrite snd_zip; [done|]. by rewrite length_seq.
Qed.

Lemma argsort_pairs (xs : list Q) (p : Q * nat) :
  p ∈ merge_sort dist_le (zip xs (seq 0 (length xs))) → xs !! p.2 = Some p.1.
Proof.
  rewrite merge_sort_Permutation.
  intros (i & x & j & -> & Hx & Hj)%elem_of_lookup_zip_with.
  apply lookup_seq in Hj as [-> _]. done.
Qed.

Lemma topk_smallest_length (k : nat) (xs : list Q) :
  k ≤ length xs → length (topk_smallest k xs) = k.
Proof.
  intros Hk. unfold topk_smallest. rewrite length_take.
  rewrite (Permutation_length (argsort_Permutation xs)), length_seq. lia.
Qed.

Lemma topk_smallest_NoDup (k : nat) (xs : list Q) : NoDup (topk_smallest k xs).
Proof.
  unfold topk_smallest.
  assert (NoDup (argsort xs)) as H.
  { rewrite argsort_Permutation. apply NoDup_seq. }
  rewrite <- (take_drop k (argsort xs)) in H.
  by apply NoDup_app in H as [H _].
Qed.

Lemma topk_smallest_lt (k : nat) (xs : list Q) (i : nat) :
  i ∈ topk_smallest k xs → i < length xs.
Proof.
  unfold topk_smallest. intros (p & Hp & _)%elem_of_take.
  apply list_elem_of_lookup_2 in Hp.
  rewrite argsort_Permutation in Hp. apply elem_of_seq in Hp. lia.
Qed.

(** Every position left out holds a value at least as large as every
    position selected. *)
Lemma topk_smallest_le (k : nat) (xs : list Q) (i j : nat) :
  i ∈ topk_smallest k xs → j < length xs → j ∉ topk_smallest k xs →
  ∃ vi vj, xs !! i = Some vi ∧ xs !! j = Some vj ∧ (vi <= vj)%Q.
Proof.
  intros Hi Hj Hnj.
  assert (j ∈ argsort xs) as Hjs.
  { rewrite argsort_Permutation. apply elem_of_seq. lia. }
  unfold topk_smallest, argsort in *.
  set (sorted := merge_sort dist_le (zip xs (seq 0 (length xs)))) in *.
  assert (StronglySorted dist_le (take k sorted ++ drop k sorted)) as Hs.
  { rewrite take_drop. apply StronglySorted_merge_sort; apply _. }
  rewrite <- fmap_take in Hi, Hnj.
  apply list_elem_of_fmap in Hi as ([vi i'] & -> & Hi). simpl.
  apply list_elem_of_fmap in Hjs as ([vj j'] & -> & Hjs). simpl in *.
  rewrite <- (take_drop k sorted) in Hjs.
  apply elem_of_app in Hjs as [Hjs|Hjs].
  { exfalso. apply Hnj. apply list_elem_of_fmap. by exists (vj, j'). }
  pose proof (StronglySorted_app_1_elem_of _ _ _ _ _ Hs Hi Hjs) as Hle.
  unfold dist_le in Hle. simpl in Hle. apply Qle_bool_iff in Hle.
  exists vi, vj. repeat split; [| |done].
  - apply (argsort_pairs xs (vi, i')). by apply (subseteq_take k).
  - apply (argsort_pairs xs (vj, j')). by apply (subseteq_drop k).
Qed.

(** ** Strings *)

Lemma pretty_N_char_dotfree (d : N) : pretty_N_char d ≠ "."%char.
Proof. unfold pretty_N_char. repeat case_match; done. Qed.

Lemma pretty_N_go_dotfree (n : N) (s : string) :
  dotfree s → dotfree (pretty_N_go n s).
Proof.
  revert s. induction (N.lt_wf_0 n) as [n _ IH]; intros s Hs.
  destruct (decide (n = 0%N)) as [->|Hn].
  - by rewrite pretty_N_go_0.
  - rewrite pretty_N_go_step by lia. apply IH.
    + apply N.div_lt; lia.
    + split; [apply pretty_N_char_dotfree|done].
Qed.

Lemma pretty_nat_dotfree (i : nat) : dotfree (pretty i).
Proof.
  unfold pretty, pretty_nat, pretty, pretty_N.
  case_decide; [done|]. by apply pretty_N_go_dotfree.
Qed.

Lemma app_cons (c : ascii) (s t : string) :
  String c s +:+ t = String c (s +:+ t).
Proof. reflexivity. Qed.

Lemma app_nil (t : string) : "" +:+ t = t.
Proof. reflexivity. Qed.

(** A dot-free prefix is determined by the string it is followed by a dot
    in. *)
Lemma dotfree_prefix_inj (s1 s2 t1 t2 : string) :
  dotfree s1 → dotfree s2 →
  s1 +:+ "." +:+ t1 = s2 +:+ "." +:+ t2 → s1 = s2 ∧ t1 = t2.
Proof.
  revert s2. induction s1 as [|c1 s1 IH]; intros [|c2 s2] H1 H2 E;
    rewrite ?app_cons, ?app_nil in E; simpl in *.
  - by injection E as ->.
  - injection E as <- _. by destruct H2.
  - injection E as -> _. by destruct H1.
  - injection E as -> E. destruct H1 as [_ H1], H2 as [_ H2].
    destruct (IH s2 H1 H2 E) as [-> ->]. done.
Qed.

(** ** ATSSAssigner *)

Module ATSSFacts.

Import ATSS.

Lemma nonzero_pos_elem (assigned : list nat) (b : nat) :
  b ∈ nonzero_pos assigned ↔ ∃ a, assigned !! b = Some a ∧ 0 < a.
Proof.
  unfold nonzero_pos. rewrite list_elem_of_fmap. split.
  - intros ([b' a] & -> & [Ha Hin]%list_elem_of_filter). simpl in *.
    apply elem_of_lookup_zip_with in Hin as (p & y' & a' & [= -> ->] & Hl & Hm).
    apply lookup_seq in Hl as [-> _]. eauto.
  - intros (a & Hb & Ha). exists (b, a). split; [done|].
    apply list_elem_of_filter. split; [done|].
    apply elem_of_lookup_zip_with. exists b, b, a. repeat split; [|done].
    apply lookup_seq. split; [done|]. by apply lookup_lt_Some in Hb.
Qed.

Lemma nonzero_pos_NoDup (assigned : list nat) :
  NoDup (nonzero_pos assigned).
Proof.
  unfold nonzero_pos.
  apply NoDup_fmap_fst.
  - intros b a1 a2 [_ H1]%list_elem_of_filter [_ H2]%list_elem_of_filter.
    apply elem_of_lookup_zip_with in H1 as (p1 & ? & ? & [= <- <-] & Hl1 & Hm1).
    apply elem_of_lookup_zip_with in H2 as (p2 & ? & ? & [= <- <-] & Hl2 & Hm2).
    apply lookup_seq in Hl1 as [-> _]. apply lookup_seq in Hl2 as [E _].
    simpl in E. subst. congruence.
  - apply NoDup_filter. apply NoDup_zip_with_l; [apply _|apply NoDup_seq].
Qed.

Lemma topk_dim0_inv (k cols : nat) (M : list (list Q)) T :
  topk_dim0 k cols M = Ok T →
  k ≤ length M
  ∧ T = tabulate k cols (λ r g, nth r (topk_smallest k (column 0%Q g M)) 0).
Proof.
  unfold topk_dim0. destruct (decide _); [|done]. by intros [= <-].
Qed.

Lemma topk_dim0_Ok (k cols : nat) (M : list (list Q)) :
  k ≤ length M →
  topk_dim0 k cols M
  = Ok (tabulate k cols (λ r g, nth r (topk_smallest k (column 0%Q g M)) 0)).
Proof. intros H. unfold topk_dim0. by rewrite decide_True. Qed.

Lemma length_column {A} (d : A) g (M : list (list A)) :
  length (column d g M) = length M.
Proof. unfold column. by rewrite length_fmap. Qed.

Lemma column_lookup {A} (d : A) g (M : list (list A)) r x :
  M !! r = Some x → column d g M !! r = Some (nth g x d).
Proof. intros H. unfold column. by rewrite list_lookup_fmap, H. Qed.

(** Column [g] of a matrix of the right shape lists the entries
    [(0, g)], [(1, g)], ... *)
Lemma column_mget {A} (d : A) g (M : list (list A)) rows cols r :
  shape M rows cols → g < cols → column d g M !! r = mget M r g.
Proof.
  intros HM Hg. unfold column, mget. rewrite list_lookup_fmap.
  destruct (M !! r) as [row|] eqn:Hrow; simpl; [|done].
  pose proof (shape_row _ _ _ _ _ HM Hrow) as Hlen.
  destruct (lookup_lt_is_Some_2 row g) as [x Hx]; [lia|].
  rewrite Hx. f_equal. by apply nth_lookup_Some.
Qed.

Lemma topk_smallest_nth (k : nat) (xs : list Q) (r : nat) :
  k ≤ length xs → r < k →
  topk_smallest k xs !! r = Some (nth r (topk_smallest k xs) 0).
Proof.
  intros Hk Hr.
  destruct (lookup_lt_is_Some_2 (topk_smallest k xs) r) as [i Hi].
  { rewrite topk_smallest_length by done. done. }
  rewrite Hi. f_equal. symmetry. by apply nth_lookup_Some.
Qed.

Lemma length_slice {A} (l : list A) (s n : nat) :
  length (drop s (take (s + n) l)) = (s + n) `min` length l - s.
Proof. by rewrite length_drop, length_take. Qed.

Lemma slice_lookup {A} (l : list A) (s n i : nat) :
  i < length (drop s (take (s + n) l)) →
  drop s (take (s + n) l) !! i = l !! (s + i).
Proof.
  rewrite length_slice. intros Hi.
  rewrite lookup_drop, lookup_take_lt by lia. done.
Qed.

Lemma mget_shift_idxs (s : nat) (T : list (list nat)) r g :
  mget (shift_idxs s T) r g = (λ i, i + s) <$> mget T r g.
Proof. unfold shift_idxs. apply mget_fmap. Qed.

Lemma shift_idxs_shape (s : nat) (T : list (list nat)) rows cols :
  shape T rows cols → shape (shift_idxs s T) rows cols.
Proof. apply fmap_shape. Qed.

Section levels.

Variable topk : nat.
Variable distances : list (list Q).
Variable num_gt : nat.

(** What the loop leaves for level [l]: the top-k positions of the slice of
    that level, moved to the start of the level. *)
Lemma select_levels_lookup (start : nat) (levels : list nat) per_level :
  select_levels topk distances num_gt start levels = Ok per_level →
  length per_level = length levels
  ∧ ∀ l n, levels !! l = Some n →
      let s := start + sum_list (take l levels) in
      topk ≤ length (drop s (take (s + n) distances))
      ∧ per_level !! l
        = Some (shift_idxs s
                  (tabulate topk num_gt
                     (λ r g, nth r (topk_smallest topk
                                      (column 0%Q g (drop s (take (s + n) distances)))) 0))).
Proof.
  revert start per_level.
  induction levels as [|n0 levels IH]; intros start per_level H; simpl in H.
  - injection H as <-. split; [done|]. intros l n Hl. by destruct l.
  - apply bind_Ok in H as (T & HT & H).
    apply bind_Ok in H as (tl & Htl & [= <-]).
    apply topk_dim0_inv in HT as [Hk ->].
    destruct (IH _ _ Htl) as [IHlen IHl].
    split; [simpl; by rewrite IHlen|].
    intros [|l] n Hl; simpl in Hl.
    + injection Hl as ->. simpl. rewrite Nat.add_0_r. done.
    + specialize (IHl l n Hl). simpl in IHl. simpl.
      replace (start + (n0 + sum_list (take l levels)))
        with (start + n0 + sum_list (take l levels)) by lia.
      done.
Qed.

Lemma select_levels_total (start : nat) (levels : list nat) :
  Forall (λ n, topk ≤ n) levels →
  start + sum_list levels ≤ length distances →
  ∃ per_level, select_levels topk distances num_gt start levels = Ok per_level.
Proof.
  revert start. induction levels as [|n levels IH]; intros start Hk Hsum; simpl.
  - by eexists.
  - inversion Hk as [|? ? Hn Hk']; subst. simpl in Hsum.
    rewrite topk_dim0_Ok by (rewrite length_slice; lia). simpl.
    destruct (IH (start + n) Hk') as [tl Htl]; [lia|].
    rewrite Htl. simpl. by eexists.
Qed.

(** The first level with fewer than [topk] boxes makes the loop raise. *)
Lemma select_levels_short (start : nat) (levels : list nat) :
  Exists (λ n, n < topk) levels →
  select_levels topk distances num_gt start levels = Raise RuntimeError.
Proof.
  revert start. induction levels as [|n levels IH]; intros start H; simpl.
  - inversion H.
  - unfold topk_dim0 at 1. destruct (decide _) as [Hk|Hk]; [|done]. simpl.
    rewrite length_slice in Hk.
    inversion H as [? ? Hn|? ? Hrest]; subst; [lia|].
    by rewrite (IH _ Hrest).
Qed.

End levels.


Lemma torch_cat_inv {A} (ts : list (list A)) v :
  torch_cat ts = Ok v → ts ≠ [] ∧ v = concat ts.
Proof. destruct ts; [done|]. by intros [= <-]. Qed.

Lemma concat_matrices_shape {A} (Ts : list (list (list A))) k c :
  Forall (λ T, shape T k c) Ts → shape (concat Ts) (length Ts * k) c.
Proof.
  induction 1 as [|T Ts [HTl HT] _ [IHl IH]]; simpl.
  - by split.
  - split.
    + rewrite length_app. lia.
    + by apply Forall_app.
Qed.

Lemma mget_concat_matrices {A} (Ts : list (list (list A))) k c ρ g (x : A) :
  Forall (λ T, shape T k c) Ts → 0 < k →
  mget (concat Ts) ρ g = Some x →
  ∃ T, Ts !! (ρ `div` k) = Some T ∧ mget T (ρ `mod` k) g = Some x.
Proof.
  intros HTs Hk (row & Hrow & Hx)%mget_Some.
  assert (shape Ts (length Ts) k) as Hshape.
  { split; [done|]. eapply Forall_impl; [exact HTs|]. by intros T [? _]. }
  assert (ρ `mod` k < k) as Hmod by (apply Nat.mod_upper_bound; lia).
  assert (ρ `div` k * k + ρ `mod` k = ρ) as Hρ.
  { pose proof (Nat.div_mod_eq ρ k). lia. }
  pose proof (mget_concat Ts _ _ (ρ `div` k) (ρ `mod` k) Hshape Hmod) as Hc.
  rewrite Hρ, Hrow in Hc. symmetry in Hc.
  apply mget_Some in Hc as (T & HT & Hrow').
  exists T. split; [done|]. apply mget_Some. eauto.
Qed.

Lemma mget_add_gt_offsets (n : nat) (cand : list (list nat)) ρ g :
  mget (add_gt_offsets n cand) ρ g = (λ i, i + g * n) <$> mget cand ρ g.
Proof.
  unfold add_gt_offsets, mget. rewrite list_lookup_fmap.
  destruct (cand !! ρ) as [row|]; simpl; [|done].
  by rewrite list_lookup_imap.
Qed.

Lemma add_gt_offsets_shape (n : nat) (cand : list (list nat)) rows cols :
  shape cand rows cols → shape (add_gt_offsets n cand) rows cols.
Proof.
  intros [Hl H]. split; [unfold add_gt_offsets; by rewrite length_fmap|].
  unfold add_gt_offsets. apply Forall_fmap.
  eapply Forall_impl; [exact H|]. intros row Hrow. simpl in *.
  by rewrite length_imap.
Qed.

Lemma full_like_shape (M : list (list Q)) v rows cols :
  shape M rows cols → shape (full_like M v) rows cols.
Proof. apply fmap_shape. Qed.

Lemma mget_full_like (M : list (list Q)) v r c x :
  mget (full_like M v) r c = Some x → x = v.
Proof.
  unfold full_like. rewrite mget_fmap.
  destruct (mget M r c); simpl; [|done]. by intros [= <-].
Qed.

(** [M.t().contiguous().view(-1)]: entry [(r, g)] sits at [g * rows + r]. *)
Lemma lookup_flat_transpose (M : list (list Q)) rows cols g r :
  shape M rows cols → g < cols → r < rows →
  concat (transpose 0%Q cols M) !! (g * rows + r) = mget M r g.
Proof.
  intros HM Hg Hr.
  pose proof (transpose_shape 0%Q cols M) as HT.
  destruct HM as [Hl HM]. rewrite Hl in HT.
  rewrite (mget_concat _ _ _ _ _ HT Hr).
  destruct (lookup_lt_is_Some_2 M r) as [row Hrow]; [lia|].
  rewrite (mget_transpose _ _ _ _ _ _ Hg Hrow).
  unfold mget. rewrite Hrow. simpl.
  pose proof (Forall_lookup_1 _ _ _ _ HM Hrow) as Hlen. simpl in Hlen.
  destruct (lookup_lt_is_Some_2 row g) as [x Hx]; [lia|].
  rewrite Hx. f_equal. by apply nth_lookup_Some.
Qed.

Lemma length_flat_transpose (M : list (list Q)) cols :
  length (concat (transpose 0%Q cols M)) = cols * length M.
Proof. apply length_concat_shape, transpose_shape. Qed.

Section pipeline.

Variable bbox_overlaps : bbox → bbox → Q.
Variable sqrt : Q → Q.
Variable topk : nat.

Lemma overlaps_of_shape (bboxes gts : list bbox) :
  shape (overlaps_of bbox_overlaps bboxes gts) (length bboxes) (length gts).
Proof.
  unfold overlaps_of. split; [by rewrite length_fmap|].
  apply Forall_fmap, Forall_forall. intros b _. simpl. by rewrite length_fmap.
Qed.

Lemma mget_overlaps_of (bboxes gts : list bbox) b g :
  mget (overlaps_of bbox_overlaps bboxes gts) b g
  = bx ← bboxes !! b; gt ← gts !! g; Some (bbox_overlaps bx gt).
Proof.
  unfold overlaps_of, mget. rewrite list_lookup_fmap.
  destruct (bboxes !! b) as [bx|]; simpl; [|done].
  rewrite list_lookup_fmap. by destruct (gts !! g).
Qed.

Lemma distances_of_shape (bboxes gts : list bbox) :
  shape (distances_of sqrt bboxes gts) (length bboxes) (length gts).
Proof.
  unfold distances_of. split; [by rewrite length_fmap|].
  apply Forall_fmap, Forall_forall. intros b _. simpl. by rewrite length_fmap.
Qed.

(** The candidates form a matrix with [topk] rows per level, and every
    entry is the position of a box. *)
Lemma select_candidates_inv (D : list (list Q)) num_gt levels cand :
  select_candidates topk D num_gt levels = Ok cand →
  levels ≠ []
  ∧ shape cand (length levels * topk) num_gt
  ∧ ∀ ρ g b, mget cand ρ g = Some b → b < length D.
Proof.
  unfold select_candidates. intros (per_level & Hsel & Hcat)%bind_Ok.
  destruct (select_levels_lookup _ _ _ _ _ _ Hsel) as [Hlen Hl].
  assert (Forall (λ T, shape T topk num_gt
                       ∧ ∀ r g b, mget T r g = Some b → b < length D) per_level)
    as HTs.
  { apply Forall_lookup. intros l T HT.
    destruct (lookup_lt_is_Some_2 levels l) as [n Hn].
    { rewrite <- Hlen. by apply lookup_lt_Some in HT. }
    destruct (Hl l n Hn) as [Hk HT']. simpl in Hk, HT'.
    rewrite HT in HT'. injection HT' as ->.
    split.
    - apply shift_idxs_shape, tabulate_shape.
    - intros r g b Hb. rewrite mget_shift_idxs in Hb.
      destruct (mget _ r g) as [i|] eqn:Hi; [|done]. injection Hb as <-.
      pose proof (mget_lt _ _ _ _ _ _ (tabulate_shape _ _ _) Hi) as [Hr Hg].
      rewrite mget_tabulate in Hi by done. injection Hi as <-.
      set (s := sum_list (take l levels)) in *.
      set (slice := drop s (take (s + n) D)) in *.
      assert (nth r (topk_smallest topk (column 0%Q g slice)) 0 < length slice).
      { rewrite <- (length_column 0%Q g). apply topk_smallest_lt with topk.
        eapply list_elem_of_lookup_2, topk_smallest_nth; [|done].
        by rewrite length_column. }
      unfold slice in *. rewrite length_slice in *. lia. }
  apply torch_cat_inv in Hcat as [Hne ->].
  assert (shape (concat per_level) (length levels * topk) num_gt) as Hs.
  { rewrite <- Hlen. apply concat_matrices_shape.
    eapply Forall_impl; [exact HTs|]. by intros ? [? _]. }
  split; [destruct levels; [by destruct per_level|done]|]. split; [done|].
  intros ρ g b Hb.
  destruct (decide (topk = 0)) as [Hz|Hz].
  { apply (mget_lt _ _ _ _ _ _ Hs) in Hb as [Hb _]. rewrite Hz in Hb. lia. }
  assert (Forall (λ T, shape T topk num_gt) per_level) as HTs'.
  { eapply Forall_impl; [exact HTs|]. by intros ? [? _]. }
  assert (0 < topk) as Hpos by lia.
  destruct (mget_concat_matrices _ _ _ _ _ _ HTs' Hpos Hb) as (T' & HT' & Hb').
  pose proof (Forall_lookup_1 _ _ _ _ HTs HT') as [_ H]. simpl in H. eauto.
Qed.

Lemma select_candidates_total (D : list (list Q)) num_gt levels :
  Forall (λ n, topk ≤ n) levels → sum_list levels ≤ length D → levels ≠ [] →
  ∃ cand, select_candidates topk D num_gt levels = Ok cand.
Proof.
  intros Hk Hsum Hne.
  destruct (select_levels_total topk D num_gt 0 levels Hk) as [per_level Hsel];
    [simpl; lia|].
  unfold select_candidates. rewrite Hsel. simpl.
  destruct (select_levels_lookup _ _ _ _ _ _ Hsel) as [Hlen _].
  destruct per_level; [by destruct levels|]. by eexists.
Qed.

End pipeline.

Section assign_facts.

Variable bbox_overlaps : bbox → bbox → Q.
Variable sqrt : Q → Q.
Variable topk : nat.

Variable bboxes : list bbox.
Variable num_level_bboxes : list nat.
Variable gt_bboxes : list bbox.
Variable gt_labels : option (list Z).

Abbreviation num_gt := (length gt_bboxes).
Abbreviation num_bboxes := (length bboxes).
Abbreviation is_run := (is_run bbox_overlaps sqrt topk bboxes num_level_bboxes
                               gt_bboxes gt_labels).

Lemma assign_inv (res : AssignResult) :
  assign bbox_overlaps sqrt topk bboxes num_level_bboxes gt_bboxes gt_labels
  = Ok res →
  0 < num_bboxes ∧ 0 < num_gt
  ∧ ∃ t, is_run t
         ∧ res = mkAssignResult num_gt (assigned_of (r_mx t)) ((r_mx t).*1)
                                (r_labels t).
Proof.
  unfold assign. destruct (decide _) as [Hd|Hd]; [done|].
  intros H.
  apply bind_Ok in H as (cand & Hcand & H).
  apply bind_Ok in H as (co & Hco & H).
  apply bind_Ok in H as (ex & Hex & H).
  apply bind_Ok in H as (ey & Hey & H).
  apply bind_Ok in H as (index & Hindex & H).
  apply bind_Ok in H as (vals & Hvals & H).
  apply bind_Ok in H as (inf & Hinf & H).
  apply bind_Ok in H as (rows & Hrows & H).
  apply bind_Ok in H as (mx & Hmx & H).
  apply bind_Ok in H as (lab & Hlab & [= <-]).
  split; [lia|]. split; [lia|].
  exists (mkRun cand co ex ey index vals inf rows mx lab).
  split; [|done]. repeat split; done.
Qed.

Lemma assign_of_run (t : run) :
  0 < num_bboxes → 0 < num_gt → is_run t →
  assign bbox_overlaps sqrt topk bboxes num_level_bboxes gt_bboxes gt_labels
  = Ok (mkAssignResult num_gt (assigned_of (r_mx t)) ((r_mx t).*1) (r_labels t)).
Proof.
  intros Hb Hg (H1 & H2 & H3 & H4 & H5 & H6 & H7 & H8 & H9 & H10).
  unfold assign. rewrite decide_False by lia.
  rewrite H1. simpl. rewrite H2. simpl.
  unfold r_flat in *. rewrite H3. simpl. rewrite H4. simpl.
  unfold r_is_pos, r_thr in *. rewrite H5. simpl. rewrite H6. simpl.
  rewrite H7. simpl. rewrite H8. simpl. rewrite H9. simpl.
  rewrite H10. done.
Qed.

End assign_facts.

Lemma candidate_overlaps_inv (ov : list (list Q)) num_gt cand co rows :
  shape cand rows num_gt →
  candidate_overlaps_of ov num_gt cand = Ok co →
  shape co rows num_gt
  ∧ ∀ ρ g v, mget co ρ g = Some v →
      ∃ b, mget cand ρ g = Some b ∧ mget ov b g = Some v.
Proof.
  intros Hs H. unfold candidate_overlaps_of in H. apply mapM_Ok in H.
  split.
  - destruct Hs as [Hl Hrows]. split.
    + by rewrite <- (Forall2_length _ _ _ H).
    + clear Hl. induction H as [|row corow cand co Hrow _ IH]; [constructor|].
      inversion Hrows as [|? ? Hlen Hrows']; subst.
      constructor; [|by apply IH].
      apply mapM_Ok, Forall2_length in Hrow.
      rewrite length_zip_with, length_seq in Hrow. lia.
  - intros ρ g v (corow & Hcorow & Hv)%mget_Some.
    destruct (Forall2_lookup_r _ _ _ _ _ H Hcorow) as (row & Hrow & Hm).
    apply mapM_Ok in Hm.
    destruct (Forall2_lookup_r _ _ _ _ _ Hm Hv) as ([b g'] & Hp & Hi).
    apply lookup_zip_with_Some in Hp as (b' & g'' & [= <- <-] & Hb & Hg).
    apply lookup_seq in Hg as [-> _]. simpl in Hi.
    apply bind_Ok in Hi as (r & Hr%index_Ok & Hi%index_Ok).
    exists b. split; apply mget_Some; eauto.
Qed.

Lemma overlaps_thr_length sqrt num_gt co :
  length (overlaps_thr_per_gt sqrt num_gt co) = num_gt.
Proof. unfold overlaps_thr_per_gt. by rewrite length_fmap, length_seq. Qed.

Lemma is_in_gts_shape (ex ey : list (list Q)) gts rows :
  shape ex rows (length gts) → shape ey rows (length gts) →
  shape (is_in_gts_of ex ey gts) rows (length gts).
Proof.
  intros Hx Hy. unfold is_in_gts_of.
  apply fmap_shape.
  apply mat_zip_with_shape; apply mat_zip_with_shape;
    by apply broadcast_rows_shape.
Qed.

(** A candidate passes the containment test only if its four distances
    to the sides of the ground truth exceed 0.01. *)
Lemma mget_is_in_gts (ex ey : list (list Q)) gts ρ g :
  mget (is_in_gts_of ex ey gts) ρ g = Some true →
  ∃ vx vy gt,
    mget ex ρ g = Some vx ∧ mget ey ρ g = Some vy ∧ gts !! g = Some gt
    ∧ (1 # 100 < vx - x1 gt)%Q ∧ (1 # 100 < vy - y1 gt)%Q
    ∧ (1 # 100 < x2 gt - vx)%Q ∧ (1 # 100 < y2 gt - vy)%Q.
Proof.
  unfold is_in_gts_of. rewrite mget_fmap.
  destruct (mget _ ρ g) as [m|] eqn:Hm; [|done]. simpl. intros [= Hgt].
  apply mget_mat_zip_with in Hm as (lt & rb & Hlt & Hrb & ->).
  apply mget_mat_zip_with in Hlt as (l & t & Hl & Ht & ->).
  apply mget_mat_zip_with in Hrb as (r & b & Hr & Hb & ->).
  apply mget_broadcast_rows in Hl as (vx & gt & Hvx & Hgt1 & ->).
  apply mget_broadcast_rows in Ht as (vy & gt2 & Hvy & Hgt2 & ->).
  apply mget_broadcast_rows in Hr as (vx' & gt3 & Hvx' & Hgt3 & ->).
  apply mget_broadcast_rows in Hb as (vy' & gt4 & Hvy' & Hgt4 & ->).
  simplify_eq.
  exists vx, vy, gt. repeat split; try done.
  all: unfold Qgt_bool in Hgt; apply negb_true_iff in Hgt.
  all: assert (¬ (Qmin (Qmin (vx - x1 gt) (vy - y1 gt))
                       (Qmin (x2 gt - vx) (y2 gt - vy)) <= 1 # 100)%Q) as Hlt
         by (rewrite <- Qle_bool_iff; by rewrite Hgt).
  all: apply Qnot_le_lt in Hlt.
  all: eapply Qlt_le_trans; [exact Hlt|].
  - eapply Qle_trans; [apply Q.le_min_l|apply Q.le_min_l].
  - eapply Qle_trans; [apply Q.le_min_l|apply Q.le_min_r].
  - eapply Qle_trans; [apply Q.le_min_r|apply Q.le_min_l].
  - eapply Qle_trans; [apply Q.le_min_r|apply Q.le_min_r].
Qed.

Lemma mget_is_pos (co : list (list Q)) thr ρ g :
  mget (is_pos_of co thr) ρ g = Some true →
  ∃ v t, mget co ρ g = Some v ∧ thr !! g = Some (Some t) ∧ (t <= v)%Q.
Proof.
  unfold is_pos_of. intros (v & ot & Hv & Ht & Hge)%mget_broadcast_rows.
  destruct ot as [t|]; [|done]. simpl in Hge. symmetry in Hge.
  apply Qle_bool_iff in Hge. eauto.
Qed.

(** Gathering along a flattened index matrix and viewing the result with
    the same number of columns gives a matrix of the same shape. *)
Lemma gather_view_rows {A} (l : list A) (idx : list (list nat)) rows cols ex :
  shape idx rows cols →
  gather l (concat idx) ≫= view_rows cols = Ok ex →
  0 < rows ∧ 0 < cols ∧ shape ex rows cols
  ∧ Forall2 (Forall2 (λ i x, l !! i = Some x)) idx ex.
Proof.
  intros Hs (fx & Hfx & Hv)%bind_Ok.
  apply gather_Ok, Forall2_concat_inv_l in Hfx as (V & -> & HV).
  pose proof (Forall2_shape _ _ _ _ _ HV Hs) as HVs.
  pose proof (length_concat_shape _ _ _ HVs) as Hlen.
  assert (0 < rows ∧ 0 < cols) as [Hr Hc].
  { unfold view_rows in Hv. destruct (concat V) eqn:E; [done|].
    simpl in Hlen. split; nia. }
  rewrite (view_rows_concat _ _ _ HVs Hr Hc) in Hv. injection Hv as <-.
  done.
Qed.

Lemma gather_view_rows_total {A} (l : list A) (idx : list (list nat)) rows cols :
  shape idx rows cols → 0 < rows → 0 < cols →
  Forall (Forall (λ i, i < length l)) idx →
  ∃ ex, gather l (concat idx) ≫= view_rows cols = Ok ex.
Proof.
  intros Hs Hr Hc Hlt.
  destruct (gather_total l (concat idx)) as [fx Hfx].
  { clear Hs. induction Hlt; simpl; [constructor|]. by apply Forall_app. }
  rewrite Hfx. simpl.
  apply gather_Ok, Forall2_concat_inv_l in Hfx as (V & -> & HV).
  pose proof (Forall2_shape _ _ _ _ _ HV Hs) as HVs.
  exists V. by apply view_rows_concat with rows.
Qed.

Lemma offset_unique (n a g c b : nat) :
  c < n → b < n → c + a * n = g * n + b → a = g ∧ c = b.
Proof.
  intros Hc Hb H.
  assert (a = g) as ->; [|lia].
  destruct (Nat.lt_trichotomy a g) as [Hlt|[->|Hlt]]; [|done|]; exfalso.
  - assert (S a * n ≤ g * n) by (apply Nat.mul_le_mono_r; lia). simpl in *. lia.
  - assert (S g * n ≤ a * n) by (apply Nat.mul_le_mono_r; lia). simpl in *. lia.
Qed.

Section run_facts.

Variable bbox_overlaps : bbox → bbox → Q.
Variable sqrt : Q → Q.
Variable topk : nat.

Variable bboxes : list bbox.
Variable num_level_bboxes : list nat.
Variable gt_bboxes : list bbox.
Variable gt_labels : option (list Z).

Abbreviation num_gt := (length gt_bboxes).
Abbreviation num_bboxes := (length bboxes).
Abbreviation overlaps := (overlaps_of bbox_overlaps bboxes gt_bboxes).
Abbreviation is_run := (is_run bbox_overlaps sqrt topk bboxes num_level_bboxes
                           gt_bboxes gt_labels).
Abbreviation r_flat := (r_flat bboxes).
Abbreviation r_is_pos := (r_is_pos sqrt gt_bboxes).
Abbreviation num_cand := (length num_level_bboxes * topk).

Variable t : run.
Hypothesis Ht : is_run t.

Lemma run_cand_shape :
  shape (r_cand t) num_cand num_gt
  ∧ ∀ ρ g b, mget (r_cand t) ρ g = Some b → b < num_bboxes.
Proof.
  destruct Ht as (H1 & _).
  apply select_candidates_inv in H1 as (_ & Hs & Hlt).
  split; [done|]. intros ρ g b Hb. apply Hlt in Hb.
  by rewrite (proj1 (distances_of_shape sqrt bboxes gt_bboxes)) in Hb.
Qed.

Lemma run_shapes :
  0 < num_cand
  ∧ shape (r_co t) num_cand num_gt
  ∧ shape (r_ex t) num_cand num_gt
  ∧ shape (r_ey t) num_cand num_gt
  ∧ shape (r_is_pos t) num_cand num_gt.
Proof.
  destruct run_cand_shape as [Hs _].
  destruct Ht as (_ & H2 & H3 & H4 & _).
  apply (candidate_overlaps_inv _ _ _ _ _ Hs) in H2 as [Hco _].
  pose proof (add_gt_offsets_shape num_bboxes _ _ _ Hs) as Hoff.
  apply (gather_view_rows _ _ _ _ _ Hoff) in H3 as (Hr & _ & Hex & _).
  apply (gather_view_rows _ _ _ _ _ Hoff) in H4 as (_ & _ & Hey & _).
  split; [done|]. split; [done|]. split; [done|]. split; [done|].
  apply mat_zip_with_shape.
  - apply broadcast_rows_shape; [done|apply overlaps_thr_length].
  - by apply is_in_gts_shape.
Qed.

(** An entry of the scattered tensor is either the initial [-INF] or the
    overlap of a candidate that passed both tests. *)
Lemma run_inf_entry (g b : nat) (m : Q) :
  g < num_gt → b < num_bboxes →
  r_inf t !! (g * num_bboxes + b) = Some m →
  m = (- INF)%Q
  ∨ mget overlaps b g = Some m
    ∧ ∃ ρ, mget (r_cand t) ρ g = Some b ∧ mget (r_is_pos t) ρ g = Some true.
Proof.
  intros Hg Hb Hm.
  destruct run_cand_shape as [Hs Hlt].
  destruct run_shapes as (Hn & _ & _ & _ & Hps).
  destruct Ht as (_ & _ & _ & _ & H5 & H6 & H7 & _).
  destruct (index_put_inv _ _ _ _ _ _ H7 Hm) as [H0|(p & Hp & Hv)].
  - left.
    rewrite (lookup_flat_transpose _ num_bboxes num_gt) in H0; [|
      apply full_like_shape, overlaps_of_shape|done..].
    by apply mget_full_like in H0.
  - right.
    apply gather_Ok in H6.
    destruct (Forall2_lookup_l _ _ _ _ _ H6 Hp) as (m' & Hm' & Hsrc).
    assert (m' = m) as -> by congruence.
    rewrite (lookup_flat_transpose _ num_bboxes num_gt) in Hsrc; [|
      apply overlaps_of_shape|done..].
    split; [done|].
    apply list_elem_of_lookup_2 in Hp.
    apply (masked_select_elem _ _ _ _ H5) in Hp as (q & Hq & Hmask).
    assert (q `mod` num_gt < num_gt) as Hmod by (apply Nat.mod_upper_bound; lia).
    assert (q `div` num_gt * num_gt + q `mod` num_gt = q) as Hdm.
    { pose proof (Nat.div_mod_eq q num_gt). lia. }
    rewrite <- Hdm in Hq, Hmask.
    unfold r_flat in Hq.
    rewrite (mget_concat _ _ _ _ _ (add_gt_offsets_shape _ _ _ _ Hs) Hmod) in Hq.
    rewrite (mget_concat _ _ _ _ _ Hps Hmod) in Hmask.
    rewrite mget_add_gt_offsets in Hq.
    destruct (mget (r_cand t) _ _) as [c|] eqn:Hc; [|done].
    injection Hq as Hq.
    pose proof (Hlt _ _ _ Hc) as Hcn.
    destruct (offset_unique _ _ _ _ _ Hcn Hb Hq) as [Hgq ->].
    rewrite Hgq in *. eauto.
Qed.

Lemma run_rows_shape :
  shape (r_rows t) num_gt num_bboxes
  ∧ ∀ g b, b < num_bboxes →
      mget (r_rows t) g b = r_inf t !! (g * num_bboxes + b).
Proof.
  destruct Ht as (_ & _ & _ & _ & _ & _ & H7 & H8 & _).
  apply index_put_length in H7.
  rewrite length_flat_transpose in H7.
  unfold full_like in H7. rewrite length_fmap in H7.
  rewrite (proj1 (overlaps_of_shape _ _ _)) in H7.
  unfold view_cols in H8. destruct (r_inf t) as [|x l] eqn:E; [done|].
  rewrite <- E in *. destruct (decide _) as [[Hk Hm]|]; [|done].
  injection H8 as <-. rewrite H7, Nat.mul_comm, Nat.div_mul by done.
  destruct (reshape_shape num_gt num_bboxes (r_inf t)) as [Hs _]; [done|].
  split; [done|]. intros g b Hb. by apply mget_reshape.
Qed.

(** Row [b] of the transposed tensor holds the entries of box [b]. *)
Lemma run_mx_entry (b g : nat) (m : Q) :
  r_mx t !! b = Some (m, g) →
  g < num_gt ∧ b < num_bboxes ∧ r_inf t !! (g * num_bboxes + b) = Some m.
Proof.
  intros Hmx.
  destruct run_rows_shape as [Hs Hget].
  destruct Ht as (_ & _ & _ & _ & _ & _ & _ & _ & H9 & _).
  apply mapM_Ok in H9.
  destruct (Forall2_lookup_r _ _ _ _ _ H9 Hmx) as (row & Hrow & Hmax).
  destruct (max_with_index row) as [p|] eqn:Hp; [|done].
  injection Hmax as ->. apply max_with_index_lookup in Hp.
  assert (b < num_bboxes) as Hb.
  { apply lookup_lt_Some in Hrow.
    by rewrite (proj1 (transpose_shape _ _ _)) in Hrow. }
  unfold transpose in Hrow.
  rewrite list_lookup_fmap, lookup_seq_lt in Hrow by done.
  injection Hrow as <-.
  rewrite (column_mget _ _ _ _ _ _ Hs Hb) in Hp.
  pose proof (mget_lt _ _ _ _ _ _ Hs Hp) as [Hg _].
  rewrite Hget in Hp by done. done.
Qed.

Lemma run_mx_length : length (r_mx t) = num_bboxes.
Proof.
  destruct Ht as (_ & _ & _ & _ & _ & _ & _ & _ & H9 & _).
  apply mapM_Ok, Forall2_length in H9.
  by rewrite (proj1 (transpose_shape _ _ _)) in H9.
Qed.

End run_facts.

Lemma assigned_labels_inv (assigned : list nat) (gl L : list Z) :
  assigned_labels_of assigned gl = Ok L →
  length L = length assigned
  ∧ ∀ b a, assigned !! b = Some a →
      match a with
      | 0 => L !! b = Some 0%Z
      | S g => ∃ lab, gl !! g = Some lab ∧ L !! b = Some lab
      end.
Proof.
  unfold assigned_labels_of. intros H.
  assert (∀ b, assigned !! b = Some 0 →
               replicate (length assigned) 0%Z !! b = Some 0%Z) as Hzero.
  { intros b Hb. apply lookup_replicate_2. by apply lookup_lt_Some in Hb. }
  destruct (decide _) as [Hpos|Hpos].
  - apply bind_Ok in H as (a' & Ha' & H).
    apply bind_Ok in H as (vals & Hvals & H).
    apply gather_Ok in Ha', Hvals.
    split.
    { apply index_put_length in H. by rewrite length_replicate in H. }
    intros b [|g] Hb.
    + rewrite (index_put_notin _ _ _ _ _ H); [by apply Hzero|].
      rewrite nonzero_pos_elem. intros (a & Ha & Hlt).
      rewrite Hb in Ha. injection Ha as <-. lia.
    + assert (b ∈ nonzero_pos assigned) as Hin.
      { apply nonzero_pos_elem. exists (S g). split; [done|lia]. }
      apply list_elem_of_lookup_1 in Hin as [p Hp].
      destruct (Forall2_lookup_l _ _ _ _ _ Ha' Hp) as (a & Ha & Hab).
      rewrite Hb in Hab. injection Hab as <-.
      assert (((λ i, i - 1) <$> a') !! p = Some g) as Hg.
      { rewrite list_lookup_fmap, Ha. simpl. f_equal. lia. }
      destruct (Forall2_lookup_l _ _ _ _ _ Hvals Hg) as (lab & Hlab & Hgl).
      exists lab. split; [done|].
      eapply index_put_NoDup; eauto. apply nonzero_pos_NoDup.
  - injection H as <-. split; [by rewrite length_replicate|].
    intros b [|g] Hb; [by apply Hzero|].
    exfalso. apply Hpos.
    assert (b ∈ nonzero_pos assigned) as Hin.
    { apply nonzero_pos_elem. exists (S g). split; [done|lia]. }
    destruct (nonzero_pos assigned); [by apply elem_of_nil in Hin|simpl; lia].
Qed.

Lemma assigned_labels_total (assigned : list nat) (gl : list Z) :
  Forall (λ a, a ≤ length gl) assigned →
  ∃ L, assigned_labels_of assigned gl = Ok L.
Proof.
  intros Hle. unfold assigned_labels_of.
  destruct (decide _) as [Hpos|Hpos]; [|by eexists].
  assert (Forall (λ b, b < length assigned) (nonzero_pos assigned)) as Hlt.
  { apply Forall_forall. intros b (a & Ha & _)%nonzero_pos_elem.
    by apply lookup_lt_Some in Ha. }
  destruct (gather_total assigned (nonzero_pos assigned) Hlt) as [a' Ha'].
  rewrite Ha'. simpl.
  destruct (gather_total gl ((λ i, i - 1) <$> a')) as [vals Hvals].
  { apply Forall_fmap, Forall_forall. intros a Ha. simpl.
    apply gather_Ok in Ha'.
    apply list_elem_of_lookup_1 in Ha as [p Hp].
    destruct (Forall2_lookup_r _ _ _ _ _ Ha' Hp) as (b & Hb & Hab).
    apply list_elem_of_lookup_2 in Hb.
    apply nonzero_pos_elem in Hb as (a0 & Ha0 & Hpos0).
    rewrite Hab in Ha0. injection Ha0 as <-.
    pose proof (Forall_lookup_1 _ _ _ _ Hle Hab) as Hle'. simpl in Hle'. lia. }
  rewrite Hvals. simpl.
  apply index_put_total. by rewrite length_replicate.
Qed.

Lemma assigned_of_lookup (mx : list (Q * nat)) (b a : nat) :
  assigned_of mx !! b = Some a →
  ∃ m i, mx !! b = Some (m, i)
         ∧ a = if Qeq_bool m (- INF) then 0 else i + 1.
Proof.
  unfold assigned_of. rewrite list_lookup_fmap.
  destruct (mx !! b) as [[m i]|]; [|done]. simpl. intros [= <-]. eauto.
Qed.

Section soundness.

Variable bbox_overlaps : bbox → bbox → Q.
Variable sqrt : Q → Q.
Variable topk : nat.

Variable bboxes : list bbox.
Variable num_level_bboxes : list nat.
Variable gt_bboxes : list bbox.
Variable gt_labels : option (list Z).

Abbreviation is_run := (is_run bbox_overlaps sqrt topk bboxes num_level_bboxes
                               gt_bboxes gt_labels).

(** A box with a positive index is one of the candidates of that ground
    truth, and that candidate passed the threshold and the containment
    test. *)
Lemma run_positive (t : run) (b g : nat) :
  is_run t → assigned_of (r_mx t) !! b = Some (S g) →
  ∃ ρ bx gt thr,
    bboxes !! b = Some bx ∧ gt_bboxes !! g = Some gt
    ∧ mget (r_cand t) ρ g = Some b
    ∧ mget (r_co t) ρ g = Some (bbox_overlaps bx gt)
    ∧ r_thr sqrt gt_bboxes t !! g = Some (Some thr)
    ∧ (thr <= bbox_overlaps bx gt)%Q
    ∧ (1 # 100 < center_x bx - x1 gt)%Q ∧ (1 # 100 < center_y bx - y1 gt)%Q
    ∧ (1 # 100 < x2 gt - center_x bx)%Q ∧ (1 # 100 < y2 gt - center_y bx)%Q.
Proof.
  intros Ht (m & i & Hmx & Ha)%assigned_of_lookup.
  destruct (Qeq_bool m (- INF)) eqn:Hinf; [done|].
  assert (i = g) as -> by lia. clear Ha.
  destruct (run_mx_entry _ _ _ _ _ _ _ _ Ht _ _ _ Hmx) as (Hg & Hb & Hentry).
  destruct (run_inf_entry _ _ _ _ _ _ _ _ Ht _ _ _ Hg Hb Hentry)
    as [->|(Hov & ρ & Hcand & Hpos)].
  { exfalso. revert Hinf. by rewrite (proj2 (Qeq_bool_iff _ _) (Qeq_refl _)). }
  rewrite mget_overlaps_of in Hov.
  destruct (bboxes !! b) as [bx|] eqn:Hbx; [|done].
  destruct (gt_bboxes !! g) as [gt|] eqn:Hgt; [|done].
  simpl in Hov. injection Hov as <-.
  apply mget_mat_zip_with in Hpos as (p1 & p2 & Hp1 & Hp2 & Hand).
  symmetry in Hand. apply andb_true_iff in Hand as [-> ->].
  apply mget_is_pos in Hp1 as (v & thr & Hv & Hthr & Hle).
  apply mget_is_in_gts in Hp2 as (vx & vy & gt' & Hvx & Hvy & Hgt' & Hsides).
  assert (gt' = gt) as -> by congruence.
  destruct (run_cand_shape _ _ _ _ _ _ _ _ Ht) as [Hs Hlt].
  destruct Ht as (_ & H2 & H3 & H4 & _).
  (* the overlap of the candidate *)
  destruct (candidate_overlaps_inv _ _ _ _ _ Hs H2) as [_ Hco].
  destruct (Hco _ _ _ Hv) as (b' & Hb' & Hov').
  assert (b' = b) as -> by congruence.
  rewrite mget_overlaps_of, Hbx, Hgt in Hov'. simpl in Hov'.
  injection Hov' as <-.
  (* the centre of the candidate *)
  pose proof (add_gt_offsets_shape (length bboxes) _ _ _ Hs) as Hoff.
  apply (gather_view_rows _ _ _ _ _ Hoff) in H3 as (_ & _ & _ & Hex).
  apply (gather_view_rows _ _ _ _ _ Hoff) in H4 as (_ & _ & _ & Hey).
  destruct (Forall2_mget_r _ _ _ _ _ _ Hex Hvx) as (ix & Hix & Hcx).
  destruct (Forall2_mget_r _ _ _ _ _ _ Hey Hvy) as (iy & Hiy & Hcy).
  rewrite mget_add_gt_offsets, Hcand in Hix, Hiy. simpl in Hix, Hiy.
  injection Hix as <-. injection Hiy as <-.
  assert (length (center_x <$> bboxes) = length bboxes) as Hlx
    by apply length_fmap.
  assert (length (center_y <$> bboxes) = length bboxes) as Hly
    by apply length_fmap.
  rewrite <- Hlx in Hcx at 1. rewrite <- Hly in Hcy at 1.
  rewrite expand_flat_lookup in Hcx by (rewrite ?length_fmap; done).
  rewrite expand_flat_lookup in Hcy by (rewrite ?length_fmap; done).
  rewrite list_lookup_fmap, Hbx in Hcx, Hcy. simpl in Hcx, Hcy.
  injection Hcx as <-. injection Hcy as <-.
  exists ρ, bx, gt, thr. repeat split; try done; apply Hsides.
Qed.

(** Every entry of [assigned_gt_inds] is 0 or the 1-based position of a
    ground truth. *)
Lemma run_assigned_range (t : run) (b a : nat) :
  is_run t → assigned_of (r_mx t) !! b = Some a → a ≤ length gt_bboxes.
Proof.
  intros Ht Ha. destruct a as [|g]; [lia|].
  destruct (run_positive _ _ _ Ht Ha) as (_ & _ & gt & _ & _ & Hgt & _).
  apply lookup_lt_Some in Hgt. lia.
Qed.

End soundness.

Lemma candidate_overlaps_total (ov : list (list Q)) n num_gt cand rows :
  shape ov n num_gt → shape cand rows num_gt →
  (∀ ρ g b, mget cand ρ g = Some b → b < n) →
  ∃ co, candidate_overlaps_of ov num_gt cand = Ok co.
Proof.
  intros Hov Hs Hlt. unfold candidate_overlaps_of.
  apply mapM_total, Forall_lookup. intros ρ row Hrow.
  apply mapM_total, Forall_lookup. intros q [b g] Hq.
  apply lookup_zip_with_Some in Hq as (b' & g' & [= <- <-] & Hb & Hg).
  apply lookup_seq in Hg as [-> Hg]. simpl in *.
  assert (b < n) as Hbn by (apply (Hlt ρ q); apply mget_Some; eauto).
  destruct (shape_mget ov n num_gt b q Hov Hbn Hg) as [v Hv].
  apply mget_Some in Hv as (r & Hr & Hv).
  exists v. rewrite (proj2 (index_Ok _ _ _) Hr). simpl. by apply index_Ok.
Qed.

Section totality.

Variable bbox_overlaps : bbox → bbox → Q.
Variable sqrt : Q → Q.
Variable topk : nat.

Variable bboxes : list bbox.
Variable num_level_bboxes : list nat.
Variable gt_bboxes : list bbox.

Abbreviation num_gt := (length gt_bboxes).
Abbreviation num_bboxes := (length bboxes).
Abbreviation overlaps := (overlaps_of bbox_overlaps bboxes gt_bboxes).
Abbreviation is_run := (is_run bbox_overlaps sqrt topk bboxes num_level_bboxes
                               gt_bboxes).

Hypothesis Hboxes : 0 < num_bboxes.
Hypothesis Hgts : 0 < num_gt.
Hypothesis Htopk : 0 < topk.
Hypothesis Hpartition : sum_list num_level_bboxes = num_bboxes.
Hypothesis Hlevels : Forall (λ n, topk ≤ n) num_level_bboxes.

Lemma run_total_unlabelled : ∃ t, is_run None t ∧ r_labels t = None.
Proof.
  (* candidates *)
  destruct (select_levels_total topk (distances_of sqrt bboxes gt_bboxes)
              num_gt 0 num_level_bboxes Hlevels) as [per_level Hsel].
  { rewrite (proj1 (distances_of_shape _ _ _)). simpl. lia. }
  assert (num_level_bboxes ≠ []) as Hne.
  { intros E. rewrite E in Hpartition. simpl in Hpartition. lia. }
  assert (select_candidates topk (distances_of sqrt bboxes gt_bboxes) num_gt
            num_level_bboxes = Ok (concat per_level)) as Hcand.
  { unfold select_candidates. rewrite Hsel. simpl.
    destruct (select_levels_lookup _ _ _ _ _ _ Hsel) as [Hlen _].
    destruct per_level; [|done]. by destruct num_level_bboxes. }
  set (cand := concat per_level) in *.
  destruct (select_candidates_inv _ _ _ _ _ Hcand) as (_ & Hs & Hlt).
  rewrite (proj1 (distances_of_shape _ _ _)) in Hlt.
  set (N := length num_level_bboxes * topk) in *.
  assert (0 < N) as HN.
  { unfold N. destruct num_level_bboxes; [done|]. simpl. lia. }
  (* overlaps of the candidates *)
  destruct (candidate_overlaps_total overlaps num_bboxes num_gt cand N
              (overlaps_of_shape _ _ _) Hs Hlt) as [co Hco].
  (* centres of the candidates *)
  pose proof (add_gt_offsets_shape num_bboxes _ _ _ Hs) as Hoff.
  assert (Forall (Forall (λ i, i < num_gt * num_bboxes))
                 (add_gt_offsets num_bboxes cand)) as Hflat.
  { apply Forall_mget. intros ρ g j Hj.
    pose proof (mget_lt _ _ _ _ _ _ Hoff Hj) as [_ Hg].
    rewrite mget_add_gt_offsets in Hj.
    destruct (mget cand ρ g) as [c|] eqn:Hc; [|done]. injection Hj as <-.
    apply Hlt in Hc.
    assert (S g * num_bboxes ≤ num_gt * num_bboxes)
      by (apply Nat.mul_le_mono_r; lia).
    simpl in *. lia. }
  destruct (gather_view_rows_total (expand_flat num_gt (center_x <$> bboxes))
              _ _ _ Hoff HN Hgts) as [ex Hex].
  { by rewrite length_expand_flat, length_fmap. }
  destruct (gather_view_rows_total (expand_flat num_gt (center_y <$> bboxes))
              _ _ _ Hoff HN Hgts) as [ey Hey].
  { by rewrite length_expand_flat, length_fmap. }
  (* the mask and the scatter *)
  set (t0 := mkRun cand co ex ey [] [] [] [] [] None).
  assert (shape (r_is_pos sqrt gt_bboxes t0) N num_gt) as Hps.
  { apply (gather_view_rows _ _ _ _ _ Hoff) in Hex as (_ & _ & Hexs & _).
    apply (gather_view_rows _ _ _ _ _ Hoff) in Hey as (_ & _ & Heys & _).
    apply (candidate_overlaps_inv _ _ _ _ _ Hs) in Hco as [Hcos _].
    apply mat_zip_with_shape.
    - apply broadcast_rows_shape; [done|apply overlaps_thr_length].
    - by apply is_in_gts_shape. }
  pose proof (masked_select_Ok (r_flat bboxes t0)
                (concat (r_is_pos sqrt gt_bboxes t0))) as Hindex.
  rewrite (length_concat_shape _ _ _ Hps) in Hindex.
  unfold r_flat in Hindex. simpl in Hindex.
  rewrite (length_concat_shape _ _ _ Hoff) in Hindex.
  specialize (Hindex eq_refl).
  set (index := (filter _ _).*1) in Hindex.
  assert (Forall (λ i, i < num_gt * num_bboxes) index) as Hilt.
  { apply Forall_forall. intros j Hj.
    apply (masked_select_elem _ _ _ _ Hindex) in Hj as (p & Hp & _).
    apply list_elem_of_lookup_2 in Hp.
    apply Forall_concat in Hflat.
    by apply (proj1 (Forall_forall _ _) Hflat). }
  destruct (gather_total (concat (transpose 0%Q num_gt overlaps)) index)
    as [vals Hvals].
  { by rewrite length_flat_transpose, (proj1 (overlaps_of_shape _ _ _)). }
  destruct (index_put_total
              (concat (transpose 0%Q num_gt (full_like overlaps (- INF))))
              index vals) as [inf Hinf].
  { rewrite length_flat_transpose. unfold full_like. rewrite length_fmap.
    by rewrite (proj1 (overlaps_of_shape _ _ _)). }
  (* the view and the row maxima *)
  assert (length inf = num_gt * num_bboxes) as Hlinf.
  { apply index_put_length in Hinf. rewrite Hinf, length_flat_transpose.
    unfold full_like. rewrite length_fmap.
    by rewrite (proj1 (overlaps_of_shape _ _ _)). }
  pose proof (view_cols_Ok num_gt inf) as Hrows.
  rewrite Hlinf in Hrows.
  rewrite Nat.mul_comm, Nat.div_mul, Nat.Div0.mod_mul in Hrows by lia.
  rewrite Nat.mul_comm in Hrows.
  specialize (Hrows ltac:(nia) ltac:(lia) eq_refl).
  set (rows := reshape (replicate num_gt num_bboxes) inf) in *.
  destruct (max_dim1_total (transpose 0%Q num_bboxes rows)) as [mx Hmx].
  { pose proof (transpose_shape 0%Q num_bboxes rows) as [_ Hrs].
    eapply Forall_impl; [exact Hrs|]. intros row Hrow. simpl in *.
    destruct (reshape_shape num_gt num_bboxes inf) as [[Hl _] _].
    { by rewrite Hlinf. }
    fold rows in Hl. rewrite Hl in Hrow. intros ->. simpl in Hrow. lia. }
  exists (mkRun cand co ex ey index vals inf rows mx None).
  split; [|done]. repeat split; done.
Qed.

(** With labels of the right length the last step succeeds as well. *)
Lemma run_total (gt_labels : option (list Z)) :
  (∀ gl, gt_labels = Some gl → length gl = num_gt) →
  ∃ t, is_run gt_labels t.
Proof.
  intros Hgl. destruct run_total_unlabelled as (t & Ht & Hnone).
  destruct gt_labels as [gl|]; [|by exists t].
  destruct (assigned_labels_total (assigned_of (r_mx t)) gl) as [L HL].
  { apply Forall_lookup. intros b a Ha.
    rewrite (Hgl gl eq_refl).
    by eapply (run_assigned_range bbox_overlaps sqrt topk). }
  exists (mkRun (r_cand t) (r_co t) (r_ex t) (r_ey t) (r_index t) (r_vals t)
                (r_inf t) (r_rows t) (r_mx t) (Some L)).
  destruct Ht as (H1 & H2 & H3 & H4 & H5 & H6 & H7 & H8 & H9 & _).
  repeat split; try done. simpl. by rewrite HL.
Qed.

End totality.

Lemma mget_distances_of sqrt (bboxes gts : list bbox) b g :
  mget (distances_of sqrt bboxes gts) b g
  = bx ← bboxes !! b; gt ← gts !! g; Some (center_distance sqrt bx gt).
Proof.
  unfold distances_of, mget. rewrite list_lookup_fmap.
  destruct (bboxes !! b) as [bx|]; simpl; [|done].
  rewrite list_lookup_fmap. by destruct (gts !! g).
Qed.

(** The candidates of one ground truth on one level: the top-k positions
    of the slice, moved to the start of the level. *)
Lemma level_column (topk num_gt s g : nat) (slice : list (list Q)) :
  g < num_gt → topk ≤ length slice →
  column 0 g
    (shift_idxs s
       (tabulate topk num_gt
          (λ r g, nth r (topk_smallest topk (column 0%Q g slice)) 0)))
  = (λ i, i + s) <$> topk_smallest topk (column 0%Q g slice).
Proof.
  intros Hg Hk.
  set (T := tabulate _ _ _).
  assert (shape (shift_idxs s T) topk num_gt) as Hs
    by apply shift_idxs_shape, tabulate_shape.
  apply list_eq. intros r.
  rewrite (column_mget _ _ _ _ _ _ Hs Hg), mget_shift_idxs, list_lookup_fmap.
  destruct (decide (r < topk)) as [Hr|Hr].
  - unfold T. rewrite mget_tabulate by done.
    rewrite topk_smallest_nth by (rewrite ?length_column; done). done.
  - rewrite (lookup_ge_None_2 (topk_smallest _ _))
      by (rewrite topk_smallest_length; rewrite ?length_column; lia).
    destruct (mget T r g) as [x|] eqn:Hx; [|done].
    apply (mget_lt _ _ _ _ _ _ (tabulate_shape _ _ _)) in Hx. lia.
Qed.

Lemma level_start_bound (levels : list nat) l n :
  levels !! l = Some n → level_start levels l + n ≤ sum_list levels.
Proof.
  unfold level_start. revert l. induction levels as [|m levels IH]; intros l Hl.
  - by destruct l.
  - destruct l as [|l]; simpl in *.
    + injection Hl as ->. lia.
    + apply IH in Hl. lia.
Qed.

(** C3: on every level and for every ground truth the selection keeps
    exactly [topk] distinct boxes of that level's index range, no box of
    the range left out is closer to the centre of the ground truth than a
    box kept, and the candidate matrix has [topk] rows per level. *)
Theorem select_candidates_per_level
    (sqrt : Q → Q) (topk : nat) (bboxes gt_bboxes : list bbox)
    (num_level_bboxes : list nat) :
  0 < length bboxes →
  sum_list num_level_bboxes = length bboxes →
  Forall (λ n, topk ≤ n) num_level_bboxes →
  let distances := distances_of sqrt bboxes gt_bboxes in
  let num_gt := length gt_bboxes in
  ∃ per_level candidate_idxs,
    select_levels topk distances num_gt 0 num_level_bboxes = Ok per_level
    ∧ select_candidates topk distances num_gt num_level_bboxes
      = Ok candidate_idxs
    ∧ candidate_idxs = concat per_level
    ∧ length per_level = length num_level_bboxes
    ∧ shape candidate_idxs (length num_level_bboxes * topk) num_gt
    ∧ ∀ l n T g gt,
        num_level_bboxes !! l = Some n → per_level !! l = Some T →
        gt_bboxes !! g = Some gt →
        let chosen := column 0 g T in
        let start_idx := level_start num_level_bboxes l in
        shape T topk num_gt
        ∧ length chosen = topk
        ∧ NoDup chosen
        ∧ (∀ i, i ∈ chosen → start_idx ≤ i < start_idx + n)
        ∧ (∀ i j bi bj,
             i ∈ chosen → start_idx ≤ j < start_idx + n → j ∉ chosen →
             bboxes !! i = Some bi → bboxes !! j = Some bj →
             (center_distance sqrt bi gt <= center_distance sqrt bj gt)%Q).
Proof.
  intros Hn Hsum Hk D num_gt.
  assert (length D = length bboxes) as HD
    by apply (proj1 (distances_of_shape _ _ _)).
  destruct (select_levels_total topk D num_gt 0 num_level_bboxes Hk)
    as [per_level Hsel]; [simpl; lia|].
  destruct (select_levels_lookup _ _ _ _ _ _ Hsel) as [Hlen Hl].
  assert (select_candidates topk D num_gt num_level_bboxes
          = Ok (concat per_level)) as Hcand.
  { unfold select_candidates. rewrite Hsel. simpl.
    destruct per_level; [|done].
    destruct num_level_bboxes; [simpl in Hsum; lia|done]. }
  exists per_level, (concat per_level).
  split; [done|]. split; [done|]. split; [done|]. split; [done|].
  split; [by apply select_candidates_inv in Hcand as (_ & ? & _)|].
  intros l n T g gt Hln HT Hgt chosen start_idx.
  assert (g < num_gt) as Hg by (by apply lookup_lt_Some in Hgt).
  destruct (Hl l n Hln) as [Htk HT']. simpl in Htk, HT'.
  fold (level_start num_level_bboxes l) in Htk, HT'. fold start_idx in Htk, HT'.
  rewrite HT in HT'. injection HT' as ->.
  set (slice := drop start_idx (take (start_idx + n) D)) in *.
  pose proof (level_start_bound _ _ _ Hln) as Hbound. fold start_idx in Hbound.
  assert (length slice = n) as Hslice.
  { unfold slice. rewrite length_slice. lia. }
  assert (chosen = (λ i, i + start_idx)
                     <$> topk_smallest topk (column 0%Q g slice)) as Hchosen.
  { unfold chosen. by apply level_column. }
  assert (length (column 0%Q g slice) = n) as Hcol
    by (by rewrite length_column).
  split; [apply shift_idxs_shape, tabulate_shape|].
  split; [rewrite Hchosen, length_fmap; apply topk_smallest_length; lia|].
  split.
  { rewrite Hchosen. apply NoDup_fmap_2; [|apply topk_smallest_NoDup].
    intros i j Hij. lia. }
  split.
  { intros i Hi. rewrite Hchosen in Hi.
    apply list_elem_of_fmap in Hi as (i' & -> & Hi').
    apply topk_smallest_lt in Hi'. lia. }
  intros i j bi bj Hi Hj Hnj Hbi Hbj. rewrite Hchosen in Hi, Hnj.
  apply list_elem_of_fmap in Hi as (i' & -> & Hi').
  destruct (topk_smallest_le topk (column 0%Q g slice) i' (j - start_idx) Hi')
    as (vi & vj & Hvi & Hvj & Hle).
  { lia. }
  { intros Hin. apply Hnj. apply list_elem_of_fmap.
    exists (j - start_idx). split; [lia|done]. }
  assert (∀ q v, column 0%Q g slice !! q = Some v →
                 mget D (start_idx + q) g = Some v) as Hval.
  { intros q v Hq.
    assert (shape slice n num_gt) as Hss.
    { split; [done|]. unfold slice.
      apply Forall_drop, Forall_take.
      apply (proj2 (distances_of_shape sqrt bboxes gt_bboxes)). }
    rewrite (column_mget _ _ _ _ _ _ Hss Hg) in Hq.
    apply mget_Some in Hq as (row & Hrow & Hv).
    unfold slice in Hrow. rewrite slice_lookup in Hrow.
    - apply mget_Some. eauto.
    - fold slice. rewrite Hslice. apply lookup_lt_Some in Hrow.
      fold slice in Hrow. by rewrite Hslice in Hrow. }
  apply Hval in Hvi, Hvj.
  replace (start_idx + (j - start_idx)) with j in Hvj by lia.
  rewrite (Nat.add_comm start_idx) in Hvi.
  unfold D in Hvi, Hvj. rewrite mget_distances_of in Hvi, Hvj.
  rewrite Hbi, Hgt in Hvi. rewrite Hbj, Hgt in Hvj. simpl in Hvi, Hvj.
  by injection Hvi as <-; injection Hvj as <-.
Qed.

Section claims.

Variable bbox_overlaps : bbox → bbox → Q.
Variable sqrt : Q → Q.
Variable topk : nat.

Variable bboxes : list bbox.
Variable num_level_bboxes : list nat.
Variable gt_bboxes : list bbox.
Variable gt_labels : option (list Z).

Abbreviation is_run := (is_run bbox_overlaps sqrt topk bboxes num_level_bboxes
                               gt_bboxes gt_labels).
Abbreviation assign_here :=
  (assign bbox_overlaps sqrt topk bboxes num_level_bboxes gt_bboxes gt_labels).

(** A retained candidate reaches the threshold of its ground truth. *)
Lemma run_retained (t : run) (ρ g : nat) :
  is_run t → mget (r_is_pos sqrt gt_bboxes t) ρ g = Some true →
  ∃ b bx gt thr,
    mget (r_cand t) ρ g = Some b
    ∧ bboxes !! b = Some bx ∧ gt_bboxes !! g = Some gt
    ∧ r_thr sqrt gt_bboxes t !! g = Some (Some thr)
    ∧ (thr <= bbox_overlaps bx gt)%Q.
Proof.
  intros Ht Hpos.
  apply mget_mat_zip_with in Hpos as (p1 & p2 & Hp1 & _ & Hand).
  symmetry in Hand. apply andb_true_iff in Hand as [-> _].
  apply mget_is_pos in Hp1 as (v & thr & Hv & Hthr & Hle).
  destruct (run_cand_shape _ _ _ _ _ _ _ _ Ht) as [Hs _].
  destruct Ht as (_ & H2 & _).
  destruct (candidate_overlaps_inv _ _ _ _ _ Hs H2) as [_ Hco].
  destruct (Hco _ _ _ Hv) as (b & Hb & Hov).
  rewrite mget_overlaps_of in Hov.
  destruct (bboxes !! b) as [bx|] eqn:Hbx; [|done].
  destruct (gt_bboxes !! g) as [gt|] eqn:Hgt; [|done].
  simpl in Hov. injection Hov as <-.
  exists b, bx, gt, thr. done.
Qed.

(** The column of candidate overlaps of a ground truth lists the overlaps
    of its candidates, in order. *)
Lemma run_candidate_ious (t : run) (g : nat) (gt : bbox) :
  is_run t → gt_bboxes !! g = Some gt →
  Forall2 (λ row v, ∃ b bx, row !! g = Some b ∧ bboxes !! b = Some bx
                            ∧ v = bbox_overlaps bx gt)
          (r_cand t) (column 0%Q g (r_co t)).
Proof.
  intros Ht Hgt.
  assert (g < length gt_bboxes) as Hg by (by apply lookup_lt_Some in Hgt).
  destruct (run_cand_shape _ _ _ _ _ _ _ _ Ht) as [Hs _].
  destruct Ht as (_ & H2 & _).
  destruct (candidate_overlaps_inv _ _ _ _ _ Hs H2) as [Hcos Hco].
  apply Forall2_same_length_lookup. split.
  { by rewrite length_column, (proj1 Hs), (proj1 Hcos). }
  intros ρ row v Hrow Hv.
  rewrite (column_mget _ _ _ _ _ _ Hcos Hg) in Hv.
  destruct (Hco _ _ _ Hv) as (b & Hb & Hov).
  apply mget_Some in Hb as (row' & Hrow' & Hb).
  assert (row' = row) as -> by congruence.
  rewrite mget_overlaps_of, Hgt in Hov.
  destruct (bboxes !! b) as [bx|] eqn:Hbx; [|done].
  simpl in Hov. injection Hov as <-. eauto.
Qed.

Lemma run_thr_lookup (t : run) (g : nat) :
  g < length gt_bboxes →
  r_thr sqrt gt_bboxes t !! g
  = Some (mean_plus_std sqrt (column 0%Q g (r_co t))).
Proof.
  intros Hg. unfold r_thr, overlaps_thr_per_gt.
  by rewrite list_lookup_fmap, lookup_seq_lt.
Qed.

End claims.

(** C2: the threshold of a ground truth is the mean plus the standard
    deviation of the overlaps of its candidates; a candidate is retained,
    and a box is assigned to the ground truth, only if its overlap reaches
    that threshold. *)
Theorem assign_threshold
    (bbox_overlaps : bbox → bbox → Q) (sqrt : Q → Q) (topk : nat)
    (bboxes : list bbox) (num_level_bboxes : list nat) (gt_bboxes : list bbox)
    (gt_labels : option (list Z)) (res : AssignResult) :
  assign bbox_overlaps sqrt topk bboxes num_level_bboxes gt_bboxes gt_labels
  = Ok res →
  ∃ t,
    is_run bbox_overlaps sqrt topk bboxes num_level_bboxes gt_bboxes gt_labels t
    ∧ gt_inds res = assigned_of (r_mx t)
    ∧ (∀ g gt, gt_bboxes !! g = Some gt →
         let ious := column 0%Q g (r_co t) in
         Forall2 (λ row v, ∃ b bx, row !! g = Some b ∧ bboxes !! b = Some bx
                                   ∧ v = bbox_overlaps bx gt)
                 (r_cand t) ious
         ∧ r_thr sqrt gt_bboxes t !! g = Some (mean_plus_std sqrt ious))
    ∧ (∀ ρ g, mget (r_is_pos sqrt gt_bboxes t) ρ g = Some true →
         ∃ b bx gt thr,
           mget (r_cand t) ρ g = Some b
           ∧ bboxes !! b = Some bx ∧ gt_bboxes !! g = Some gt
           ∧ mean_plus_std sqrt (column 0%Q g (r_co t)) = Some thr
           ∧ (thr <= bbox_overlaps bx gt)%Q)
    ∧ (∀ b g bx gt,
         gt_inds res !! b = Some (S g) →
         bboxes !! b = Some bx → gt_bboxes !! g = Some gt →
         ∃ ρ thr,
           mget (r_cand t) ρ g = Some b
           ∧ mean_plus_std sqrt (column 0%Q g (r_co t)) = Some thr
           ∧ (thr <= bbox_overlaps bx gt)%Q).
Proof.
  intros (_ & _ & t & Ht & ->)%assign_inv. exists t.
  split; [done|]. split; [done|]. split; [|split].
  - intros g gt Hgt ious. split.
    + eapply run_candidate_ious; eassumption.
    + apply run_thr_lookup. by apply lookup_lt_Some in Hgt.
  - intros ρ g Hpos.
    destruct (run_retained _ _ _ _ _ _ _ _ _ _ Ht Hpos)
      as (b & bx & gt & thr & Hb & Hbx & Hgt & Hthr & Hle).
    rewrite run_thr_lookup in Hthr by (by apply lookup_lt_Some in Hgt).
    injection Hthr as Hthr. exists b, bx, gt, thr. done.
  - intros b g bx gt Hres Hbx Hgt. simpl in Hres.
    destruct (run_positive _ _ _ _ _ _ _ _ _ _ Ht Hres)
      as (ρ & bx' & gt' & thr & Hbx' & Hgt' & Hc & _ & Hthr & Hle & _).
    assert (bx' = bx) as -> by congruence.
    assert (gt' = gt) as -> by congruence.
    rewrite run_thr_lookup in Hthr by (by apply lookup_lt_Some in Hgt).
    injection Hthr as Hthr. exists ρ, thr. done.
Qed.

(** C4: the centre of a box with a positive index lies inside the ground
    truth it is assigned to, more than 0.01 away from each side. *)
Theorem assign_center_in_gt
    (bbox_overlaps : bbox → bbox → Q) (sqrt : Q → Q) (topk : nat)
    (bboxes : list bbox) (num_level_bboxes : list nat) (gt_bboxes : list bbox)
    (gt_labels : option (list Z)) (res : AssignResult)
    (b g : nat) (bx gt : bbox) :
  assign bbox_overlaps sqrt topk bboxes num_level_bboxes gt_bboxes gt_labels
  = Ok res →
  gt_inds res !! b = Some (S g) →
  bboxes !! b = Some bx → gt_bboxes !! g = Some gt →
  (1 # 100 < center_x bx - x1 gt)%Q ∧ (1 # 100 < center_y bx - y1 gt)%Q
  ∧ (1 # 100 < x2 gt - center_x bx)%Q ∧ (1 # 100 < y2 gt - center_y bx)%Q.
Proof.
  intros (_ & _ & t & Ht & ->)%assign_inv Hres Hbx Hgt. simpl in Hres.
  destruct (run_positive _ _ _ _ _ _ _ _ _ _ Ht Hres)
    as (ρ & bx' & gt' & thr & Hbx' & Hgt' & _ & _ & _ & _ & Hsides).
  assert (bx' = bx) as -> by congruence.
  assert (gt' = gt) as -> by congruence.
  done.
Qed.

Lemma example_assign :
  assign iou sqrt3 2 example_bboxes example_levels example_gts example_labels
  = Ok example_result.
Proof. vm_compute. reflexivity. Qed.

Lemma select_candidates_per_level_witness :
  0 < length example_bboxes
  ∧ sum_list example_levels = length example_bboxes
  ∧ Forall (λ n, 2 ≤ n) example_levels
  ∧ ∃ per_level candidate_idxs,
      select_levels 2 (distances_of sqrt3 example_bboxes example_gts) 2 0
                    example_levels = Ok per_level
      ∧ select_candidates 2 (distances_of sqrt3 example_bboxes example_gts) 2
                          example_levels = Ok candidate_idxs
      ∧ shape candidate_idxs 4 2.
Proof.
  assert (0 < length example_bboxes) as H1 by (simpl; lia).
  assert (sum_list example_levels = length example_bboxes) as H2 by reflexivity.
  assert (Forall (λ n, 2 ≤ n) example_levels) as H3
    by (repeat constructor; lia).
  split; [exact H1|]. split; [exact H2|]. split; [exact H3|].
  destruct (select_candidates_per_level sqrt3 2 example_bboxes example_gts
              example_levels H1 H2 H3)
    as (per_level & cand & Hsel & Hcand & _ & _ & Hshape & _).
  exists per_level, cand. split; [exact Hsel|]. split; [exact Hcand|].
  exact Hshape.
Defined.

Lemma assign_threshold_witness :
  assign iou sqrt3 2 example_bboxes example_levels example_gts example_labels
  = Ok example_result
  ∧ ∃ t,
      is_run iou sqrt3 2 example_bboxes example_levels example_gts
             example_labels t
      ∧ ∀ b g bx gt,
          gt_inds example_result !! b = Some (S g) →
          example_bboxes !! b = Some bx → example_gts !! g = Some gt →
          ∃ ρ thr,
            mget (r_cand t) ρ g = Some b
            ∧ mean_plus_std sqrt3 (column 0%Q g (r_co t)) = Some thr
            ∧ (thr <= iou bx gt)%Q.
Proof.
  assert (assign iou sqrt3 2 example_bboxes example_levels example_gts
                 example_labels = Ok example_result) as H
    by (vm_compute; reflexivity).
  split; [exact H|].
  destruct (assign_threshold iou sqrt3 2 example_bboxes example_levels
              example_gts example_labels example_result H)
    as (t & Ht & _ & _ & _ & Hpos).
  exists t. split; [exact Ht|exact Hpos].
Defined.

Lemma assign_center_in_gt_witness :
  assign iou sqrt3 2 example_bboxes example_levels example_gts example_labels
  = Ok example_result
  ∧ gt_inds example_result !! 4 = Some 1
  ∧ example_bboxes !! 4 = Some (box 1 1 11 11)
  ∧ example_gts !! 0 = Some (box 1 1 11 11)
  ∧ (1 # 100 < center_x (box 1 1 11 11) - x1 (box 1 1 11 11))%Q
  ∧ (1 # 100 < center_y (box 1 1 11 11) - y1 (box 1 1 11 11))%Q
  ∧ (1 # 100 < x2 (box 1 1 11 11) - center_x (box 1 1 11 11))%Q
  ∧ (1 # 100 < y2 (box 1 1 11 11) - center_y (box 1 1 11 11))%Q.
Proof.
  assert (assign iou sqrt3 2 example_bboxes example_levels example_gts
                 example_labels = Ok example_result) as H
    by (vm_compute; reflexivity).
  split; [exact H|]. split; [reflexivity|]. split; [reflexivity|].
  split; [reflexivity|].
  exact (assign_center_in_gt iou sqrt3 2 example_bboxes example_levels
           example_gts example_labels example_result 4 0
           (box 1 1 11 11) (box 1 1 11 11) H eq_refl eq_refl eq_refl).
Defined.

(** C1 as stated fails on an image without ground truth: the guard at
    the top of [assign] raises. *)
Lemma assign_empty_gt_raises :
  assign iou sqrt3 1 [box 0 0 10 10] [1] [] None = Raise ValueError
  ∧ ¬ ∃ res, assign iou sqrt3 1 [box 0 0 10 10] [1] [] None = Ok res.
Proof.
  assert (assign iou sqrt3 1 [box 0 0 10 10] [1] [] None = Raise ValueError)
    as H by reflexivity.
  split; [exact H|]. intros [res Hres]. rewrite H in Hres. discriminate.
Qed.

(** C1, amended: on non-empty inputs whose levels partition the boxes and
    hold at least [topk ≥ 1] boxes each, [assign] returns an assignment that
    maps every box to 0 or to a 1-based ground-truth index, and, when
    labels are supplied, gives every positive box the label of its ground
    truth and every other box the label 0. *)
Theorem assign_returns_assignment
    (bbox_overlaps : bbox → bbox → Q) (sqrt : Q → Q) (topk : nat)
    (bboxes : list bbox) (num_level_bboxes : list nat) (gt_bboxes : list bbox)
    (gt_labels : option (list Z)) :
  0 < length bboxes → 0 < length gt_bboxes → 0 < topk →
  sum_list num_level_bboxes = length bboxes →
  Forall (λ n, topk ≤ n) num_level_bboxes →
  (∀ gl, gt_labels = Some gl → length gl = length gt_bboxes) →
  ∃ res,
    assign bbox_overlaps sqrt topk bboxes num_level_bboxes gt_bboxes gt_labels
    = Ok res
    ∧ num_gts res = length gt_bboxes
    ∧ length (gt_inds res) = length bboxes
    ∧ (∀ b a, gt_inds res !! b = Some a → a = 0 ∨ 1 ≤ a ≤ length gt_bboxes)
    ∧ match gt_labels with
      | None => labels res = None
      | Some gl =>
          ∃ L, labels res = Some L
               ∧ length L = length bboxes
               ∧ ∀ b a, gt_inds res !! b = Some a →
                   match a with
                   | 0 => L !! b = Some 0%Z
                   | S g => ∃ lab, gl !! g = Some lab ∧ L !! b = Some lab
                   end
      end.
Proof.
  intros Hb Hg Hk Hsum Hlev Hgl.
  destruct (run_total bbox_overlaps sqrt topk bboxes num_level_bboxes gt_bboxes
              Hb Hg Hk Hsum Hlev gt_labels Hgl) as [t Ht].
  eexists. split; [by apply assign_of_run|]. simpl.
  pose proof (run_mx_length _ _ _ _ _ _ _ _ Ht) as Hlen.
  split; [done|].
  split; [unfold assigned_of; by rewrite length_fmap|].
  split.
  { intros b a Ha.
    pose proof (run_assigned_range _ _ _ _ _ _ _ _ _ _ Ht Ha). lia. }
  destruct Ht as (_ & _ & _ & _ & _ & _ & _ & _ & _ & H10).
  destruct gt_labels as [gl|].
  - apply fmap_Ok in H10 as (L & HL & ->).
    apply assigned_labels_inv in HL as [HLlen HL].
    exists L. split; [done|]. split; [|done].
    rewrite HLlen. unfold assigned_of. by rewrite length_fmap.
  - by injection H10 as <-.
Qed.

Lemma assign_returns_assignment_witness :
  0 < length example_bboxes ∧ 0 < length example_gts ∧ 0 < 2
  ∧ sum_list example_levels = length example_bboxes
  ∧ Forall (λ n, 2 ≤ n) example_levels
  ∧ (∀ gl, example_labels = Some gl → length gl = length example_gts)
  ∧ ∃ res,
      assign iou sqrt3 2 example_bboxes example_levels example_gts
             example_labels = Ok res
      ∧ ∀ b a, gt_inds res !! b = Some a → a = 0 ∨ 1 ≤ a ≤ length example_gts.
Proof.
  assert (0 < length example_bboxes) as H1 by (simpl; lia).
  assert (0 < length example_gts) as H2 by (simpl; lia).
  assert (0 < 2) as H3 by lia.
  assert (sum_list example_levels = length example_bboxes) as H4 by reflexivity.
  assert (Forall (λ n, 2 ≤ n) example_levels) as H5
    by (repeat constructor; lia).
  assert (∀ gl, example_labels = Some gl → length gl = length example_gts)
    as H6 by (intros gl [= <-]; reflexivity).
  split; [exact H1|]. split; [exact H2|]. split; [exact H3|].
  split; [exact H4|]. split; [exact H5|]. split; [exact H6|].
  destruct (assign_returns_assignment iou sqrt3 2 example_bboxes example_levels
              example_gts example_labels H1 H2 H3 H4 H5 H6)
    as (res & Hres & _ & _ & Hrange & _).
  exists res. split; [exact Hres|exact Hrange].
Defined.

Section preconditions.

Variable bbox_overlaps : bbox → bbox → Q.
Variable sqrt : Q → Q.
Variable topk : nat.

Variable bboxes : list bbox.
Variable num_level_bboxes : list nat.
Variable gt_bboxes : list bbox.
Variable gt_labels : option (list Z).

Abbreviation assign_here :=
  (assign bbox_overlaps sqrt topk bboxes num_level_bboxes gt_bboxes gt_labels).

Lemma assign_empty :
  bboxes = [] ∨ gt_bboxes = [] → assign_here = Raise ValueError.
Proof.
  intros H. unfold assign. rewrite decide_True; [done|].
  destruct H as [-> | ->]; simpl; auto.
Qed.

Lemma assign_short_level :
  bboxes ≠ [] → gt_bboxes ≠ [] →
  Exists (λ n, n < topk) num_level_bboxes →
  assign_here = Raise RuntimeError.
Proof.
  intros Hb Hg Hshort. unfold assign. rewrite decide_False.
  - unfold select_candidates. by rewrite select_levels_short.
  - destruct bboxes, gt_bboxes; simpl; try done. lia.
Qed.

(** With [topk = 0] there is no candidate, and the view of the gathered
    centres is refused. *)
Lemma assign_topk_zero :
  bboxes ≠ [] → gt_bboxes ≠ [] → topk = 0 →
  sum_list num_level_bboxes = length bboxes →
  assign_here = Raise RuntimeError.
Proof.
  intros Hb Hg Hz Hsum.
  assert (0 < length bboxes) as Hbl by (destruct bboxes; [done|simpl; lia]).
  assert (0 < length gt_bboxes) as Hgl
    by (destruct gt_bboxes; [done|simpl; lia]).
  destruct (select_candidates_total topk (distances_of sqrt bboxes gt_bboxes)
              (length gt_bboxes) num_level_bboxes) as [cand Hcand].
  { apply Forall_forall. intros n _. lia. }
  { rewrite (proj1 (distances_of_shape _ _ _)). lia. }
  { intros E. rewrite E in Hsum. simpl in Hsum. lia. }
  pose proof (select_candidates_inv _ _ _ _ _ Hcand) as (_ & [Hlen _] & _).
  rewrite Hz, Nat.mul_0_r in Hlen. apply nil_length_inv in Hlen. subst cand.
  unfold assign. rewrite decide_False by lia.
  rewrite Hcand. reflexivity.
Qed.

End preconditions.

(** C8: [assign] raises on an empty set of boxes or of ground truths, its
    top-k selection raises when a level holds fewer than [topk] boxes, so a
    result is returned only when neither is the case; and when the levels
    partition the boxes and hold at least [topk] boxes each, no index is out
    of bounds: the call returns a result (for [topk ≥ 1]). *)
Theorem assign_preconditions
    (bbox_overlaps : bbox → bbox → Q) (sqrt : Q → Q) (topk : nat)
    (bboxes : list bbox) (num_level_bboxes : list nat) (gt_bboxes : list bbox)
    (gt_labels : option (list Z)) :
  sum_list num_level_bboxes = length bboxes →
  (∀ gl, gt_labels = Some gl → length gl = length gt_bboxes) →
  let result :=
    assign bbox_overlaps sqrt topk bboxes num_level_bboxes gt_bboxes gt_labels in
  (bboxes = [] ∨ gt_bboxes = [] → result = Raise ValueError)
  ∧ (bboxes ≠ [] → gt_bboxes ≠ [] →
     Exists (λ n, n < topk) num_level_bboxes → result = Raise RuntimeError)
  ∧ (∀ res, result = Ok res →
       bboxes ≠ [] ∧ gt_bboxes ≠ [] ∧ Forall (λ n, topk ≤ n) num_level_bboxes)
  ∧ (bboxes ≠ [] → gt_bboxes ≠ [] →
     Forall (λ n, topk ≤ n) num_level_bboxes →
     result ≠ Raise IndexError ∧ (0 < topk → ∃ res, result = Ok res)).
Proof.
  intros Hsum Hgl result.
  assert (bboxes = [] ∨ gt_bboxes = [] → result = Raise ValueError) as Ha
    by apply assign_empty.
  assert (bboxes ≠ [] → gt_bboxes ≠ [] →
          Exists (λ n, n < topk) num_level_bboxes →
          result = Raise RuntimeError) as Hb
    by apply assign_short_level.
  split; [exact Ha|]. split; [exact Hb|]. split.
  - intros res Hres.
    assert (bboxes ≠ []) as Hne1.
    { intros E. rewrite Ha in Hres by auto. discriminate. }
    assert (gt_bboxes ≠ []) as Hne2.
    { intros E. rewrite Ha in Hres by auto. discriminate. }
    split; [done|]. split; [done|].
    apply Forall_forall. intros n Hn.
    destruct (decide (topk ≤ n)) as [|Hlt]; [done|].
    rewrite Hb in Hres; [discriminate|done..|].
    apply Exists_exists. exists n. split; [done|lia].
  - intros Hne1 Hne2 Hlev.
    destruct (decide (topk = 0)) as [Hz|Hz].
    + unfold result. rewrite assign_topk_zero by done.
      split; [done|]. lia.
    + destruct (run_total bbox_overlaps sqrt topk bboxes num_level_bboxes
                  gt_bboxes) with (gt_labels := gt_labels) as [t Ht];
        try done; try lia.
      * destruct bboxes; [done|simpl; lia].
      * destruct gt_bboxes; [done|simpl; lia].
      * unfold result. rewrite (assign_of_run _ _ _ _ _ _ _ t); try done.
        -- split; [done|]. eauto.
        -- destruct bboxes; [done|simpl; lia].
        -- destruct gt_bboxes; [done|simpl; lia].
Qed.

Lemma assign_preconditions_witness :
  sum_list example_levels = length example_bboxes
  ∧ (∀ gl, example_labels = Some gl → length gl = length example_gts)
  ∧ (assign iou sqrt3 2 example_bboxes example_levels example_gts
            example_labels ≠ Raise IndexError)
  ∧ ∃ res, assign iou sqrt3 2 example_bboxes example_levels example_gts
                  example_labels = Ok res.
Proof.
  assert (sum_list example_levels = length example_bboxes) as H1 by reflexivity.
  assert (∀ gl, example_labels = Some gl → length gl = length example_gts)
    as H2 by (intros gl [= <-]; reflexivity).
  split; [exact H1|]. split; [exact H2|].
  destruct (assign_preconditions iou sqrt3 2 example_bboxes example_levels
              example_gts example_labels H1 H2) as (_ & _ & _ & H).
  destruct H as [Hidx Hres].
  - discriminate.
  - discriminate.
  - repeat constructor; lia.
  - split; [exact Hidx|]. apply Hres. lia.
Defined.

End ATSSFacts.

Module SemiMixUpFacts.

Import SemiMixUp.


Lemma weight_lookup (losses : gmap string loss_value) (w : Q) (name : string) :
  weight losses w !! name
  = (λ loss, if contains "loss" name then scale w loss else loss)
      <$> losses !! name.
Proof.
  unfold weight.
  assert (∀ b : gmap string loss_value,
            map_fold (λ name loss acc,
                        if contains "loss" name
                        then <[name := scale w loss]> acc else acc) b losses
              !! name
            = match losses !! name with
              | Some loss =>
                  if contains "loss" name then Some (scale w loss) else b !! name
              | None => b !! name
              end) as H.
  { intros b. revert name.
    apply (map_fold_weak_ind
             (λ r m, ∀ name, r !! name
                             = match m !! name with
                               | Some loss =>
                                   if contains "loss" name
                                   then Some (scale w loss) else b !! name
                               | None => b !! name
                               end)).
    - intros name. by rewrite lookup_empty.
    - intros i x m r Hi IH name.
      destruct (decide (i = name)) as [->|Hne].
      + rewrite lookup_insert_eq. destruct (contains "loss" name).
        * by rewrite lookup_insert_eq.
        * by rewrite IH, Hi.
      + rewrite lookup_insert_ne by done.
        destruct (contains "loss" i); [|by apply IH].
        rewrite lookup_insert_ne by done. by apply IH. }
  rewrite H. destruct (losses !! name) as [loss|] eqn:E; simpl; [|done].
  by destruct (contains "loss" name).
Qed.

Lemma scale_zero (loss : loss_value) : is_zero (scale 0 loss).
Proof.
  destruct loss as [v|items]; simpl.
  - apply Qmult_0_r.
  - apply Forall_fmap, Forall_forall. intros item _. simpl. apply Qmult_0_r.
Qed.

Lemma prefix_keys_lookup (prefix : string) (d : gmap string loss_value) name :
  prefix_keys prefix d !! (prefix +:+ name) = d !! name.
Proof. unfold prefix_keys. apply (lookup_kmap (String.app prefix)). Qed.

(** C10: [weight] scales exactly the entries whose key contains 'loss'
    and leaves the others as they are; with no pseudo instance in the batch
    the unsupervised weight is 0 and every unsupervised 'loss' entry is
    zero. *)
Theorem weight_only_loss_entries {Inputs Meta : Type}
    (student_loss : Inputs → list (DataSample Meta) → gmap string loss_value)
    (cfg : SemiTrainCfg) (batch_inputs : Inputs)
    (batch_data_samples : list (DataSample Meta)) :
  sum_list ((λ ds, length (bboxes (gt_instances ds))) <$> batch_data_samples) = 0 →
  (∀ losses w name,
     weight losses w !! name
     = (λ loss, if contains "loss" name then scale w loss else loss)
         <$> losses !! name)
  ∧ pseudo_loss student_loss cfg batch_inputs batch_data_samples
    = prefix_keys "unsup_"
        (weight (student_loss batch_inputs batch_data_samples) 0)
  ∧ ∀ name loss,
      student_loss batch_inputs batch_data_samples !! name = Some loss →
      if contains "loss" name
      then ∃ zero,
             pseudo_loss student_loss cfg batch_inputs batch_data_samples
               !! ("unsup_" +:+ name) = Some zero
             ∧ zero = scale 0 loss ∧ is_zero zero
      else pseudo_loss student_loss cfg batch_inputs batch_data_samples
             !! ("unsup_" +:+ name) = Some loss.
Proof.
  intros Hnum.
  split; [apply weight_lookup|].
  assert (pseudo_loss student_loss cfg batch_inputs batch_data_samples
          = prefix_keys "unsup_"
              (weight (student_loss batch_inputs batch_data_samples) 0)) as Heq.
  { unfold pseudo_loss. rewrite Hnum. by rewrite decide_False by lia. }
  split; [done|].
  intros name loss Hloss. rewrite Heq, prefix_keys_lookup, weight_lookup, Hloss.
  simpl. destruct (contains "loss" name); [|done].
  eexists. split; [done|]. split; [done|]. apply scale_zero.
Qed.

Lemma weight_only_loss_entries_witness :
  sum_list ((λ ds : DataSample unit, length (bboxes (gt_instances ds)))
              <$> example_empty_batch) = 0
  ∧ pseudo_loss (λ (_ : unit) _, example_losses) example_cfg tt
                example_empty_batch !! "unsup_loss_cls" = Some (Scalar (2 * 0)%Q)
  ∧ pseudo_loss (λ (_ : unit) _, example_losses) example_cfg tt
                example_empty_batch !! "unsup_acc" = Some (Scalar 90%Q).
Proof.
  assert (sum_list ((λ ds : DataSample unit, length (bboxes (gt_instances ds)))
                      <$> example_empty_batch) = 0) as H by reflexivity.
  split; [exact H|].
  destruct (weight_only_loss_entries (λ (_ : unit) _, example_losses)
              example_cfg tt example_empty_batch H) as (_ & _ & Hall).
  split.
  - destruct (Hall "loss_cls" (Scalar 2%Q) eq_refl) as (zero & Hz & -> & _).
    exact Hz.
  - exact (Hall "acc" (Scalar 90%Q) eq_refl).
Defined.

(** ** Pseudo-label selection *)

Section select.

Context {A B : Type}.

(** Selecting two tensors with one mask keeps the same positions of
    both. *)
Lemma masked_select_zip (xs : list A) (ys : list B) (mask : list bool) :
  length xs = length mask → length ys = length mask →
  ∃ xs' ys',
    masked_select xs mask = Ok xs' ∧ masked_select ys mask = Ok ys'
    ∧ length xs' = length ys'
    ∧ zip xs' ys'
      = (filter (λ p : (A * B) * bool, p.2 = true) (zip (zip xs ys) mask)).*1.
Proof.
  intros Hx Hy. rewrite !masked_select_Ok by done.
  eexists _, _. split; [done|]. split; [done|].
  revert ys mask Hx Hy. induction xs as [|x xs IH]; intros ys mask Hx Hy.
  - destruct mask; [|done]. by destruct ys.
  - destruct mask as [|m mask]; [done|]. destruct ys as [|y ys]; [done|].
    simpl in Hx, Hy. injection Hx as Hx. injection Hy as Hy.
    destruct (IH ys mask Hx Hy) as [IHl IHz].
    cbn [zip_with]. destruct m.
    + rewrite !filter_cons_True by done. cbn [fmap list_fmap fst length zip_with].
      split; [by f_equal|]. by f_equal.
    + by rewrite !filter_cons_False by done.
Qed.

End select.

Lemma Qgt_bool_lt (x y : Q) : Qgt_bool x y = true ↔ (y < x)%Q.
Proof.
  unfold Qgt_bool. rewrite negb_true_iff. split.
  - intros H. apply Qnot_le_lt. rewrite <- Qle_bool_iff. by rewrite H.
  - intros H. apply not_true_is_false. rewrite Qle_bool_iff.
    by apply Qlt_not_le.
Qed.

(** A mask computed from a tensor selects the positions where the tensor
    satisfies the test. *)
Lemma filter_mask_fmap {A S} (f : S → bool) (P : A * S → Prop)
    `{!∀ p, Decision (P p)} (ys : list A) (ss : list S) :
  (∀ y s, f s = true ↔ P (y, s)) →
  (filter (λ p : A * bool, p.2 = true) (zip ys (f <$> ss))).*1
  = (filter P (zip ys ss)).*1.
Proof.
  intros HfP.
  revert ss. induction ys as [|y ys IH]; intros [|s ss]; try done.
  cbn [fmap list_fmap zip_with]. destruct (f s) eqn:Hf.
  - rewrite (filter_cons_True (λ p : A * bool, p.2 = true)) by done.
    rewrite (filter_cons_True P) by (by apply HfP).
    cbn [fmap list_fmap fst]. f_equal. apply IH.
  - rewrite (filter_cons_False (λ p : A * bool, p.2 = true)) by done.
    rewrite (filter_cons_False P); [apply IH|].
    rewrite <- HfP. by rewrite Hf.
Qed.

Lemma filter_zip_fst {A B} (P1 : (A * B) * A → Prop) (P2 : A * B → Prop)
    `{!∀ p, Decision (P1 p)} `{!∀ p, Decision (P2 p)}
    (xs : list A) (ys : list B) :
  (∀ x y, P1 ((x, y), x) ↔ P2 (x, y)) →
  (filter P1 (zip (zip xs ys) xs)).*1 = filter P2 (zip xs ys).
Proof.
  intros H12.
  revert ys. induction xs as [|x xs IH]; intros ys; [done|].
  destruct ys as [|y ys]; [done|].
  cbn [zip_with]. destruct (decide (P2 (x, y))) as [HP|HP].
  - rewrite (filter_cons_True P1) by (by apply H12).
    rewrite (filter_cons_True P2) by done.
    cbn [fmap list_fmap fst]. f_equal. apply IH.
  - rewrite (filter_cons_False P1) by (by rewrite H12).
    rewrite (filter_cons_False P2) by done. apply IH.
Qed.

Lemma update_pseudo_one_spec (cfg : SemiTrainCfg) (results : PredInstances) :
  pred_well_formed results →
  ∃ pseudo, update_pseudo_one cfg results = Ok pseudo
            ∧ above_score_thr cfg results pseudo.
Proof.
  intros [Hl Hs]. unfold update_pseudo_one, select_instances.
  destruct (masked_select_zip (pred_bboxes results) (pred_labels results)
              ((λ s, Qgt_bool s (score_thr cfg)) <$> scores results))
    as (bs & ls & Hbs & Hls & Hlen & Hzip).
  { by rewrite length_fmap. }
  { by rewrite length_fmap, Hl. }
  rewrite Hbs. simpl. rewrite Hls. simpl.
  eexists. split; [done|]. split; [done|]. simpl.
  rewrite Hzip. apply filter_mask_fmap. intros y s. apply Qgt_bool_lt.
Qed.

Lemma filter_pseudo_one_spec (cfg : SemiTrainCfg) (gi : InstanceData) :
  instances_well_formed gi →
  ∃ kept, filter_pseudo_one cfg gi = Ok kept ∧ large_enough cfg gi kept.
Proof.
  intros Hgi. unfold instances_well_formed in Hgi. unfold filter_pseudo_one.
  destruct (decide (length (bboxes gi) = 0)) as [Hz|Hz].
  { exists gi. split; [done|]. split; [done|].
    apply nil_length_inv in Hz. rewrite Hz. done. }
  unfold select_instances.
  set (mask := zip_with andb _ _).
  assert (mask = (λ b, Qgt_bool (x2 b - x1 b) (min_pseudo_bbox_wh cfg).1
                       && Qgt_bool (y2 b - y1 b) (min_pseudo_bbox_wh cfg).2)
                   <$> bboxes gi) as Hmask.
  { unfold mask. rewrite <- !list_fmap_compose.
    rewrite zip_with_fmap_l, zip_with_fmap_r, zip_with_diag. done. }
  destruct (masked_select_zip (bboxes gi) (labels gi) mask)
    as (bs & ls & Hbs & Hls & Hlen & Hzip).
  { by rewrite Hmask, length_fmap. }
  { by rewrite Hmask, length_fmap. }
  rewrite Hbs. simpl. rewrite Hls. simpl.
  eexists. split; [done|]. split; [done|]. simpl.
  rewrite Hzip, Hmask.
  rewrite (filter_mask_fmap _
             (λ p : (bbox * Z) * bbox,
                ((min_pseudo_bbox_wh cfg).1 < x2 p.2 - x1 p.2)%Q
                ∧ ((min_pseudo_bbox_wh cfg).2 < y2 p.2 - y1 p.2)%Q)).
  - by apply filter_zip_fst.
  - intros y b. simpl. rewrite andb_true_iff, !Qgt_bool_lt. done.
Qed.

(** C7: the pseudo labels of every sample are the boxes predicted by the
    teacher, with their labels, whose score is above [score_thr]; the
    filter keeps of every sample the boxes, with their labels, that are
    wider than [min_pseudo_bbox_wh[0]] and higher than
    [min_pseudo_bbox_wh[1]]. *)
Theorem pseudo_labels_selected {Inputs Meta : Type}
    (teacher_predict : Inputs → list (DataSample Meta) → list PredInstances)
    (cfg : SemiTrainCfg) (batch_inputs : Inputs)
    (batch_data_samples pseudo_samples : list (DataSample Meta)) :
  length (teacher_predict batch_inputs batch_data_samples)
  = length batch_data_samples →
  Forall pred_well_formed (teacher_predict batch_inputs batch_data_samples) →
  Forall (λ ds, instances_well_formed (gt_instances ds)) pseudo_samples →
  (∃ out,
     update_pseudo_instances teacher_predict cfg batch_inputs batch_data_samples
     = Ok out
     ∧ Forall2 (λ results ds, above_score_thr cfg results (gt_instances ds))
               (teacher_predict batch_inputs batch_data_samples) out
     ∧ meta <$> out = meta <$> batch_data_samples)
  ∧ (∃ out,
       filter_pseudo_instances cfg pseudo_samples = Ok out
       ∧ Forall2 (λ ds ds', large_enough cfg (gt_instances ds) (gt_instances ds')
                            ∧ meta ds' = meta ds)
                 pseudo_samples out).
Proof.
  intros Hlen Hwf Hgi. split.
  - unfold update_pseudo_instances.
    revert Hlen Hwf.
    generalize (teacher_predict batch_inputs batch_data_samples) as results.
    induction batch_data_samples as [|ds samples IH]; intros results Hlen Hwf.
    + destruct results; [|done]. exists []. by repeat split.
    + destruct results as [|r results]; [done|].
      injection Hlen as Hlen. inversion Hwf as [|? ? Hr Hwf']; subst.
      destruct (update_pseudo_one_spec cfg r Hr) as (pseudo & Hp & Hspec).
      destruct (IH results Hlen Hwf') as (tl & Htl & Hall & Hmeta).
      exists (mkSample pseudo (meta ds) :: tl). simpl.
      rewrite Hp. simpl. rewrite Htl. simpl.
      split; [done|]. split; [by constructor|].
      cbn [fmap list_fmap meta]. f_equal. exact Hmeta.
  - unfold filter_pseudo_instances.
    induction Hgi as [|ds samples Hds _ (tl & Htl & Hall)].
    + exists []. by split.
    + destruct (filter_pseudo_one_spec cfg _ Hds) as (kept & Hk & Hspec).
      exists (mkSample kept (meta ds) :: tl). simpl.
      rewrite Hk. simpl. rewrite Htl. simpl.
      split; [done|]. by constructor.
Qed.

Lemma pseudo_labels_selected_witness :
  length [example_pred] = length example_batch
  ∧ Forall pred_well_formed [example_pred]
  ∧ Forall (λ ds : DataSample unit, instances_well_formed (gt_instances ds))
           example_batch
  ∧ (∃ out,
       update_pseudo_instances (λ (_ : unit) _, [example_pred]) example_cfg tt
                               example_batch = Ok out
       ∧ Forall2 (λ results ds, above_score_thr example_cfg results
                                                (gt_instances ds))
                 [example_pred] out)
  ∧ (∃ out,
       filter_pseudo_instances example_cfg example_batch = Ok out
       ∧ Forall2 (λ ds ds', large_enough example_cfg (gt_instances ds)
                                         (gt_instances ds')
                            ∧ meta ds' = meta ds)
                 example_batch out).
Proof.
  assert (length [example_pred] = length example_batch) as H1 by reflexivity.
  assert (Forall pred_well_formed [example_pred]) as H2
    by (repeat constructor).
  assert (Forall (λ ds : DataSample unit,
                    instances_well_formed (gt_instances ds)) example_batch)
    as H3 by (repeat constructor).
  split; [exact H1|]. split; [exact H2|]. split; [exact H3|].
  destruct (pseudo_labels_selected (λ (_ : unit) _, [example_pred]) example_cfg
              tt example_batch example_batch H1 H2 H3)
    as [(out & Hout & Hall & _) Hfilter].
  split; [|exact Hfilter].
  exists out. split; [exact Hout|exact Hall].
Defined.

End SemiMixUpFacts.

Module CascadeFacts.

Import Cascade.


Section train_facts.

Context {C : Components} (self : CascadeRoIHead C).
Variable x : Feats C.
Variable img_meta : list (Meta C).
Variable gt_bboxes : list (Boxes C).
Variable gt_labels : list (Labels C).
Variable gt_bboxes_ignore : option (list (Boxes C)).
Variable gt_masks : option (Masks C).

Abbreviation loop :=
  (assign_sample_loop x img_meta gt_bboxes gt_labels gt_bboxes_ignore).
Abbreviation stage :=
  (run_stage self x img_meta gt_bboxes gt_labels gt_bboxes_ignore gt_masks).
Abbreviation stages :=
  (run_stages self x img_meta gt_bboxes gt_labels gt_bboxes_ignore gt_masks).

Hypothesis Hgb : length gt_bboxes = length img_meta.
Hypothesis Hgl : length gt_labels = length img_meta.
Hypothesis Hign :
  ∀ l, gt_bboxes_ignore = Some l → length l = length img_meta.

Lemma ignore_at_total (j : nat) :
  j < length img_meta → ∃ ig, ignore_at img_meta gt_bboxes_ignore j = Ok ig.
Proof.
  intros Hj. unfold ignore_at. destruct gt_bboxes_ignore as [l|].
  - destruct (index_total l j) as [b Hb]; [by rewrite (Hign l)|].
    rewrite Hb. by eexists.
  - rewrite decide_True by done. by eexists.
Qed.

(** The loop over the images assigns and samples image after image. *)
Lemma assign_sample_loop_spec (i : nat) (cfg : Cfg C) (P : list (Boxes C))
    (js : list nat) :
  length P = length img_meta → Forall (λ j, j < length img_meta) js →
  ∃ srs,
    loop i cfg P js
    = Ok (srs,
          concat (zip_with (λ j res,
                              match P !! j with
                              | Some p => [EvAssign i j p; EvSample i j res]
                              | None => []
                              end) js srs))
    ∧ length srs = length js.
Proof.
  intros HP. induction 1 as [|j js Hj _ (srs & IH & IHlen)]; simpl.
  - by exists [].
  - destruct (lookup_lt_is_Some_2 P j) as [p Hp]; [by rewrite HP|].
    rewrite (proj2 (index_Ok _ _ _) Hp). simpl.
    destruct (index_total gt_bboxes j) as [gb ->]; [by rewrite Hgb|]. simpl.
    destruct (ignore_at_total j Hj) as [ig ->]. simpl.
    destruct (index_total gt_labels j) as [gl ->]; [by rewrite Hgl|]. simpl.
    rewrite IH. simpl. eexists (_ :: srs). rewrite Hp. simpl.
    split; [done|]. by rewrite IHlen.
Qed.

Lemma loss_events_app (tr1 tr2 : list (event C)) :
  loss_events (tr1 ++ tr2) = loss_events tr1 ++ loss_events tr2.
Proof. apply omap_app. Qed.

Lemma loss_events_stage_calls (i : nat) (P : list (Boxes C)) srs :
  loss_events (stage_calls img_meta i P srs) = [].
Proof.
  unfold stage_calls. generalize (seq 0 (length img_meta)) as js.
  intros js. revert srs. induction js as [|j js IH]; intros [|res srs]; try done.
  cbn [zip_with concat]. rewrite loss_events_app, IH, app_nil_r.
  by destruct (P !! j).
Qed.

Hypothesis Hrefine :
  ∀ i rois targets pred srs,
    length (refine_bboxes C i rois targets pred srs img_meta) = length img_meta.

(** One stage: what it appends to the trace, the proposals it leaves and
    the dictionaries it adds to the losses. *)
Lemma run_stage_spec (i : nat) (st : train_state C) :
  i < length (train_cfg self) → i < length (stage_loss_weights self) →
  length (proposal_list st) = length img_meta →
  ∃ st' lw seg,
    stage i st = Ok st'
    ∧ stage_loss_weights self !! i = Some lw
    ∧ trace st' = trace st ++ seg
    ∧ stage_segment self x img_meta i (proposal_list st) seg (proposal_list st')
    ∧ length (proposal_list st') = length img_meta
    ∧ Forall (λ p, p.1 = i) (loss_events seg)
    ∧ losses st'
      = foldl (λ L d, add_losses i lw d L) (losses st) ((loss_events seg).*2).
Proof.
  intros Hcfg Hw HP. unfold run_stage.
  destruct (lookup_lt_is_Some_2 _ _ Hcfg) as [cfg Hc].
  destruct (lookup_lt_is_Some_2 _ _ Hw) as [lw Hlw].
  rewrite (proj2 (index_Ok _ _ _) Hc), (proj2 (index_Ok _ _ _) Hlw). simpl.
  destruct (assign_sample_loop_spec i cfg (proposal_list st)
              (seq 0 (length img_meta)) HP) as (srs & Hloop & Hlen).
  { apply Forall_forall. intros j Hj%elem_of_seq. lia. }
  rewrite length_seq in Hlen.
  rewrite Hloop. simpl.
  fold (stage_calls img_meta i (proposal_list st) srs).
  set (calls := stage_calls img_meta i (proposal_list st) srs).
  set (rois := bbox2roi C (res_bboxes C <$> srs)).
  destruct (decide (len_rois C rois = 0)) as [Hz|Hz].
  { eexists _, lw, calls. split; [done|]. simpl.
    split; [done|]. split; [done|]. split; [by constructor|].
    split; [done|]. unfold calls. rewrite loss_events_stage_calls.
    split; [constructor|done]. }
  set (pred := stage_bbox_pred self x i rois).
  destruct (with_mask self); destruct (decide (i < num_stages self - 1)).
  all: eexists _, lw, _; split; [reflexivity|]; simpl.
  all: split; [done|].
  all: rewrite <- ?app_assoc; simpl.
  all: split; [reflexivity|].
  - split; [by apply (seg_refined self x img_meta i _ srs [_; _]);
              [done..|repeat constructor; by eexists]|].
    split; [apply Hrefine|].
    rewrite !loss_events_app. unfold calls.
    rewrite loss_events_stage_calls. simpl.
    split; [by repeat constructor|done].
  - split; [by apply (seg_last self x img_meta i _ srs [_; _]);
              [done..|repeat constructor; by eexists]|].
    split; [done|].
    rewrite !loss_events_app. unfold calls.
    rewrite loss_events_stage_calls. simpl.
    split; [by repeat constructor|done].
  - split; [by apply (seg_refined self x img_meta i _ srs [_]);
              [done..|repeat constructor; by eexists]|].
    split; [apply Hrefine|].
    rewrite !loss_events_app. unfold calls.
    rewrite loss_events_stage_calls. simpl.
    split; [by repeat constructor|done].
  - split; [by apply (seg_last self x img_meta i _ srs [_]);
              [done..|repeat constructor; by eexists]|].
    split; [done|].
    rewrite !loss_events_app. unfold calls.
    rewrite loss_events_stage_calls. simpl.
    split; [by repeat constructor|done].
Qed.

End train_facts.

Lemma loss_key_inj (i j : nat) (n m : string) :
  loss_key i n = loss_key j m → i = j ∧ n = m.
Proof.
  unfold loss_key. intros E. rewrite !app_cons, !app_nil in E.
  injection E as E.
  apply dotfree_prefix_inj in E as [E ->]; [|apply pretty_nat_dotfree..].
  split; [|done]. by apply (inj pretty).
Qed.

Section losses.

Context {C : Components} (self : CascadeRoIHead C).

Lemma add_losses_lookup_key (i j : nat) (lw : Q) (d L : gmap string (LossVal C))
    (name : string) :
  add_losses j lw d L !! loss_key i name
  = if decide (i = j)
    then match d !! name with
         | Some v => Some (weighted lw name v)
         | None => L !! loss_key i name
         end
    else L !! loss_key i name.
Proof.
  unfold add_losses.
  apply (map_fold_weak_ind
           (λ r m, r !! loss_key i name
                   = if decide (i = j)
                     then match m !! name with
                          | Some v => Some (weighted lw name v)
                          | None => L !! loss_key i name
                          end
                     else L !! loss_key i name)).
  - rewrite lookup_empty. by destruct (decide _).
  - intros k v m r Hk IH.
    destruct (decide (i = j)) as [->|Hij].
    + destruct (decide (k = name)) as [->|Hne].
      * by rewrite !lookup_insert_eq.
      * rewrite !lookup_insert_ne; [done|done|].
        intros [_ E]%loss_key_inj. done.
    + rewrite lookup_insert_ne; [done|].
      intros [E _]%loss_key_inj. done.
Qed.

Lemma add_losses_lookup_inv (j : nat) (lw : Q) (d L : gmap string (LossVal C))
    (k : string) (v : LossVal C) :
  add_losses j lw d L !! k = Some v →
  (∃ name val, d !! name = Some val ∧ k = loss_key j name
               ∧ v = weighted lw name val)
  ∨ L !! k = Some v.
Proof.
  unfold add_losses.
  apply (map_fold_weak_ind
           (λ r m, r !! k = Some v →
                   (∃ name val, m !! name = Some val ∧ k = loss_key j name
                                ∧ v = weighted lw name val)
                   ∨ L !! k = Some v)).
  - by right.
  - intros n x m r Hn IH Hk.
    destruct (decide (k = loss_key j n)) as [->|Hne].
    + rewrite lookup_insert_eq in Hk. injection Hk as <-.
      left. exists n, x. by rewrite lookup_insert_eq.
    + rewrite lookup_insert_ne in Hk by done.
      destruct (IH Hk) as [(name & val & Hm & -> & ->)|HL]; [|by right].
      left. exists name, val. split; [|done].
      rewrite lookup_insert_ne; [done|]. by intros ->.
Qed.

Lemma fold_losses_app L evs1 evs2 :
  fold_losses self L (evs1 ++ evs2) = fold_losses self (fold_losses self L evs1) evs2.
Proof. apply foldl_app. Qed.

Lemma fold_losses_stage (i : nat) (lw : Q) L evs :
  stage_loss_weights self !! i = Some lw → Forall (λ p, p.1 = i) evs →
  fold_losses self L evs = foldl (λ L d, add_losses i lw d L) L (evs.*2).
Proof.
  intros Hlw Hall. revert L.
  induction Hall as [|[j d] evs Hj _ IH]; intros L; [done|].
  simpl in *. subst j. rewrite Hlw. apply IH.
Qed.

(** Every entry of the dictionary comes from a loss call, is stored under
    the key of its stage and is weighted by the weight of its stage; every
    name a loss call of a stage returned is present under the key of that
    stage. *)
Lemma fold_losses_spec (evs : list (nat * gmap string (LossVal C))) :
  Forall (λ p, is_Some (stage_loss_weights self !! p.1)) evs →
  (∀ k v, fold_losses self ∅ evs !! k = Some v →
     ∃ i d name val lw,
       (i, d) ∈ evs ∧ d !! name = Some val
       ∧ stage_loss_weights self !! i = Some lw
       ∧ k = loss_key i name ∧ v = weighted lw name val)
  ∧ (∀ i d name val,
       (i, d) ∈ evs → d !! name = Some val →
       ∃ d' val' lw,
         (i, d') ∈ evs ∧ d' !! name = Some val'
         ∧ stage_loss_weights self !! i = Some lw
         ∧ fold_losses self ∅ evs !! loss_key i name
           = Some (weighted lw name val')).
Proof.
  induction evs as [|[j dj] evs IH] using rev_ind; intros Hwf.
  - split; [intros k v Hk; unfold fold_losses in Hk; simpl in Hk;
             by rewrite lookup_empty in Hk|].
    intros i d name val Hin. by apply elem_of_nil in Hin.
  - apply Forall_app in Hwf as [Hwf Hj].
    apply Forall_singleton in Hj as [lw Hlw]. simpl in Hlw.
    destruct (IH Hwf) as [IHa IHb]. clear IH.
    rewrite fold_losses_app. simpl. rewrite Hlw. split.
    + intros k v Hk.
      apply add_losses_lookup_inv in Hk as [(name & val & Hd & -> & ->)|Hk].
      * exists j, dj, name, val, lw.
        split; [apply elem_of_app; right; by apply list_elem_of_singleton|].
        done.
      * destruct (IHa k v Hk) as (i & d & name & val & lw' & Hin & H).
        exists i, d, name, val, lw'.
        split; [apply elem_of_app; by left|done].
    + intros i d name val Hin Hd. rewrite add_losses_lookup_key.
      destruct (decide (i = j)) as [->|Hij].
      * destruct (dj !! name) as [vj|] eqn:Hdj.
        { exists dj, vj, lw.
          split; [apply elem_of_app; right; by apply list_elem_of_singleton|].
          done. }
        apply elem_of_app in Hin as [Hin|Hin].
        -- destruct (IHb j d name val Hin Hd) as (d' & val' & lw' & Hin' & H).
           exists d', val', lw'. split; [apply elem_of_app; by left|done].
        -- apply list_elem_of_singleton in Hin. injection Hin as ->. congruence.
      * apply elem_of_app in Hin as [Hin|Hin].
        -- destruct (IHb i d name val Hin Hd) as (d' & val' & lw' & Hin' & H).
           exists d', val', lw'. split; [apply elem_of_app; by left|done].
        -- apply list_elem_of_singleton in Hin. by injection Hin as -> _.
Qed.

End losses.

Section cascade.

Context {C : Components} (self : CascadeRoIHead C).
Variable x : Feats C.
Variable img_meta : list (Meta C).
Variable gt_bboxes : list (Boxes C).
Variable gt_labels : list (Labels C).
Variable gt_bboxes_ignore : option (list (Boxes C)).
Variable gt_masks : option (Masks C).

Hypothesis Hgb : length gt_bboxes = length img_meta.
Hypothesis Hgl : length gt_labels = length img_meta.
Hypothesis Hign :
  ∀ l, gt_bboxes_ignore = Some l → length l = length img_meta.
Hypothesis Hrefine :
  ∀ i rois targets pred srs,
    length (refine_bboxes C i rois targets pred srs img_meta) = length img_meta.

(** The loop over the stages: one segment per stage, every stage started
    with the proposals left by the one before, the losses collected from
    the loss calls in order. *)
Lemma run_stages_spec (n i : nat) (st : train_state C) :
  i + n ≤ length (train_cfg self) → i + n ≤ length (stage_loss_weights self) →
  length (proposal_list st) = length img_meta →
  ∃ st' tr,
    run_stages self x img_meta gt_bboxes gt_labels gt_bboxes_ignore gt_masks
               (seq i n) st = Ok st'
    ∧ trace st' = trace st ++ tr
    ∧ cascade_trace self x img_meta n i (proposal_list st) tr
    ∧ losses st' = fold_losses self (losses st) (loss_events tr)
    ∧ Forall (λ p, is_Some (stage_loss_weights self !! p.1)) (loss_events tr).
Proof.
  revert i st. induction n as [|n IH]; intros i st Hcfg Hw HP.
  - exists st, []. simpl. rewrite app_nil_r.
    split; [done|]. split; [done|]. split; [constructor|]. by split.
  - destruct (run_stage_spec self x img_meta gt_bboxes gt_labels
                gt_bboxes_ignore gt_masks Hgb Hgl Hign Hrefine i st)
      as (st1 & lw & seg & Hrun & Hlw & Htr & Hseg & HP1 & Hev & Hlosses);
      [lia..|done|].
    destruct (IH (S i) st1) as (st' & tr & Hrest & Htr' & Hcasc & Hl' & Hev');
      [lia..|done|].
    exists st', (seg ++ tr). simpl. rewrite Hrun. simpl.
    split; [done|]. split; [by rewrite Htr', Htr, app_assoc|].
    split; [by econstructor|].
    rewrite loss_events_app, fold_losses_app. split.
    + rewrite Hl', Hlosses. f_equal. symmetry. by apply fold_losses_stage.
    + apply Forall_app. split; [|done].
      eapply Forall_impl; [exact Hev|]. intros [j d] Hj. simpl in *.
      subst j. by eexists.
Qed.

End cascade.

(** C5, amended: the loop runs [num_stages] stages; every stage assigns
    and samples image after image and then, unless no RoI was sampled (the
    stage then stops and keeps its proposals), extracts the RoI features,
    runs the box head and, except in the last stage, refines the boxes; the
    proposals a stage starts with are those the stage before left, that is
    the boxes refined from its predictions. *)
Theorem forward_train_stages {C : Components} (self : CascadeRoIHead C)
    (x : Feats C) (img_meta : list (Meta C)) (gt_bboxes : list (Boxes C))
    (gt_labels : list (Labels C)) (gt_bboxes_ignore : option (list (Boxes C)))
    (gt_masks : option (Masks C)) (proposal_list : list (Boxes C)) :
  num_stages self ≤ length (train_cfg self) →
  num_stages self ≤ length (stage_loss_weights self) →
  length proposal_list = length img_meta →
  length gt_bboxes = length img_meta →
  length gt_labels = length img_meta →
  (∀ l, gt_bboxes_ignore = Some l → length l = length img_meta) →
  (∀ i rois targets pred srs,
     length (refine_bboxes C i rois targets pred srs img_meta)
     = length img_meta) →
  ∃ st,
    forward_train_state self x img_meta gt_bboxes gt_labels gt_bboxes_ignore
                        gt_masks proposal_list = Ok st
    ∧ cascade_trace self x img_meta (num_stages self) 0 proposal_list (trace st).
Proof.
  intros Hcfg Hw HP Hgb Hgl Hign Hrefine.
  destruct (run_stages_spec self x img_meta gt_bboxes gt_labels gt_bboxes_ignore
              gt_masks Hgb Hgl Hign Hrefine (num_stages self) 0
              (mkTrainState proposal_list ∅ []))
    as (st & tr & Hrun & Htr & Hcasc & _); [done..|].
  exists st. split; [done|]. simpl in Htr. by rewrite Htr.
Qed.

(** C6: with the same inputs, every entry of the returned dictionary comes
    from the loss call of some stage [i], sits under 's{i}.' followed by
    its name, and is multiplied by [stage_loss_weights[i]] exactly when its
    name contains 'loss'; and every name returned by a loss call of stage
    [i] is present under the key of that stage. *)
Theorem forward_train_losses {C : Components} (self : CascadeRoIHead C)
    (x : Feats C) (img_meta : list (Meta C)) (gt_bboxes : list (Boxes C))
    (gt_labels : list (Labels C)) (gt_bboxes_ignore : option (list (Boxes C)))
    (gt_masks : option (Masks C)) (proposal_list : list (Boxes C)) :
  num_stages self ≤ length (train_cfg self) →
  num_stages self ≤ length (stage_loss_weights self) →
  length proposal_list = length img_meta →
  length gt_bboxes = length img_meta →
  length gt_labels = length img_meta →
  (∀ l, gt_bboxes_ignore = Some l → length l = length img_meta) →
  (∀ i rois targets pred srs,
     length (refine_bboxes C i rois targets pred srs img_meta)
     = length img_meta) →
  ∃ st,
    forward_train_state self x img_meta gt_bboxes gt_labels gt_bboxes_ignore
                        gt_masks proposal_list = Ok st
    ∧ forward_train self x img_meta gt_bboxes gt_labels gt_bboxes_ignore
                    gt_masks proposal_list = Ok (losses st)
    ∧ (∀ k v, losses st !! k = Some v →
         ∃ i entries name value lw,
           (i, entries) ∈ loss_events (trace st)
           ∧ entries !! name = Some value
           ∧ stage_loss_weights self !! i = Some lw
           ∧ k = loss_key i name
           ∧ v = if contains "loss" name then mul_weight C value lw else value)
    ∧ (∀ i entries name value,
         (i, entries) ∈ loss_events (trace st) →
         entries !! name = Some value →
         ∃ entries' value' lw,
           (i, entries') ∈ loss_events (trace st)
           ∧ entries' !! name = Some value'
           ∧ stage_loss_weights self !! i = Some lw
           ∧ losses st !! loss_key i name
             = Some (if contains "loss" name
                     then mul_weight C value' lw else value')).
Proof.
  intros Hcfg Hw HP Hgb Hgl Hign Hrefine.
  destruct (run_stages_spec self x img_meta gt_bboxes gt_labels gt_bboxes_ignore
              gt_masks Hgb Hgl Hign Hrefine (num_stages self) 0
              (mkTrainState proposal_list ∅ []))
    as (st & tr & Hrun & Htr & _ & Hl & Hev); [done..|].
  simpl in Htr, Hl. subst tr.
  exists st. split; [done|].
  split; [unfold forward_train, forward_train_state; by rewrite Hrun|].
  rewrite Hl. apply (fold_losses_spec self _ Hev).
Qed.

Lemma forward_train_stages_witness :
  num_stages example_head ≤ length (train_cfg example_head)
  ∧ num_stages example_head ≤ length (stage_loss_weights example_head)
  ∧ ∃ st,
      forward_train_state example_head tt [tt] [[7]] [tt] None None [[1; 2]]
      = Ok st
      ∧ cascade_trace example_head tt [tt] 2 0 [[1; 2]] (trace st).
Proof.
  assert (num_stages example_head ≤ length (train_cfg example_head)) as H1
    by (simpl; lia).
  assert (num_stages example_head ≤ length (stage_loss_weights example_head))
    as H2 by (simpl; lia).
  split; [exact H1|]. split; [exact H2|].
  apply (forward_train_stages example_head tt [tt] [[7]] [tt] None None
           [[1; 2]] H1 H2 eq_refl eq_refl eq_refl).
  - intros l Hl. discriminate Hl.
  - intros i rois targets pred srs. reflexivity.
Defined.

(** C5 as stated fails on a batch without proposals: no RoI is sampled and
    both stages stop after sampling, without running the box head. *)
Lemma forward_train_skips_empty_stage :
  ∃ st,
    forward_train_state example_head tt [tt] [[7]] [tt] None None [[]] = Ok st
    ∧ trace st = [@EvAssign example_components 0 0 [];
                  @EvSample example_components 0 0 [];
                  @EvAssign example_components 1 0 [];
                  @EvSample example_components 1 0 []]
    ∧ ¬ every_stage_predicts example_head (trace st).
Proof.
  eexists. split; [reflexivity|]. split; [reflexivity|].
  intros H. destruct (H 0) as [pred Hp]; [simpl; lia|]. simpl in Hp.
  repeat (apply elem_of_cons in Hp as [Hp|Hp]; [discriminate Hp|]).
  by apply elem_of_nil in Hp.
Qed.

Lemma forward_train_losses_witness :
  num_stages example_head ≤ length (train_cfg example_head)
  ∧ num_stages example_head ≤ length (stage_loss_weights example_head)
  ∧ ∃ st,
      forward_train example_head tt [tt] [[7]] [tt] None None [[1; 2]]
      = Ok (losses st)
      ∧ ∀ k v, losses st !! k = Some v →
          ∃ i entries name value lw,
            (i, entries) ∈ loss_events (trace st)
            ∧ entries !! name = Some value
            ∧ stage_loss_weights example_head !! i = Some lw
            ∧ k = loss_key i name
            ∧ v = if contains "loss" name
                  then mul_weight example_components value lw else value.
Proof.
  assert (num_stages example_head ≤ length (train_cfg example_head)) as H1
    by (simpl; lia).
  assert (num_stages example_head ≤ length (stage_loss_weights example_head))
    as H2 by (simpl; lia).
  split; [exact H1|]. split; [exact H2|].
  destruct (forward_train_losses example_head tt [tt] [[7]] [tt] None None
              [[1; 2]] H1 H2 eq_refl eq_refl eq_refl)
    as (st & _ & Hl & Hkeys & _).
  - intros l Hl. discriminate Hl.
  - intros i rois targets pred srs. reflexivity.
  - exists st. split; [exact Hl|exact Hkeys].
Defined.

Example forward_train_example_keys :
  (λ L, (L !! "s0.loss_cls", L !! "s1.loss_cls", L !! "s1.acc"))
    <$> forward_train example_head tt [tt] [[7]] [tt] None None [[1; 2]]
  = Ok (Some (3 * 1)%Q, Some (3 * (1 # 2))%Q, Some 1%Q).
Proof. vm_compute. reflexivity. Qed.


Lemma mget_scalar_add (c : Q) (t : list (list Q)) r k :
  mget (scalar_add c t) r k = Qplus c <$> mget t r k.
Proof. unfold scalar_add. apply mget_fmap. Qed.

Lemma mget_tensor_div (t : list (list Q)) (n : nat) r k :
  mget (tensor_div t n) r k
  = (λ v, v / inject_Z (Z.of_nat n))%Q <$> mget t r k.
Proof. unfold tensor_div. apply mget_fmap. Qed.

(** An entry of the sum of the tensors [ts] added to [acc] is the entry of
    [acc] plus the sum of the entries of [ts]. *)
Lemma mget_foldl_tensor_add (ts : list (list (list Q))) (acc : list (list Q))
    r k (a : Q) (vs : list Q) :
  mget acc r k = Some a →
  Forall2 (λ t v, mget t r k = Some v) ts vs →
  ∃ v, mget (foldl tensor_add acc ts) r k = Some v ∧ (v == a + Qsum vs)%Q.
Proof.
  intros Ha Hts. revert acc a Ha.
  induction Hts as [|t v ts vs Ht _ IH]; intros acc a Ha; simpl.
  - exists a. split; [done|]. unfold Qsum. simpl. ring.
  - destruct (IH (tensor_add acc t) (a + v)%Q) as (w & Hw & Heq).
    { unfold tensor_add. apply mget_mat_zip_with. eauto. }
    exists w. split; [done|]. rewrite Heq. unfold Qsum. simpl. ring.
Qed.

Lemma mget_py_sum (ts : list (list (list Q))) r k (vs : list Q) :
  ts ≠ [] → Forall2 (λ t v, mget t r k = Some v) ts vs →
  ∃ v, mget (py_sum ts) r k = Some v ∧ (v == Qsum vs)%Q.
Proof.
  intros Hne Hts. destruct Hts as [|t v ts vs Ht Hts]; [done|]. simpl.
  destruct (mget_foldl_tensor_add ts (scalar_add 0 t) r k (0 + v)%Q vs)
    as (w & Hw & Heq); [by rewrite mget_scalar_add, Ht|done|].
  exists w. split; [done|]. rewrite Heq. unfold Qsum. simpl. ring.
Qed.

Section test_facts.

Context {C : Components} (self : CascadeRoIHead C).
Variable x : Feats C.
Variable img_meta0 : Meta C.
Variable rois0 : Rois C.
Variable num_classes : nat.

Hypothesis Hclasses : 0 < num_classes.
Hypothesis Hshape :
  ∀ i r, shape (stage_forward self x i r).1 (len_rois C r) num_classes.
Hypothesis Hregress :
  ∀ i r l p, len_rois C (regress_by_class C i r l p img_meta0) = len_rois C r.

Lemma argmax_dim1_total (i : nat) (r : Rois C) :
  ∃ l, argmax_dim1 (stage_forward self x i r).1 = Ok l.
Proof.
  unfold argmax_dim1.
  destruct (max_dim1_total (stage_forward self x i r).1) as [mx Hmx].
  - destruct (Hshape i r) as [_ Hrows].
    eapply Forall_impl; [exact Hrows|]. intros row Hrow. simpl in Hrow.
    intros ->. simpl in Hrow. lia.
  - rewrite Hmx. by eexists.
Qed.

(** The loop over the stages [i], ..., [i + n - 1] appends the score of
    each of them, computed on the RoIs that stage is to score. *)
Lemma test_stages_spec (n i : nat) (st : test_state) :
  i + n ≤ num_stages self →
  (0 < n → rois_at self x img_meta0 rois0 i = Ok (rois st)
           ∧ len_rois C (rois st) = len_rois C rois0) →
  ∃ st' scores,
    test_stages self x img_meta0 (seq i n) st = Ok st'
    ∧ ms_scores st' = ms_scores st ++ scores
    ∧ length scores = n
    ∧ (0 < n → is_Some (last_bbox_pred st'))
    ∧ ∀ k s, scores !! k = Some s →
        ∃ r, rois_at self x img_meta0 rois0 (i + k) = Ok r
             ∧ len_rois C r = len_rois C rois0
             ∧ s = (stage_forward self x (i + k) r).1.
Proof.
  revert i st. induction n as [|n IH]; intros i st Hn Hinv.
  - exists st, []. simpl. rewrite app_nil_r.
    split; [done|]. split; [done|]. split; [done|]. split; [lia|].
    intros k s Hk. done.
  - destruct Hinv as [Hrois Hlen]; [lia|].
    simpl. unfold test_stage at 1.
    fold (stage_forward self x i (rois st)).
    set (out := stage_forward self x i (rois st)).
    assert (∀ st1 : test_state,
              ms_scores st1 = ms_scores st ++ [out.1] →
              last_bbox_pred st1 = Some out.2 →
              (0 < n → rois_at self x img_meta0 rois0 (S i) = Ok (rois st1)
                       ∧ len_rois C (rois st1) = len_rois C rois0) →
              ∃ st' scores,
                test_stages self x img_meta0 (seq (S i) n) st1 = Ok st'
                ∧ ms_scores st' = ms_scores st ++ scores
                ∧ length scores = S n
                ∧ (0 < S n → is_Some (last_bbox_pred st'))
                ∧ ∀ k s, scores !! k = Some s →
                    ∃ r, rois_at self x img_meta0 rois0 (i + k) = Ok r
                         ∧ len_rois C r = len_rois C rois0
                         ∧ s = (stage_forward self x (i + k) r).1) as Hnext.
    { intros st1 Hms Hpred Hinv1.
      destruct (IH (S i) st1) as (st' & scores & Hrun & Hms' & Hl & Hp & Hall);
        [lia|done|].
      exists st', (out.1 :: scores). split; [done|].
      split; [by rewrite Hms', Hms, <- app_assoc|].
      split; [simpl; by rewrite Hl|]. split.
      - intros _. destruct n; [|apply Hp; lia].
        simpl in Hrun. injection Hrun as <-. by rewrite Hpred.
      - intros [|k] s Hk; simpl in Hk.
        + injection Hk as <-. exists (rois st). rewrite Nat.add_0_r. done.
        + destruct (Hall k s Hk) as (r & Hr & Hlr & ->).
          exists r. replace (i + S k) with (S i + k) by lia. done. }
    destruct (decide (i < num_stages self - 1)) as [Hlt|Hlast].
    + destruct (argmax_dim1_total i (rois st)) as [l Hl].
      fold out in Hl. rewrite Hl. simpl.
      apply Hnext; [done..|]. intros _. simpl. rewrite Hrois. simpl.
      fold out. rewrite Hl. simpl. split; [done|]. by rewrite Hregress.
    + simpl. apply Hnext; [done..|]. intros Hpos. lia.
Qed.

End test_facts.

(** C9: the score handed to [get_det_bboxes] is the sum of the scores of
    the stages divided by [num_stages], entry by entry their arithmetic
    mean; stage 0 scores the proposals and every later stage the RoIs of
    the stage before, regressed with that stage's box prediction. *)
Theorem simple_test_mean_score {C : Components} (self : CascadeRoIHead C)
    (x : Feats C) (proposal_list : list (Boxes C)) (img_meta : list (Meta C))
    (rescale : bool) (img_meta0 : Meta C) (num_classes : nat) :
  img_meta !! 0 = Some img_meta0 →
  0 < num_stages self →
  0 < num_classes →
  (∀ i r, shape (stage_forward self x i r).1 (len_rois C r) num_classes) →
  (∀ i r l p,
     len_rois C (regress_by_class C i r l p img_meta0) = len_rois C r) →
  let rois0 := bbox2roi C proposal_list in
  ∃ cls_score dets ms_scores,
    simple_test self x proposal_list img_meta rescale = Ok (cls_score, dets)
    ∧ length ms_scores = num_stages self
    ∧ (∀ i s, ms_scores !! i = Some s →
         ∃ r, rois_at self x img_meta0 rois0 i = Ok r
              ∧ s = (stage_forward self x i r).1)
    ∧ cls_score = tensor_div (py_sum ms_scores) (num_stages self)
    ∧ ∀ ρ c, ρ < len_rois C rois0 → c < num_classes →
        ∃ vs v,
          Forall2 (λ s w, mget s ρ c = Some w) ms_scores vs
          ∧ mget cls_score ρ c = Some v
          ∧ (v == Qsum vs / inject_Z (Z.of_nat (length ms_scores)))%Q.
Proof.
  intros Hmeta Hstages Hclasses Hshape Hregress rois0.
  destruct (test_stages_spec self x img_meta0 rois0 num_classes Hclasses Hshape
              Hregress (num_stages self) 0 (mkTestState rois0 [] None))
    as (st & scores & Hrun & Hms & Hlen & Hpred & Hall); [simpl; lia|done|].
  simpl in Hms. destruct (Hpred Hstages) as [pred Hp].
  unfold simple_test. rewrite (proj2 (index_Ok _ _ _) Hmeta). simpl.
  fold rois0. rewrite Hrun. simpl.
  rewrite decide_False by lia. rewrite Hp, Hms.
  eexists _, _, scores. split; [done|]. split; [done|]. split.
  { intros i s Hs. destruct (Hall i s Hs) as (r & Hr & _ & ->). eauto. }
  split; [done|].
  intros ρ c Hρ Hc.
  assert (∃ vs, Forall2 (λ s w, mget s ρ c = Some w) scores vs) as [vs Hvs].
  { apply Forall_is_Some_Forall2, Forall_lookup. intros k s Hk.
    destruct (Hall k s Hk) as (r & _ & Hl & ->).
    apply (shape_mget _ _ _ ρ c (Hshape (0 + k) r)); [lia|done]. }
  destruct (mget_py_sum scores ρ c vs) as (v & Hv & Heq); [|done|].
  { intros ->. simpl in Hlen. lia. }
  exists vs, (v / inject_Z (Z.of_nat (num_stages self)))%Q.
  split; [done|]. split; [by rewrite mget_tensor_div, Hv|].
  by rewrite Heq, Hlen.
Qed.

Lemma simple_test_mean_score_witness :
  [tt] !! 0 = Some tt ∧ 0 < num_stages example_head ∧ 0 < 2
  ∧ ∃ cls_score dets ms_scores,
      simple_test example_head tt [[1; 2]] [tt] false = Ok (cls_score, dets)
      ∧ length ms_scores = 2
      ∧ cls_score = tensor_div (py_sum ms_scores) 2.
Proof.
  assert (0 < num_stages example_head) as H1 by (simpl; lia).
  assert (0 < 2) as H2 by lia.
  split; [reflexivity|]. split; [exact H1|]. split; [exact H2|].
  destruct (simple_test_mean_score example_head tt [[1; 2]] [tt] false tt 2
              eq_refl H1 H2)
    as (cls_score & dets & ms & Hrun & Hlen & _ & Hcls & _).
  - intros i r. split.
    + simpl. by rewrite length_fmap.
    + simpl. apply Forall_fmap, Forall_forall. intros b _. reflexivity.
  - intros i r l p. simpl. by rewrite length_fmap.
  - exists cls_score, dets, ms. split; [exact Hrun|]. split; [exact Hlen|].
    exact Hcls.
Defined.

Example simple_test_example :
  simple_test example_head tt [[1; 2]] [tt] false
  = Ok (tensor_div (py_sum [[[1; 1]; [2; 1]]; [[3; 1]; [4; 1]]]%Q) 2, [2; 3]).
Proof. vm_compute. reflexivity. Qed.

End CascadeFacts.

(** ** ATSSAssigner: further properties of [assign] *)

Module ATSSMore.

Import ATSS ATSSFacts.

(** The maximum of a row bounds every entry of the row. *)
Lemma max_with_index_max (row : list Q) (m : Q) (i j : nat) (v : Q) :
  max_with_index row = Some (m, i) → row !! j = Some v → (v <= m)%Q.
Proof.
  revert m i j. induction row as [|x row IH]; intros m i j H Hj; [done|].
  simpl in H. destruct (max_with_index row) as [[m' i']|] eqn:Hrow.
  - destruct (Qle_bool m' x) eqn:Hle.
    + injection H as <- <-. apply Qle_bool_iff in Hle.
      destruct j as [|j]; simpl in Hj.
      * injection Hj as <-. apply Qle_refl.
      * eapply Qle_trans; [eapply (IH _ _ _ eq_refl Hj)|exact Hle].
    + injection H as <- <-.
      destruct j as [|j]; simpl in Hj.
      * injection Hj as <-. apply Qlt_le_weak, Qnot_le_lt.
        rewrite <- Qle_bool_iff. by rewrite Hle.
      * eapply (IH _ _ _ eq_refl Hj).
  - injection H as <- <-.
    assert (row = []) as ->.
    { destruct row as [|y row]; [done|].
      destruct (max_with_index_is_Some (y :: row)) as [p Hp]; congruence. }
    destruct j as [|j]; [|done]. injection Hj as <-. apply Qle_refl.
Qed.

(** Scattering values gathered from [src] at the same positions leaves
    the entry of [src] at every position written, also when a position
    occurs twice. *)
Lemma index_put_gather {A} (src dst : list A) idx vals dst' j :
  gather src idx = Ok vals → index_put dst idx vals = Ok dst' →
  j ∈ idx → dst' !! j = src !! j.
Proof.
  intros Hg. apply gather_Ok in Hg. revert dst.
  induction Hg as [|i v idx vals Hv _ IH]; intros dst Hput Hj.
  - by apply elem_of_nil in Hj.
  - simpl in Hput. destruct (decide _) as [Hi|]; [|done].
    destruct (decide (j ∈ idx)) as [Hin|Hnin]; [by eapply IH|].
    apply elem_of_cons in Hj as [->|Hj]; [|done].
    rewrite (index_put_notin _ _ _ _ _ Hput Hnin).
    by rewrite list_lookup_insert_eq.
Qed.

Section more.

Variable bbox_overlaps : bbox → bbox → Q.
Variable sqrt : Q → Q.
Variable topk : nat.

Variable bboxes : list bbox.
Variable num_level_bboxes : list nat.
Variable gt_bboxes : list bbox.
Variable gt_labels : option (list Z).

Abbreviation is_run := (is_run bbox_overlaps sqrt topk bboxes num_level_bboxes
                               gt_bboxes gt_labels).

(** The scattered tensor holds the overlap of every retained
    candidate. *)
Lemma run_inf_retained (t : run) (ρ g b : nat) :
  is_run t →
  mget (r_cand t) ρ g = Some b →
  mget (r_is_pos sqrt gt_bboxes t) ρ g = Some true →
  g < length gt_bboxes ∧ b < length bboxes
  ∧ r_inf t !! (g * length bboxes + b)
    = mget (overlaps_of bbox_overlaps bboxes gt_bboxes) b g.
Proof.
  intros Ht Hc Hpos.
  destruct (run_cand_shape _ _ _ _ _ _ _ _ Ht) as [Hs Hlt].
  destruct (run_shapes _ _ _ _ _ _ _ _ Ht) as (_ & _ & _ & _ & Hps).
  pose proof (mget_lt _ _ _ _ _ _ Hs Hc) as [_ Hg].
  pose proof (Hlt _ _ _ Hc) as Hb.
  split; [done|]. split; [done|].
  destruct Ht as (_ & _ & _ & _ & H5 & H6 & H7 & _).
  assert ((b + g * length bboxes) ∈ r_index t) as Hin.
  { apply (masked_select_elem _ _ _ _ H5).
    exists (ρ * length gt_bboxes + g). split.
    - unfold r_flat.
      rewrite (mget_concat _ _ _ _ _ (add_gt_offsets_shape _ _ _ _ Hs) Hg).
      by rewrite mget_add_gt_offsets, Hc.
    - by rewrite (mget_concat _ _ _ _ _ Hps Hg). }
  rewrite (Nat.add_comm b) in Hin.
  rewrite (index_put_gather _ _ _ _ _ _ H6 H7 Hin).
  apply lookup_flat_transpose; [apply overlaps_of_shape|done..].
Qed.

(** Row [b] of the transposed tensor at column [g]. *)
Lemma run_row_lookup (t : run) (b g : nat) :
  is_run t → g < length gt_bboxes → b < length bboxes →
  ∃ row, transpose 0%Q (length bboxes) (r_rows t) !! b = Some row
         ∧ row !! g = r_inf t !! (g * length bboxes + b).
Proof.
  intros Ht Hg Hb.
  destruct (run_rows_shape _ _ _ _ _ _ _ _ Ht) as [Hs Hget].
  exists (column 0%Q b (r_rows t)). split.
  - unfold transpose. by rewrite list_lookup_fmap, lookup_seq_lt.
  - rewrite (column_mget _ _ _ _ _ _ Hs Hb). by apply Hget.
Qed.

(** The overlap gathered for a candidate. *)
Lemma run_co_entry (t : run) (ρ g b : nat) (bx gt : bbox) :
  is_run t → mget (r_cand t) ρ g = Some b →
  bboxes !! b = Some bx → gt_bboxes !! g = Some gt →
  mget (r_co t) ρ g = Some (bbox_overlaps bx gt).
Proof.
  intros Ht Hc Hbx Hgt.
  destruct (run_cand_shape _ _ _ _ _ _ _ _ Ht) as [Hs _].
  destruct (mget_lt _ _ _ _ _ _ Hs Hc) as [Hρ Hg].
  destruct Ht as (_ & H2 & _).
  destruct (candidate_overlaps_inv _ _ _ _ _ Hs H2) as [Hcos Hco].
  destruct (shape_mget _ _ _ _ _ Hcos Hρ Hg) as [v Hv].
  destruct (Hco _ _ _ Hv) as (b' & Hb' & Hov).
  assert (b' = b) as -> by congruence.
  rewrite mget_overlaps_of, Hbx, Hgt in Hov. simpl in Hov. congruence.
Qed.

(** The centre gathered for a candidate. *)
Lemma run_centre_entry (t : run) (ρ g b : nat) (bx : bbox) :
  is_run t → mget (r_cand t) ρ g = Some b → bboxes !! b = Some bx →
  mget (r_ex t) ρ g = Some (center_x bx)
  ∧ mget (r_ey t) ρ g = Some (center_y bx).
Proof.
  intros Ht Hc Hbx.
  destruct (run_cand_shape _ _ _ _ _ _ _ _ Ht) as [Hs _].
  destruct (mget_lt _ _ _ _ _ _ Hs Hc) as [Hρ Hg].
  destruct (run_shapes _ _ _ _ _ _ _ _ Ht) as (_ & _ & Hxs & Hys & _).
  destruct Ht as (_ & _ & H3 & H4 & _).
  pose proof (add_gt_offsets_shape (length bboxes) _ _ _ Hs) as Hoff.
  apply (gather_view_rows _ _ _ _ _ Hoff) in H3 as (_ & _ & _ & Hex).
  apply (gather_view_rows _ _ _ _ _ Hoff) in H4 as (_ & _ & _ & Hey).
  destruct (shape_mget _ _ _ _ _ Hxs Hρ Hg) as [vx Hvx].
  destruct (shape_mget _ _ _ _ _ Hys Hρ Hg) as [vy Hvy].
  destruct (Forall2_mget_r _ _ _ _ _ _ Hex Hvx) as (ix & Hix & Hcx).
  destruct (Forall2_mget_r _ _ _ _ _ _ Hey Hvy) as (iy & Hiy & Hcy).
  rewrite mget_add_gt_offsets, Hc in Hix, Hiy. simpl in Hix, Hiy.
  injection Hix as <-. injection Hiy as <-.
  assert (length (center_x <$> bboxes) = length bboxes) as Hlx
    by apply length_fmap.
  assert (length (center_y <$> bboxes) = length bboxes) as Hly
    by apply length_fmap.
  pose proof (lookup_lt_Some _ _ _ Hbx) as Hb.
  rewrite <- Hlx in Hcx at 1. rewrite <- Hly in Hcy at 1.
  rewrite expand_flat_lookup in Hcx by (rewrite ?length_fmap; done).
  rewrite expand_flat_lookup in Hcy by (rewrite ?length_fmap; done).
  rewrite list_lookup_fmap, Hbx in Hcx, Hcy. simpl in Hcx, Hcy.
  split; congruence.
Qed.

(** A candidate that reaches the threshold of its ground truth and whose
    centre is inside it is retained. *)
Lemma run_is_pos_true (t : run) (ρ g b : nat) (bx gt : bbox) (thr : Q) :
  is_run t → mget (r_cand t) ρ g = Some b →
  bboxes !! b = Some bx → gt_bboxes !! g = Some gt →
  mean_plus_std sqrt (column 0%Q g (r_co t)) = Some thr →
  (thr <= bbox_overlaps bx gt)%Q →
  (1 # 100 < center_x bx - x1 gt)%Q → (1 # 100 < center_y bx - y1 gt)%Q →
  (1 # 100 < x2 gt - center_x bx)%Q → (1 # 100 < y2 gt - center_y bx)%Q →
  mget (r_is_pos sqrt gt_bboxes t) ρ g = Some true.
Proof.
  intros Ht Hc Hbx Hgt Hthr Hle Hl Htop Hr Hbot.
  pose proof (run_co_entry _ _ _ _ _ _ Ht Hc Hbx Hgt) as Hco.
  destruct (run_centre_entry _ _ _ _ _ Ht Hc Hbx) as [Hex Hey].
  pose proof (lookup_lt_Some _ _ _ Hgt) as Hg.
  unfold r_is_pos. apply mget_mat_zip_with. exists true, true.
  split; [|split; [|done]].
  - unfold is_pos_of. apply mget_broadcast_rows.
    exists (bbox_overlaps bx gt), (Some thr). split; [done|]. split.
    + by rewrite run_thr_lookup, Hthr.
    + simpl. symmetry. by apply Qle_bool_iff.
  - unfold is_in_gts_of. rewrite mget_fmap.
    set (vx := center_x bx) in *. set (vy := center_y bx) in *.
    assert (mget
              (mat_zip_with Qmin
                 (mat_zip_with Qmin
                    (broadcast_rows (λ v g0, v - x1 g0)%Q (r_ex t) gt_bboxes)
                    (broadcast_rows (λ v g0, v - y1 g0)%Q (r_ey t) gt_bboxes))
                 (mat_zip_with Qmin
                    (broadcast_rows (λ v g0, x2 g0 - v)%Q (r_ex t) gt_bboxes)
                    (broadcast_rows (λ v g0, y2 g0 - v)%Q (r_ey t) gt_bboxes)))
              ρ g
            = Some (Qmin (Qmin (vx - x1 gt) (vy - y1 gt))
                         (Qmin (x2 gt - vx) (y2 gt - vy)))) as ->.
    { apply mget_mat_zip_with. do 2 eexists. split; [|split; [|done]].
      - apply mget_mat_zip_with. do 2 eexists. split; [|split; [|done]].
        + apply mget_broadcast_rows. by exists vx, gt.
        + apply mget_broadcast_rows. by exists vy, gt.
      - apply mget_mat_zip_with. do 2 eexists. split; [|split; [|done]].
        + apply mget_broadcast_rows. by exists vx, gt.
        + apply mget_broadcast_rows. by exists vy, gt. }
    simpl. f_equal. unfold Qgt_bool. apply negb_true_iff, not_true_is_false.
    rewrite Qle_bool_iff. apply Qlt_not_le.
    apply Q.min_glb_lt; apply Q.min_glb_lt; done.
Qed.

(** The row maximum of box [b] bounds the overlap of every candidate
    retained for [b]. *)
Lemma run_mx_max (t : run) (ρ g b : nat) (bx gt : bbox) :
  is_run t → mget (r_cand t) ρ g = Some b →
  mget (r_is_pos sqrt gt_bboxes t) ρ g = Some true →
  bboxes !! b = Some bx → gt_bboxes !! g = Some gt →
  ∃ m i, r_mx t !! b = Some (m, i) ∧ (bbox_overlaps bx gt <= m)%Q.
Proof.
  intros Ht Hc Hpos Hbx Hgt.
  destruct (run_inf_retained _ _ _ _ Ht Hc Hpos) as (Hg & Hb & Hinf).
  destruct (run_row_lookup _ _ _ Ht Hg Hb) as (row & Hrow & Hrg).
  rewrite Hinf, mget_overlaps_of, Hbx, Hgt in Hrg. simpl in Hrg.
  destruct Ht as (_ & _ & _ & _ & _ & _ & _ & _ & H9 & _).
  apply mapM_Ok in H9.
  destruct (Forall2_lookup_l _ _ _ _ _ H9 Hrow) as ([m i] & Hmx & Hmax).
  destruct (max_with_index row) as [p|] eqn:Hp; [|done].
  injection Hmax as ->. exists m, i. split; [done|].
  by eapply max_with_index_max.
Qed.

End more.

(** X1.  In the result of [assign], [max_overlaps] of a box assigned to a
    ground truth is its overlap with that ground truth, and
    [max_overlaps] of a background box is [-INF]. *)
Theorem assign_max_overlaps
    (bbox_overlaps : bbox → bbox → Q) (sqrt : Q → Q) (topk : nat)
    (bboxes : list bbox) (num_level_bboxes : list nat) (gt_bboxes : list bbox)
    (gt_labels : option (list Z)) (res : AssignResult) :
  assign bbox_overlaps sqrt topk bboxes num_level_bboxes gt_bboxes gt_labels
  = Ok res →
  length (max_overlaps res) = length bboxes
  ∧ ∀ b a, gt_inds res !! b = Some a →
      match a with
      | 0 => ∃ m, max_overlaps res !! b = Some m ∧ (m == - INF)%Q
      | S g => ∃ bx gt, bboxes !! b = Some bx ∧ gt_bboxes !! g = Some gt
                        ∧ max_overlaps res !! b = Some (bbox_overlaps bx gt)
      end.
Proof.
  intros (_ & _ & t & Ht & ->)%assign_inv. simpl. split.
  { rewrite length_fmap. by eapply run_mx_length. }
  intros b a (m & i & Hmx & Ha)%assigned_of_lookup.
  rewrite list_lookup_fmap, Hmx. simpl.
  destruct (Qeq_bool m (- INF)) eqn:Hinf; subst a.
  { exists m. split; [done|]. by apply Qeq_bool_iff. }
  replace (i + 1) with (S i) by lia.
  destruct (run_mx_entry _ _ _ _ _ _ _ _ Ht _ _ _ Hmx) as (Hg & Hb & Hentry).
  destruct (run_inf_entry _ _ _ _ _ _ _ _ Ht _ _ _ Hg Hb Hentry)
    as [->|(Hov & _)].
  { exfalso. revert Hinf. by rewrite (proj2 (Qeq_bool_iff _ _) (Qeq_refl _)). }
  rewrite mget_overlaps_of in Hov.
  destruct (bboxes !! b) as [bx|] eqn:Hbx; [|done].
  destruct (gt_bboxes !! i) as [gt|] eqn:Hgt; [|done].
  simpl in Hov. injection Hov as <-. by exists bx, gt.
Qed.

Lemma assign_max_overlaps_witness :
  assign iou sqrt3 2 example_bboxes example_levels example_gts example_labels
  = Ok example_result
  ∧ length (max_overlaps example_result) = length example_bboxes
  ∧ ∀ b a, gt_inds example_result !! b = Some a →
      match a with
      | 0 => ∃ m, max_overlaps example_result !! b = Some m ∧ (m == - INF)%Q
      | S g => ∃ bx gt, example_bboxes !! b = Some bx
                        ∧ example_gts !! g = Some gt
                        ∧ max_overlaps example_result !! b = Some (iou bx gt)
      end.
Proof.
  assert (assign iou sqrt3 2 example_bboxes example_levels example_gts
                 example_labels = Ok example_result) as H
    by (vm_compute; reflexivity).
  split; [exact H|].
  exact (assign_max_overlaps iou sqrt3 2 example_bboxes example_levels
           example_gts example_labels example_result H).
Defined.

(** X2.  Completeness of the assignment: a candidate of ground truth [g]
    whose overlap reaches the threshold of [g] (mean plus standard
    deviation of the overlaps of the candidates of [g]), whose centre lies
    more than 0.01 inside [g] on every side, and whose overlap is above
    [-INF], is assigned to a ground truth, and the overlap with the ground
    truth it is assigned to is at least its overlap with [g]. *)
Theorem assign_qualifying_candidate
    (bbox_overlaps : bbox → bbox → Q) (sqrt : Q → Q) (topk : nat)
    (bboxes : list bbox) (num_level_bboxes : list nat) (gt_bboxes : list bbox)
    (gt_labels : option (list Z)) (res : AssignResult) :
  assign bbox_overlaps sqrt topk bboxes num_level_bboxes gt_bboxes gt_labels
  = Ok res →
  ∃ t, is_run bbox_overlaps sqrt topk bboxes num_level_bboxes gt_bboxes
              gt_labels t
       ∧ ∀ ρ g b bx gt thr,
           mget (r_cand t) ρ g = Some b →
           bboxes !! b = Some bx → gt_bboxes !! g = Some gt →
           mean_plus_std sqrt (column 0%Q g (r_co t)) = Some thr →
           (thr <= bbox_overlaps bx gt)%Q →
           (1 # 100 < center_x bx - x1 gt)%Q →
           (1 # 100 < center_y bx - y1 gt)%Q →
           (1 # 100 < x2 gt - center_x bx)%Q →
           (1 # 100 < y2 gt - center_y bx)%Q →
           (- INF < bbox_overlaps bx gt)%Q →
           ∃ g' gt', gt_inds res !! b = Some (S g')
                     ∧ gt_bboxes !! g' = Some gt'
                     ∧ (bbox_overlaps bx gt <= bbox_overlaps bx gt')%Q.
Proof.
  intros (_ & _ & t & Ht & ->)%assign_inv. exists t. split; [done|]. simpl.
  intros ρ g b bx gt thr Hc Hbx Hgt Hthr Hle Hl Htop Hr Hbot Hinf.
  pose proof (run_is_pos_true _ _ _ _ _ _ _ _ _ _ _ _ _ _ Ht Hc Hbx Hgt Hthr Hle
                Hl Htop Hr Hbot) as Hpos.
  destruct (run_mx_max _ _ _ _ _ _ _ _ _ _ _ _ _ Ht Hc Hpos Hbx Hgt)
    as (m & i & Hmx & Hmax).
  assert (Qeq_bool m (- INF) = false) as Hne.
  { apply not_true_is_false. rewrite Qeq_bool_iff. intros Heq.
    rewrite Heq in Hmax. by apply Qle_not_lt in Hmax. }
  destruct (run_mx_entry _ _ _ _ _ _ _ _ Ht _ _ _ Hmx) as (Hi & Hb & Hentry).
  destruct (run_inf_entry _ _ _ _ _ _ _ _ Ht _ _ _ Hi Hb Hentry)
    as [->|(Hov & _)]; [done|].
  rewrite mget_overlaps_of, Hbx in Hov. simpl in Hov.
  destruct (gt_bboxes !! i) as [gt'|] eqn:Hgt'; [|done].
  simpl in Hov. injection Hov as <-.
  exists i, gt'. split; [|done].
  unfold assigned_of. rewrite list_lookup_fmap, Hmx. simpl. rewrite Hne.
  f_equal. lia.
Qed.

Lemma sum_list_take_lookup (levels : list nat) (l n : nat) :
  levels !! l = Some n → sum_list (take l levels) + n ≤ sum_list levels.
Proof.
  revert l. induction levels as [|x levels IH]; intros l H; [done|].
  destruct l as [|l]; simpl in *.
  - injection H as ->. lia.
  - apply IH in H. lia.
Qed.

(** Every candidate is a position of the partition. *)
Lemma select_candidates_covered (topk : nat) (D : list (list Q)) num_gt levels
    cand ρ g b :
  select_candidates topk D num_gt levels = Ok cand →
  mget cand ρ g = Some b → b < sum_list levels.
Proof.
  unfold select_candidates. intros (per_level & Hsel & Hcat)%bind_Ok.
  destruct (select_levels_lookup _ _ _ _ _ _ Hsel) as [Hlen Hl].
  assert (Forall (λ T, shape T topk num_gt
                       ∧ ∀ r g b, mget T r g = Some b → b < sum_list levels)
                 per_level) as HTs.
  { apply Forall_lookup. intros l T HT.
    destruct (lookup_lt_is_Some_2 levels l) as [n Hn].
    { rewrite <- Hlen. by apply lookup_lt_Some in HT. }
    destruct (Hl l n Hn) as [Hk HT']. simpl in Hk, HT'.
    rewrite HT in HT'. injection HT' as ->.
    split.
    - apply shift_idxs_shape, tabulate_shape.
    - intros r g' b' Hb. rewrite mget_shift_idxs in Hb.
      destruct (mget _ r g') as [i|] eqn:Hi; [|done]. injection Hb as <-.
      pose proof (mget_lt _ _ _ _ _ _ (tabulate_shape _ _ _) Hi) as [Hr Hg].
      rewrite mget_tabulate in Hi by done. injection Hi as <-.
      pose proof (sum_list_take_lookup _ _ _ Hn) as Hsum.
      set (s := sum_list (take l levels)) in *.
      set (slice := drop s (take (s + n) D)) in *.
      assert (nth r (topk_smallest topk (column 0%Q g' slice)) 0 < length slice).
      { rewrite <- (length_column 0%Q g'). apply topk_smallest_lt with topk.
        eapply list_elem_of_lookup_2, topk_smallest_nth; [|done].
        by rewrite length_column. }
      unfold slice in *. rewrite length_slice in *. lia. }
  apply torch_cat_inv in Hcat as [Hne ->].
  intros Hb.
  assert (Forall (λ T, shape T topk num_gt) per_level) as HTs'.
  { eapply Forall_impl; [exact HTs|]. by intros ? [? _]. }
  destruct (decide (topk = 0)) as [Hz|Hz].
  { assert (shape (concat per_level) (length per_level * topk) num_gt) as Hs
      by by apply concat_matrices_shape.
    apply (mget_lt _ _ _ _ _ _ Hs) in Hb as [Hb _]. rewrite Hz in Hb. lia. }
  assert (0 < topk) as Hpos by lia.
  destruct (mget_concat_matrices _ _ _ _ _ _ HTs' Hpos Hb) as (T' & HT' & Hb').
  pose proof (Forall_lookup_1 _ _ _ _ HTs HT') as [_ H]. simpl in H. eauto.
Qed.

(** [gather] fails only by an index out of range. *)
Lemma gather_Raise {A} (l : list A) (idx : list nat) (e : exn) :
  gather l idx = Raise e → e = IndexError.
Proof.
  unfold gather. induction idx as [|i idx IH]; simpl; [done|].
  destruct (index l i) as [x|e'] eqn:Hi; simpl.
  - destruct (mapM (index l) idx) as [k|e'']; simpl; [done|].
    intros [= <-]. by apply IH.
  - intros [= <-]. unfold index in Hi. destruct (l !! i); congruence.
Qed.

Lemma gather_lt {A} (l : list A) (idx : list nat) (v : list A) :
  gather l idx = Ok v → Forall (λ i, i < length l) idx.
Proof.
  intros H%gather_Ok. induction H as [|i x idx v Hx _ IH]; constructor; [|done].
  by apply lookup_lt_Some in Hx.
Qed.

(** The labels are assigned when every positive index has a label, and the
    lookup of a missing label raises [IndexError]. *)
Lemma assigned_labels_Raise (assigned : list nat) (gl : list Z) :
  ¬ Forall (λ a, a ≤ length gl) assigned →
  assigned_labels_of assigned gl = Raise IndexError.
Proof.
  intros Hnot. unfold assigned_labels_of.
  destruct (decide _) as [Hpos|Hpos].
  - assert (Forall (λ b, b < length assigned) (nonzero_pos assigned)) as Hlt.
    { apply Forall_forall. intros b (a & Ha & _)%nonzero_pos_elem.
      by apply lookup_lt_Some in Ha. }
    destruct (gather_total assigned (nonzero_pos assigned) Hlt) as [a' Ha'].
    rewrite Ha'. simpl.
    destruct (gather gl ((λ i, i - 1) <$> a')) as [vals|e] eqn:Hvals; simpl.
    + exfalso. apply Hnot. apply Forall_lookup. intros b a Hb.
      destruct a as [|g]; [lia|].
      assert (b ∈ nonzero_pos assigned) as Hin.
      { apply nonzero_pos_elem. exists (S g). split; [done|lia]. }
      apply list_elem_of_lookup_1 in Hin as [p Hp].
      apply gather_Ok in Ha'.
      destruct (Forall2_lookup_l _ _ _ _ _ Ha' Hp) as (a & Ha & Hba).
      assert (a = S g) as -> by congruence.
      apply gather_lt in Hvals.
      assert (((λ i, i - 1) <$> a') !! p = Some g) as Hg.
      { rewrite list_lookup_fmap, Ha. simpl. f_equal. lia. }
      pose proof (Forall_lookup_1 _ _ _ _ Hvals Hg) as Hlt'. simpl in Hlt'. lia.
    + f_equal. by eapply gather_Raise.
  - exfalso. apply Hnot. apply Forall_lookup. intros b a Hb.
    destruct a as [|g]; [lia|]. exfalso. apply Hpos.
    assert (b ∈ nonzero_pos assigned) as Hin.
    { apply nonzero_pos_elem. exists (S g). split; [done|lia]. }
    destruct (nonzero_pos assigned); [by apply elem_of_nil in Hin|simpl; lia].
Qed.

Section labels.

Variable bbox_overlaps : bbox → bbox → Q.
Variable sqrt : Q → Q.
Variable topk : nat.
Variable bboxes : list bbox.
Variable num_level_bboxes : list nat.
Variable gt_bboxes : list bbox.

(** The label branch is the last step of [assign]. *)
Lemma assign_with_labels (res : AssignResult) (gl : list Z) :
  assign bbox_overlaps sqrt topk bboxes num_level_bboxes gt_bboxes None
  = Ok res →
  assign bbox_overlaps sqrt topk bboxes num_level_bboxes gt_bboxes (Some gl)
  = L ← assigned_labels_of (gt_inds res) gl;
    Ok (mkAssignResult (num_gts res) (gt_inds res) (max_overlaps res) (Some L)).
Proof.
  intros (Hb & Hg & t & Ht & ->)%assign_inv. simpl.
  destruct Ht as (H1 & H2 & H3 & H4 & H5 & H6 & H7 & H8 & H9 & H10).
  unfold assign. rewrite decide_False by lia.
  rewrite H1. simpl. rewrite H2. simpl.
  unfold r_flat in *. rewrite H3. simpl. rewrite H4. simpl.
  unfold r_is_pos, r_thr in *. rewrite H5. simpl. rewrite H6. simpl.
  rewrite H7. simpl. rewrite H8. simpl. rewrite H9. simpl.
  by destruct (assigned_labels_of _ gl).
Qed.

Lemma assign_without_labels (res : AssignResult) (gl : list Z) :
  assign bbox_overlaps sqrt topk bboxes num_level_bboxes gt_bboxes (Some gl)
  = Ok res →
  assign bbox_overlaps sqrt topk bboxes num_level_bboxes gt_bboxes None
  = Ok (mkAssignResult (num_gts res) (gt_inds res) (max_overlaps res) None).
Proof.
  intros (Hb & Hg & t & Ht & ->)%assign_inv. simpl.
  destruct Ht as (H1 & H2 & H3 & H4 & H5 & H6 & H7 & H8 & H9 & H10).
  unfold assign. rewrite decide_False by lia.
  rewrite H1. simpl. rewrite H2. simpl.
  unfold r_flat in *. rewrite H3. simpl. rewrite H4. simpl.
  unfold r_is_pos, r_thr in *. rewrite H5. simpl. rewrite H6. simpl.
  rewrite H7. simpl. rewrite H8. simpl. by rewrite H9.
Qed.

End labels.

Lemma assign_qualifying_candidate_witness :
  assign iou sqrt3 2 example_bboxes example_levels example_gts example_labels
  = Ok example_result
  ∧ ∃ t,
      is_run iou sqrt3 2 example_bboxes example_levels example_gts
             example_labels t
      ∧ ∀ ρ g b bx gt thr,
          mget (r_cand t) ρ g = Some b →
          example_bboxes !! b = Some bx → example_gts !! g = Some gt →
          mean_plus_std sqrt3 (column 0%Q g (r_co t)) = Some thr →
          (thr <= iou bx gt)%Q →
          (1 # 100 < center_x bx - x1 gt)%Q →
          (1 # 100 < center_y bx - y1 gt)%Q →
          (1 # 100 < x2 gt - center_x bx)%Q →
          (1 # 100 < y2 gt - center_y bx)%Q →
          (- INF < iou bx gt)%Q →
          ∃ g' gt', gt_inds example_result !! b = Some (S g')
                    ∧ example_gts !! g' = Some gt'
                    ∧ (iou bx gt <= iou bx gt')%Q.
Proof.
  assert (assign iou sqrt3 2 example_bboxes example_levels example_gts
                 example_labels = Ok example_result) as H
    by (vm_compute; reflexivity).
  split; [exact H|].
  exact (assign_qualifying_candidate iou sqrt3 2 example_bboxes example_levels
           example_gts example_labels example_result H).
Defined.

(** X3.  With a single candidate per ground truth (one pyramid level and
    [topk = 1]) the standard deviation of the candidate overlaps is NaN,
    no candidate reaches the threshold, and [assign] maps every box to
    background. *)
Theorem assign_single_candidate_background
    (bbox_overlaps : bbox → bbox → Q) (sqrt : Q → Q) (topk : nat)
    (bboxes : list bbox) (num_level_bboxes : list nat) (gt_bboxes : list bbox)
    (gt_labels : option (list Z)) (res : AssignResult) :
  length num_level_bboxes * topk = 1 →
  assign bbox_overlaps sqrt topk bboxes num_level_bboxes gt_bboxes gt_labels
  = Ok res →
  gt_inds res = replicate (length bboxes) 0.
Proof.
  intros Hone (_ & _ & t & Ht & ->)%assign_inv. simpl.
  apply list_eq_same_length with (length bboxes).
  { by rewrite length_replicate. }
  { unfold assigned_of. rewrite length_fmap. by eapply run_mx_length. }
  intros b a z Hb Ha Hz. apply lookup_replicate in Hz as [-> _].
  destruct a as [|g]; [done|]. exfalso.
  destruct (run_positive _ _ _ _ _ _ _ _ _ _ Ht Ha)
    as (ρ & bx & gt & thr & _ & Hgt & _ & _ & Hthr & _).
  rewrite run_thr_lookup in Hthr by (by apply lookup_lt_Some in Hgt).
  destruct (run_shapes _ _ _ _ _ _ _ _ Ht) as (_ & [Hlen _] & _).
  rewrite Hone in Hlen.
  pose proof (length_column 0%Q g (r_co t)) as Hcol. rewrite Hlen in Hcol.
  unfold mean_plus_std in Hthr.
  destruct (column 0%Q g (r_co t)) as [|v [|]]; done.
Qed.

Lemma assign_single_candidate_background_witness :
  length [1] * 1 = 1
  ∧ assign iou sqrt3 1 [box 1 1 11 11] [1] [box 1 1 11 11] None
    = Ok (mkAssignResult 1 [0] [(- INF)%Q] None)
  ∧ gt_inds (mkAssignResult 1 [0] [(- INF)%Q] None) = replicate 1 0.
Proof.
  assert (length [1] * 1 = 1) as H1 by reflexivity.
  assert (assign iou sqrt3 1 [box 1 1 11 11] [1] [box 1 1 11 11] None
          = Ok (mkAssignResult 1 [0] [(- INF)%Q] None)) as H2
    by (vm_compute; reflexivity).
  split; [exact H1|]. split; [exact H2|].
  exact (assign_single_candidate_background iou sqrt3 1 [box 1 1 11 11] [1]
           [box 1 1 11 11] None _ H1 H2).
Defined.

(** X4.  A box whose position lies beyond the boxes counted by
    [num_level_bboxes] is never a candidate: [assign] maps it to
    background, whatever its overlap with the ground truths. *)
Theorem assign_uncovered_background
    (bbox_overlaps : bbox → bbox → Q) (sqrt : Q → Q) (topk : nat)
    (bboxes : list bbox) (num_level_bboxes : list nat) (gt_bboxes : list bbox)
    (gt_labels : option (list Z)) (res : AssignResult) :
  assign bbox_overlaps sqrt topk bboxes num_level_bboxes gt_bboxes gt_labels
  = Ok res →
  ∀ b, sum_list num_level_bboxes ≤ b → b < length bboxes →
       gt_inds res !! b = Some 0.
Proof.
  intros (_ & _ & t & Ht & ->)%assign_inv b Hsum Hb. simpl.
  destruct (lookup_lt_is_Some_2 (assigned_of (r_mx t)) b) as [a Ha].
  { unfold assigned_of. rewrite length_fmap.
    by rewrite (run_mx_length _ _ _ _ _ _ _ _ Ht). }
  rewrite Ha. f_equal.
  destruct a as [|g]; [done|]. exfalso.
  destruct (run_positive _ _ _ _ _ _ _ _ _ _ Ht Ha)
    as (ρ & bx & gt & thr & _ & _ & Hc & _).
  destruct Ht as (H1 & _).
  pose proof (select_candidates_covered _ _ _ _ _ _ _ _ H1 Hc). lia.
Qed.

Lemma assign_uncovered_background_witness :
  assign iou sqrt3 2 example_bboxes [2; 2] example_gts None
  = Ok (mkAssignResult 2 [0; 0; 2; 0; 0; 0]
          [(- INF)%Q; (- INF)%Q; 25 # 36; (- INF)%Q; (- INF)%Q; (- INF)%Q]
          None)
  ∧ example_bboxes !! 4 = example_gts !! 0
  ∧ ∀ b, 4 ≤ b → b < 6 → [0; 0; 2; 0; 0; 0] !! b = Some 0.
Proof.
  assert (assign iou sqrt3 2 example_bboxes [2; 2] example_gts None
          = Ok (mkAssignResult 2 [0; 0; 2; 0; 0; 0]
                  [(- INF)%Q; (- INF)%Q; 25 # 36; (- INF)%Q; (- INF)%Q;
                   (- INF)%Q] None)) as H
    by (vm_compute; reflexivity).
  split; [exact H|]. split; [reflexivity|].
  exact (assign_uncovered_background iou sqrt3 2 example_bboxes [2; 2]
           example_gts None _ H).
Defined.

(** X5.  The labels do not influence the assignment: with [gt_labels]
    supplied, [assign] returns the indices and overlaps it returns without
    labels when every assigned index has a label, and raises [IndexError]
    when a box is assigned to a ground truth that has none. *)
Theorem assign_labels_independent
    (bbox_overlaps : bbox → bbox → Q) (sqrt : Q → Q) (topk : nat)
    (bboxes : list bbox) (num_level_bboxes : list nat) (gt_bboxes : list bbox)
    (gl : list Z) (res : AssignResult) :
  assign bbox_overlaps sqrt topk bboxes num_level_bboxes gt_bboxes None
  = Ok res →
  (Forall (λ a, a ≤ length gl) (gt_inds res) →
   ∃ L, assign bbox_overlaps sqrt topk bboxes num_level_bboxes gt_bboxes
               (Some gl)
        = Ok (mkAssignResult (num_gts res) (gt_inds res) (max_overlaps res)
                (Some L)))
  ∧ (¬ Forall (λ a, a ≤ length gl) (gt_inds res) →
     assign bbox_overlaps sqrt topk bboxes num_level_bboxes gt_bboxes (Some gl)
     = Raise IndexError).
Proof.
  intros H. rewrite (assign_with_labels _ _ _ _ _ _ _ gl H). split.
  - intros Hle. destruct (assigned_labels_total _ _ Hle) as [L ->].
    by exists L.
  - intros Hnot. by rewrite (assigned_labels_Raise _ _ Hnot).
Qed.

Lemma assign_labels_independent_witness :
  assign iou sqrt3 2 example_bboxes example_levels example_gts None
  = Ok (mkAssignResult 2 [0; 0; 0; 0; 1; 0]
          [(- INF)%Q; (- INF)%Q; (- INF)%Q; (- INF)%Q; 1%Q; (- INF)%Q] None)
  ∧ (∃ L, assign iou sqrt3 2 example_bboxes example_levels example_gts
                 (Some [7%Z])
          = Ok (mkAssignResult 2 [0; 0; 0; 0; 1; 0]
                  [(- INF)%Q; (- INF)%Q; (- INF)%Q; (- INF)%Q; 1%Q; (- INF)%Q]
                  (Some L)))
  ∧ assign iou sqrt3 2 example_bboxes example_levels example_gts (Some [])
    = Raise IndexError.
Proof.
  assert (assign iou sqrt3 2 example_bboxes example_levels example_gts None
          = Ok (mkAssignResult 2 [0; 0; 0; 0; 1; 0]
                  [(- INF)%Q; (- INF)%Q; (- INF)%Q; (- INF)%Q; 1%Q; (- INF)%Q]
                  None)) as H
    by (vm_compute; reflexivity).
  split; [exact H|]. split.
  - apply (assign_labels_independent iou sqrt3 2 example_bboxes example_levels
             example_gts [7%Z] _ H).
    simpl. repeat constructor.
  - apply (assign_labels_independent iou sqrt3 2 example_bboxes example_levels
             example_gts [] _ H).
    simpl. intros HF. apply Forall_lookup_1 with (i := 4) (x := 1) in HF.
    + simpl in HF. lia.
    + reflexivity.
Defined.

End ATSSMore.

(** ** SemiMixUpDetector: the checkpoint keys, [mixup] and [loss] *)

Module SemiMixUpMore.

Import SemiMixUp SemiMixUpFacts.

Lemma names_model_teacher (k : string) : names_model ("teacher." +:+ k) = true.
Proof. unfold names_model. apply orb_true_iff. right. reflexivity. Qed.

Lemma names_model_student (k : string) : names_model ("student." +:+ k) = true.
Proof. unfold names_model. apply orb_true_iff. left. reflexivity. Qed.

Lemma teacher_student_ne (k k' : string) : "teacher." +:+ k ≠ "student." +:+ k'.
Proof. rewrite !app_cons. discriminate. Qed.

Section dicts.

Context {V : Type}.
Implicit Types d : gmap string V.

Lemma prefixed_entries_Some (prefix : string) d (keys : list string) :
  Forall (λ k, is_Some (d !! k)) keys →
  ∃ es, prefixed_entries prefix d keys = Some es
        ∧ es.*1 = String.app prefix <$> keys
        ∧ ∀ k v, (prefix +:+ k, v) ∈ es ↔ k ∈ keys ∧ d !! k = Some v.
Proof.
  unfold prefixed_entries. induction 1 as [|k keys [v Hv] _ (es & Hes & Hfst & Hin)].
  - exists []. split; [done|]. split; [done|]. intros k v. split.
    + by intros ?%elem_of_nil.
    + by intros [?%elem_of_nil _].
  - exists ((prefix +:+ k, v) :: es). split.
    { cbn [mapM]. rewrite Hv. simpl. by rewrite Hes. }
    split; [cbn [fmap list_fmap fst]; f_equal; exact Hfst|].
    intros k' v'. rewrite !elem_of_cons, Hin. split.
    + intros [[= E ->]|[Hk' Hv']].
      * apply (inj (String.app prefix)) in E as ->. eauto.
      * eauto.
    + intros [[->|Hk'] Hv']; [left|right; done].
      f_equal. congruence.
Qed.

Lemma dict_update_cons d (p : string * V) (es : list (string * V)) :
  dict_update d (p :: es) = dict_update (<[p.1 := p.2]> d) es.
Proof. reflexivity. Qed.

Lemma dict_update_notin d (es : list (string * V)) (key : string) :
  key ∉ es.*1 → dict_update d es !! key = d !! key.
Proof.
  revert d. induction es as [|[k v] es IH]; intros d Hn; [done|].
  rewrite dict_update_cons. cbn [fmap list_fmap fst] in Hn.
  apply not_elem_of_cons in Hn as [Hne Hn].
  rewrite IH by done. by apply lookup_insert_ne.
Qed.

Lemma dict_update_in d (es : list (string * V)) (key : string) (v : V) :
  NoDup es.*1 → (key, v) ∈ es → dict_update d es !! key = Some v.
Proof.
  revert d. induction es as [|[k w] es IH]; intros d Hnd Hin.
  - by apply elem_of_nil in Hin.
  - rewrite dict_update_cons. cbn [fmap list_fmap fst] in Hnd.
    apply NoDup_cons in Hnd as [Hk Hnd].
    apply elem_of_cons in Hin as [[= -> ->]|Hin].
    + rewrite (dict_update_notin _ _ _ Hk). by apply lookup_insert_eq.
    + by apply IH.
Qed.

Lemma pop_all_Some d (keys : list string) :
  NoDup keys → Forall (λ k, is_Some (d !! k)) keys →
  ∃ d', pop_all d keys = Some d'
        ∧ ∀ key, d' !! key = if decide (key ∈ keys) then None else d !! key.
Proof.
  revert d. induction keys as [|k keys IH]; intros d Hnd Hall.
  - exists d. split; [done|]. intros key. rewrite decide_False; [done|].
    apply not_elem_of_nil.
  - apply NoDup_cons in Hnd as [Hk Hnd].
    apply Forall_cons in Hall as [[v Hv] Hall].
    destruct (IH (delete k d) Hnd) as (d' & Hd' & Hlook).
    { apply Forall_forall. intros k' Hk'.
      rewrite lookup_delete_ne by (intros ->; done).
      by apply (proj1 (Forall_forall _ _) Hall). }
    exists d'. split; [simpl; by rewrite Hv|].
    intros key. rewrite Hlook.
    destruct (decide (key = k)) as [->|Hne].
    + rewrite (decide_False (P := k ∈ keys)) by done.
      rewrite (decide_True (P := k ∈ k :: keys)) by (apply elem_of_cons; by left).
      by rewrite lookup_delete_eq.
    + rewrite lookup_delete_ne by done.
      destruct (decide (key ∈ keys)) as [Hin|Hnin].
      * by rewrite decide_True by (apply elem_of_cons; by right).
      * rewrite decide_False; [done|].
        intros [?|?]%elem_of_cons; done.
Qed.

Lemma keys_elem d (key : string) :
  key ∈ (map_to_list d).*1 ↔ is_Some (d !! key).
Proof.
  rewrite list_elem_of_fmap. split.
  - intros ([k v] & -> & Hin). apply elem_of_map_to_list in Hin. by exists v.
  - intros [v Hv]. exists (key, v). split; [done|]. by apply elem_of_map_to_list.
Qed.

Lemma existsb_names_model d :
  existsb names_model (map_to_list d).*1 = true
  ↔ ∃ key, is_Some (d !! key) ∧ names_model key = true.
Proof.
  rewrite existsb_exists. split.
  - intros (key & Hin%list_elem_of_In%keys_elem & Hn). eauto.
  - intros (key & Hin%keys_elem%list_elem_of_In & Hn). eauto.
Qed.

(** The rewrite of a state dict none of whose keys names a model. *)
Lemma load_plain d :
  (∀ key, is_Some (d !! key) → names_model key = false) →
  ∃ d', _load_from_state_dict d = Some d'
        ∧ (∀ k, d' !! ("teacher." +:+ k) = d !! k)
        ∧ (∀ k, d' !! ("student." +:+ k) = d !! k)
        ∧ (∀ key, is_Some (d' !! key) →
             ∃ k, is_Some (d !! k)
                  ∧ (key = "teacher." +:+ k ∨ key = "student." +:+ k)).
Proof.
  intros Hplain. unfold _load_from_state_dict.
  set (keys := (map_to_list d).*1).
  assert (existsb names_model keys = false) as ->.
  { apply not_true_is_false. intros (key & Hk & Hn)%existsb_names_model.
    rewrite (Hplain key Hk) in Hn. done. }
  assert (NoDup keys) as Hnd by apply NoDup_fst_map_to_list.
  assert (∀ k, k ∈ keys ↔ is_Some (d !! k)) as Hkeys by apply keys_elem.
  destruct (prefixed_entries_Some "teacher." d keys) as (t & -> & Htk & Ht).
  { apply Forall_forall. intros k. apply Hkeys. }
  simpl. set (d1 := dict_update d t).
  assert (∀ k, k ∈ keys → d1 !! k = d !! k) as Hd1.
  { intros k Hk. apply dict_update_notin. rewrite Htk.
    intros (k' & -> & _)%list_elem_of_fmap.
    apply Hkeys, Hplain in Hk. by rewrite names_model_teacher in Hk. }
  destruct (prefixed_entries_Some "student." d1 keys) as (s & -> & Hsk & Hs).
  { apply Forall_forall. intros k Hk. rewrite Hd1 by done. by apply Hkeys. }
  simpl. set (d2 := dict_update d1 s).
  assert (NoDup t.*1) as Hndt.
  { rewrite Htk. apply (NoDup_fmap_2 _), Hnd. }
  assert (NoDup s.*1) as Hnds.
  { rewrite Hsk. apply (NoDup_fmap_2 _), Hnd. }
  assert (∀ k, d1 !! ("teacher." +:+ k) = d !! k) as Hd1t.
  { intros k. destruct (d !! k) as [v|] eqn:Hv.
    - apply dict_update_in; [done|]. apply Ht. split; [|done].
      apply Hkeys. by rewrite Hv.
    - unfold d1. rewrite dict_update_notin.
      + destruct (d !! ("teacher." +:+ k)) as [w|] eqn:Hw; [|done].
        assert (is_Some (d !! ("teacher." +:+ k))) as Hsome by by rewrite Hw.
        apply Hplain in Hsome. by rewrite names_model_teacher in Hsome.
      + rewrite Htk. intros (k' & E & Hk')%list_elem_of_fmap.
        apply (inj (String.app "teacher.")) in E as <-.
        apply Hkeys in Hk'. rewrite Hv in Hk'. by destruct Hk'. }
  assert (∀ k, d2 !! ("teacher." +:+ k) = d !! k) as Hd2t.
  { intros k. unfold d2. rewrite dict_update_notin; [apply Hd1t|].
    rewrite Hsk. intros (k' & E & _)%list_elem_of_fmap.
    by apply teacher_student_ne in E. }
  assert (∀ k, d2 !! ("student." +:+ k) = d !! k) as Hd2s.
  { intros k. destruct (d !! k) as [v|] eqn:Hv.
    - apply dict_update_in; [done|]. apply Hs.
      assert (k ∈ keys) as Hk by (apply Hkeys; by rewrite Hv).
      split; [done|]. by rewrite Hd1.
    - unfold d2. rewrite dict_update_notin.
      + unfold d1. rewrite dict_update_notin.
        * destruct (d !! ("student." +:+ k)) as [w|] eqn:Hw; [|done].
          assert (is_Some (d !! ("student." +:+ k))) as Hsome by by rewrite Hw.
          apply Hplain in Hsome. by rewrite names_model_student in Hsome.
        * rewrite Htk. intros (k' & E & _)%list_elem_of_fmap.
          symmetry in E. by apply teacher_student_ne in E.
      + rewrite Hsk. intros (k' & E & Hk')%list_elem_of_fmap.
        apply (inj (String.app "student.")) in E as <-.
        apply Hkeys in Hk'. rewrite Hv in Hk'. by destruct Hk'. }
  assert (∀ key, key ∉ keys → key ∉ t.*1 → key ∉ s.*1 → d2 !! key = None)
    as Hd2n.
  { intros key Hk Hkt Hks. unfold d2, d1. rewrite !dict_update_notin by done.
    destruct (d !! key) as [v|] eqn:Hv; [|done].
    exfalso. apply Hk, Hkeys. by rewrite Hv. }
  destruct (pop_all_Some d2 keys Hnd) as (d' & -> & Hd').
  { apply Forall_forall. intros k Hk. unfold d2.
    rewrite dict_update_notin.
    - rewrite Hd1 by done. by apply Hkeys.
    - rewrite Hsk. intros (k' & -> & _)%list_elem_of_fmap.
      apply Hkeys, Hplain in Hk. by rewrite names_model_student in Hk. }
  assert (∀ k, "teacher." +:+ k ∉ keys) as Hnt.
  { intros k Hk. apply Hkeys, Hplain in Hk.
    by rewrite names_model_teacher in Hk. }
  assert (∀ k, "student." +:+ k ∉ keys) as Hns.
  { intros k Hk. apply Hkeys, Hplain in Hk.
    by rewrite names_model_student in Hk. }
  exists d'. split; [done|]. split; [|split].
  - intros k. rewrite Hd', decide_False by apply Hnt. apply Hd2t.
  - intros k. rewrite Hd', decide_False by apply Hns. apply Hd2s.
  - intros key Hsome. rewrite Hd' in Hsome.
    destruct (decide (key ∈ keys)) as [|Hk]; [by destruct Hsome|].
    destruct (decide (key ∈ t.*1)) as [Hin|Hkt].
    { rewrite Htk in Hin. apply list_elem_of_fmap in Hin as (k & -> & Hin).
      exists k. split; [by apply Hkeys|by left]. }
    destruct (decide (key ∈ s.*1)) as [Hin|Hks].
    { rewrite Hsk in Hin. apply list_elem_of_fmap in Hin as (k & -> & Hin).
      exists k. split; [by apply Hkeys|by right]. }
    rewrite Hd2n in Hsome by done. by destruct Hsome.
Qed.

End dicts.

(** X6.  A checkpoint none of whose keys contains 'student' or 'teacher'
    is loaded into both models: [_load_from_state_dict] never fails on
    it, the dict it hands on holds every entry once under 'teacher.' + key
    and once under 'student.' + key, and holds nothing else (the original
    keys are removed). *)
Theorem load_from_state_dict_prefixes {V} (state_dict : gmap string V) :
  (∀ key, is_Some (state_dict !! key) → names_model key = false) →
  ∃ loaded,
    _load_from_state_dict state_dict = Some loaded
    ∧ (∀ k, loaded !! ("teacher." +:+ k) = state_dict !! k)
    ∧ (∀ k, loaded !! ("student." +:+ k) = state_dict !! k)
    ∧ (∀ key, is_Some (loaded !! key) →
         ∃ k, is_Some (state_dict !! k)
              ∧ (key = "teacher." +:+ k ∨ key = "student." +:+ k)).
Proof. apply load_plain. Qed.

Lemma load_from_state_dict_prefixes_witness :
  (∀ key, is_Some (example_state_dict !! key) → names_model key = false)
  ∧ ∃ loaded,
      _load_from_state_dict example_state_dict = Some loaded
      ∧ loaded !! "teacher.head.bias" = Some 2%Z
      ∧ loaded !! "student.head.bias" = Some 2%Z
      ∧ loaded !! "head.bias" = None.
Proof.
  assert (∀ key, is_Some (example_state_dict !! key) → names_model key = false)
    as H.
  { intros key [v Hv]. unfold example_state_dict in Hv.
    apply lookup_insert_Some in Hv as [[<- _]|[_ Hv]]; [reflexivity|].
    apply lookup_insert_Some in Hv as [[<- _]|[_ Hv]]; [reflexivity|].
    by rewrite lookup_empty in Hv. }
  split; [exact H|].
  destruct (load_from_state_dict_prefixes example_state_dict H)
    as (loaded & Hl & Ht & Hs & Hn).
  exists loaded. split; [exact Hl|]. split; [exact (Ht "head.bias")|].
  split; [exact (Hs "head.bias")|].
  destruct (loaded !! "head.bias") as [v|] eqn:Hv; [|reflexivity].
  destruct (Hn "head.bias") as (k & _ & [E|E]); [by rewrite Hv| |];
    rewrite app_cons in E; discriminate.
Defined.

(** X7.  [_load_from_state_dict] never fails, leaves a state dict with a
    key that contains 'student' or 'teacher' as it is, and is idempotent:
    the dict it hands on is handed on unchanged when loaded again. *)
Theorem load_from_state_dict_idempotent {V} (state_dict : gmap string V) :
  ∃ loaded,
    _load_from_state_dict state_dict = Some loaded
    ∧ _load_from_state_dict loaded = Some loaded
    ∧ ((∃ key, is_Some (state_dict !! key) ∧ names_model key = true) →
       loaded = state_dict).
Proof.
  destruct (existsb names_model (map_to_list state_dict).*1) eqn:Hex.
  - exists state_dict. unfold _load_from_state_dict. by rewrite Hex.
  - assert (∀ key, is_Some (state_dict !! key) → names_model key = false)
      as Hplain.
    { intros key Hk. apply not_true_is_false. intros Hn.
      assert (existsb names_model (map_to_list state_dict).*1 = true) as E
        by (apply existsb_names_model; eauto).
      by rewrite Hex in E. }
    destruct (load_plain state_dict Hplain) as (d' & Hd' & Ht & Hs & Hdom).
    exists d'. split; [done|]. split.
    + destruct (existsb names_model (map_to_list d').*1) eqn:Hex'.
      { unfold _load_from_state_dict. by rewrite Hex'. }
      assert (d' = ∅) as ->.
      { apply map_empty. intros key.
        destruct (d' !! key) as [v|] eqn:Hv; [|done]. exfalso.
        assert (existsb names_model (map_to_list d').*1 = true) as E.
        { apply existsb_names_model. exists key. split; [by rewrite Hv|].
          destruct (Hdom key) as (k & _ & [->| ->]); [by rewrite Hv|..].
          - apply names_model_teacher.
          - apply names_model_student. }
        by rewrite Hex' in E. }
      reflexivity.
    + intros (key & Hk & Hn). by rewrite (Hplain key Hk) in Hn.
Qed.

(** *** [mixup] *)

Lemma zip_app_same {A B} (xs xs' : list A) (ys ys' : list B) :
  length xs = length ys → zip (xs ++ xs') (ys ++ ys') = zip xs ys ++ zip xs' ys'.
Proof.
  revert ys. induction xs as [|x xs IH]; intros [|y ys] H; try done.
  simpl. f_equal. apply IH. by injection H.
Qed.

Lemma sum_list_fmap_add {A} (f g : A → nat) (c : nat) (l : list A) :
  (∀ x, f x = g x + c) →
  sum_list (f <$> l) = sum_list (g <$> l) + length l * c.
Proof.
  intros H. induction l as [|x l IH]; [done|].
  cbn [fmap list_fmap sum_list length]. fold (fmap f l) (fmap g l).
  rewrite IH, H, Nat.mul_succ_l. unfold id. lia.
Qed.

Section mixup_facts.

Context {Inputs Meta : Type}.

Variable student_loss : Inputs → list (DataSample Meta) → gmap string loss_value.
Variable cfg : SemiTrainCfg.
Variable num_images : Inputs → nat.
Variable random_choice : nat → nat.
Variable mix_inputs : Inputs → nat → Inputs → result Inputs.

Abbreviation mixup := (mixup num_images random_choice mix_inputs).

Lemma mixup_inv sup_inputs (sup_samples : list (DataSample Meta)) unsup_inputs
    unsup_samples mixed out :
  mixup sup_inputs sup_samples unsup_inputs unsup_samples = Ok (mixed, out) →
  0 < num_images sup_inputs
  ∧ ∃ s, sup_samples !! random_choice (num_images sup_inputs) = Some s
         ∧ mix_inputs sup_inputs (random_choice (num_images sup_inputs))
                      unsup_inputs = Ok mixed
         ∧ out = (λ ds : DataSample Meta,
                    mkSample (cat_instances (gt_instances ds) (gt_instances s))
                             (meta ds)) <$> unsup_samples.
Proof.
  unfold SemiMixUp.mixup. destruct (decide _) as [|Hn]; [done|].
  intros (s & Hs%index_Ok & (m & Hm & [= <- <-])%bind_Ok)%bind_Ok.
  split; [lia|]. by exists s.
Qed.

End mixup_facts.

(** X8.  [mixup] gives every unlabelled sample, after its own instances,
    the instances of the one labelled sample it has drawn: the data
    samples keep their number, order and meta information, and the labels
    stay aligned with the boxes. *)
Theorem mixup_appends_sup_instances {Inputs Meta : Type}
    (num_images : Inputs → nat) (random_choice : nat → nat)
    (mix_inputs : Inputs → nat → Inputs → result Inputs)
    (sup_inputs : Inputs) (sup_samples : list (DataSample Meta))
    (unsup_inputs : Inputs) (unsup_samples : list (DataSample Meta))
    (mixed : Inputs) (out : list (DataSample Meta)) :
  Forall (λ ds, instances_well_formed (gt_instances ds)) unsup_samples →
  mixup num_images random_choice mix_inputs sup_inputs sup_samples unsup_inputs
        unsup_samples = Ok (mixed, out) →
  ∃ s, sup_samples !! random_choice (num_images sup_inputs) = Some s
       ∧ Forall2 (λ ds ds',
                    meta ds' = meta ds
                    ∧ zip (bboxes (gt_instances ds')) (labels (gt_instances ds'))
                      = zip (bboxes (gt_instances ds)) (labels (gt_instances ds))
                        ++ zip (bboxes (gt_instances s))
                               (labels (gt_instances s))
                    ∧ (instances_well_formed (gt_instances s) →
                       instances_well_formed (gt_instances ds')))
                 unsup_samples out.
Proof.
  intros Hwf (_ & s & Hs & _ & ->)%mixup_inv. exists s. split; [done|].
  apply Forall2_fmap_r, Forall_Forall2_diag.
  eapply Forall_impl; [exact Hwf|]. intros ds Hds. simpl.
  unfold instances_well_formed in *. split; [done|]. split.
  - by apply zip_app_same.
  - intros Hs'. simpl. rewrite !length_app. lia.
Qed.

Lemma mixup_appends_sup_instances_witness :
  Forall (λ ds : DataSample unit, instances_well_formed (gt_instances ds))
         example_batch
  ∧ ∃ s, example_sup_batch !! 0 = Some s
         ∧ Forall2 (λ ds ds' : DataSample unit,
                      meta ds' = meta ds
                      ∧ zip (bboxes (gt_instances ds')) (labels (gt_instances ds'))
                        = zip (bboxes (gt_instances ds))
                              (labels (gt_instances ds))
                          ++ zip (bboxes (gt_instances s))
                                 (labels (gt_instances s))
                      ∧ (instances_well_formed (gt_instances s) →
                         instances_well_formed (gt_instances ds')))
                   example_batch
                   [mkSample
                      (mkInstances
                         [BBox 0 0 10 10; BBox 5 5 (11 # 2) (11 # 2);
                          BBox 0 0 10 10]
                         [3%Z; 8%Z; 3%Z]) tt].
Proof.
  assert (Forall (λ ds : DataSample unit,
                    instances_well_formed (gt_instances ds)) example_batch)
    as H1 by (repeat constructor).
  split; [exact H1|].
  apply (mixup_appends_sup_instances (λ _ : unit, 1) (λ _, 0)
           (λ _ _ _, Ok tt) tt example_sup_batch tt example_batch tt _ H1).
  reflexivity.
Defined.

(** X9.  [pseudo_loss] on the result of [mixup] counts the appended
    labelled instances as pseudo instances: the unsupervised weight is the
    configured one as soon as the batch is not empty and the drawn
    labelled sample has a box, also when the teacher has produced no
    pseudo label at all; it is 0 only when there is no instance of either
    kind. *)
Theorem mixup_pseudo_loss_weight {Inputs Meta : Type}
    (student_loss : Inputs → list (DataSample Meta) → gmap string loss_value)
    (cfg : SemiTrainCfg)
    (num_images : Inputs → nat) (random_choice : nat → nat)
    (mix_inputs : Inputs → nat → Inputs → result Inputs)
    (sup_inputs : Inputs) (sup_samples : list (DataSample Meta))
    (unsup_inputs : Inputs) (unsup_samples : list (DataSample Meta))
    (mixed : Inputs) (out : list (DataSample Meta)) (s : DataSample Meta) :
  mixup num_images random_choice mix_inputs sup_inputs sup_samples unsup_inputs
        unsup_samples = Ok (mixed, out) →
  sup_samples !! random_choice (num_images sup_inputs) = Some s →
  let pseudo_num :=
    sum_list ((λ ds, length (bboxes (gt_instances ds))) <$> unsup_samples) in
  let sup_num := length (bboxes (gt_instances s)) in
  pseudo_loss student_loss cfg mixed out
  = prefix_keys "unsup_"
      (weight (student_loss mixed out)
              (if decide (0 < pseudo_num + length unsup_samples * sup_num)
               then default 1%Q (unsup_weight cfg) else 0%Q))
  ∧ (unsup_samples ≠ [] → 0 < sup_num →
     pseudo_loss student_loss cfg mixed out
     = prefix_keys "unsup_"
         (weight (student_loss mixed out) (default 1%Q (unsup_weight cfg)))).
Proof.
  intros (_ & s' & Hs' & _ & Hout)%mixup_inv Hs pseudo_num sup_num.
  assert (s' = s) as -> by congruence.
  assert (sum_list ((λ ds, length (bboxes (gt_instances ds))) <$> out)
          = pseudo_num + length unsup_samples * sup_num) as Hnum.
  { rewrite Hout, <- list_fmap_compose.
    apply sum_list_fmap_add. intros ds. simpl. by rewrite length_app. }
  unfold pseudo_loss. rewrite Hnum. split; [done|].
  intros Hne Hpos. rewrite decide_True; [done|].
  destruct unsup_samples; [done|]. simpl. lia.
Qed.

Lemma mixup_pseudo_loss_weight_witness :
  mixup (λ _ : unit, 1) (λ _, 0) (λ _ _ _, Ok tt) tt example_sup_batch tt
        example_empty_batch
  = Ok (tt, [mkSample (mkInstances [BBox 0 0 10 10] [3%Z]) tt])
  ∧ example_sup_batch !! 0
    = Some (mkSample (mkInstances [BBox 0 0 10 10] [3%Z]) tt)
  ∧ sum_list ((λ ds : DataSample unit, length (bboxes (gt_instances ds)))
                <$> example_empty_batch) = 0
  ∧ pseudo_loss (λ _ _, example_losses) example_cfg tt
                [mkSample (mkInstances [BBox 0 0 10 10] [3%Z]) tt]
    = prefix_keys "unsup_" (weight example_losses 4%Q).
Proof.
  assert (mixup (λ _ : unit, 1) (λ _, 0) (λ _ _ _, Ok tt) tt example_sup_batch
                tt example_empty_batch
          = Ok (tt, [mkSample (mkInstances [BBox 0 0 10 10] [3%Z]) tt])) as H1
    by reflexivity.
  assert (example_sup_batch !! 0
          = Some (mkSample (mkInstances [BBox 0 0 10 10] [3%Z]) tt)) as H2
    by reflexivity.
  split; [exact H1|]. split; [exact H2|]. split; [reflexivity|].
  destruct (mixup_pseudo_loss_weight (λ _ _, example_losses) example_cfg
              _ _ _ _ _ _ _ _ _ _ H1 H2) as [_ H].
  apply H; [discriminate|simpl; lia].
Defined.

(** *** [loss] *)

Lemma sup_unsup_ne (k k' : string) : "sup_" +:+ k ≠ "unsup_" +:+ k'.
Proof. rewrite !app_cons. discriminate. Qed.

Lemma prefix_keys_lookup_Some (prefix : string) (d : gmap string loss_value)
    (key : string) (v : loss_value) :
  prefix_keys prefix d !! key = Some v →
  ∃ k, key = prefix +:+ k ∧ d !! k = Some v.
Proof. unfold prefix_keys. apply (lookup_kmap_Some (String.app prefix)). Qed.

Lemma prefix_keys_lookup_other (prefix : string) (d : gmap string loss_value)
    (key : string) :
  (∀ k, key ≠ prefix +:+ k) → prefix_keys prefix d !! key = None.
Proof.
  intros Hne. destruct (prefix_keys prefix d !! key) as [v|] eqn:Hv; [|done].
  apply prefix_keys_lookup_Some in Hv as (k & -> & _). by destruct (Hne k).
Qed.

(** X10.  The dictionary returned by [loss] is the disjoint union of the
    supervised and the unsupervised losses: under 'sup_' + name it holds
    the student's loss on the labelled batch weighted by [sup_weight],
    under 'unsup_' + name the pseudo loss on the batch produced by
    [mixup] from the filtered projected pseudo labels, neither overwrites
    the other, and there is no other key. *)
Theorem loss_entries {Inputs Meta : Type}
    (student_loss : Inputs → list (DataSample Meta) → gmap string loss_value)
    (teacher_predict : Inputs → list (DataSample Meta) → list PredInstances)
    (cfg : SemiTrainCfg) (bbox_project : list bbox → Meta → list bbox)
    (num_images : Inputs → nat) (random_choice : nat → nat)
    (mix_inputs : Inputs → nat → Inputs → result Inputs)
    (multi_batch_inputs : MultiBatch Inputs)
    (multi_batch_data_samples : MultiBatch (list (DataSample Meta)))
    (losses : gmap string loss_value) :
  loss student_loss teacher_predict cfg bbox_project num_images random_choice
       mix_inputs multi_batch_inputs multi_batch_data_samples = Ok losses →
  ∃ pseudo projected mixed out,
    update_pseudo_instances teacher_predict cfg
      (unsup_teacher multi_batch_inputs)
      (unsup_teacher multi_batch_data_samples) = Ok pseudo
    ∧ project_pseudo_instances cfg bbox_project pseudo
        (unsup_student multi_batch_data_samples) = Ok projected
    ∧ mixup num_images random_choice mix_inputs (sup multi_batch_inputs)
        (sup multi_batch_data_samples) (unsup_student multi_batch_inputs)
        projected = Ok (mixed, out)
    ∧ (∀ name,
         losses !! ("sup_" +:+ name)
         = weight (student_loss (sup multi_batch_inputs)
                                (sup multi_batch_data_samples))
                  (default 1%Q (sup_weight cfg)) !! name)
    ∧ (∀ name,
         losses !! ("unsup_" +:+ name)
         = pseudo_loss student_loss cfg mixed out !! ("unsup_" +:+ name))
    ∧ (∀ key, is_Some (losses !! key) →
         ∃ name, key = "sup_" +:+ name ∨ key = "unsup_" +:+ name).
Proof.
  unfold loss.
  intros (pseudo & Hp & (projected & Hpr & ([mixed out] & Hm & [= <-])%bind_Ok)
                          %bind_Ok)%bind_Ok.
  exists pseudo, projected, mixed, out. simpl.
  split; [done|]. split; [done|]. split; [done|].
  rewrite (right_id_L ∅ (∪)). split; [|split].
  - intros name. rewrite lookup_union_r.
    + unfold gt_loss. apply prefix_keys_lookup.
    + unfold pseudo_loss. apply prefix_keys_lookup_other.
      intros k. apply sup_unsup_ne.
  - intros name. rewrite lookup_union_l; [done|].
    unfold gt_loss. apply prefix_keys_lookup_other.
    intros k E. symmetry in E. by apply sup_unsup_ne in E.
  - intros key [v Hv]. apply lookup_union_Some_raw in Hv as [Hv|[_ Hv]].
    + unfold pseudo_loss in Hv.
      apply prefix_keys_lookup_Some in Hv as (k & -> & _). eauto.
    + unfold gt_loss in Hv.
      apply prefix_keys_lookup_Some in Hv as (k & -> & _). eauto.
Qed.

Lemma loss_entries_witness :
  ∃ losses,
    loss (λ (_ : unit) (_ : list (DataSample unit)), example_losses)
         (λ _ _, [example_low_pred]) example_cfg (λ bs _, bs) (λ _, 1)
         (λ _, 0) (λ _ _ _, Ok tt) (mkMultiBatch tt tt tt)
         (mkMultiBatch example_sup_batch example_empty_batch
                       example_empty_batch) = Ok losses
    ∧ (∀ name, losses !! ("sup_" +:+ name)
               = weight example_losses 1%Q !! name)
    ∧ (∀ key, is_Some (losses !! key) →
         ∃ name, key = "sup_" +:+ name ∨ key = "unsup_" +:+ name).
Proof.
  assert (∃ losses,
            loss (λ (_ : unit) (_ : list (DataSample unit)), example_losses)
                 (λ _ _, [example_low_pred]) example_cfg (λ bs _, bs) (λ _, 1)
                 (λ _, 0) (λ _ _ _, Ok tt) (mkMultiBatch tt tt tt)
                 (mkMultiBatch example_sup_batch example_empty_batch
                               example_empty_batch) = Ok losses)
    as [losses H] by (eexists; reflexivity).
  exists losses. split; [exact H|].
  destruct (loss_entries _ _ _ _ _ _ _ _ _ _ H)
    as (pseudo & projected & mixed & out & _ & _ & _ & Hsup & _ & Hdom).
  split; [exact Hsup|exact Hdom].
Defined.

(** *** [filter_pseudo_instances], [update_pseudo_instances] and
    [project_pseudo_instances] *)

(** A mask that is true everywhere selects the whole tensor. *)
Lemma masked_select_all {A} (xs : list A) (mask : list bool) :
  length xs = length mask → Forall (λ m, m = true) mask →
  masked_select xs mask = Ok xs.
Proof.
  intros Hlen Hall. rewrite masked_select_Ok by done. f_equal.
  revert mask Hlen Hall. induction xs as [|x xs IH]; intros [|m mask] Hlen Hall;
    try done.
  apply Forall_cons in Hall as [-> Hall]. cbn [zip_with].
  rewrite filter_cons_True by done. cbn [fmap list_fmap fst]. f_equal.
  apply IH; [by injection Hlen|done].
Qed.

(** The entries selected by a mask computed from the tensor pass the
    test. *)
Lemma masked_self {A} (f : A → bool) (xs : list A) :
  Forall (λ x, f x = true)
         (filter (λ p : A * bool, p.2 = true) (zip xs (f <$> xs))).*1.
Proof.
  induction xs as [|x xs IH]; [constructor|].
  cbn [fmap list_fmap zip_with]. destruct (f x) eqn:Hf.
  - rewrite filter_cons_True by done. cbn [fmap list_fmap fst].
    by constructor.
  - by rewrite filter_cons_False by done.
Qed.

Lemma filter_pseudo_one_mask (cfg : SemiTrainCfg) (bs : list bbox) :
  zip_with andb ((λ v, Qgt_bool v (min_pseudo_bbox_wh cfg).1)
                   <$> ((λ b, x2 b - x1 b)%Q <$> bs))
                ((λ v, Qgt_bool v (min_pseudo_bbox_wh cfg).2)
                   <$> ((λ b, y2 b - y1 b)%Q <$> bs))
  = (λ b, Qgt_bool (x2 b - x1 b) (min_pseudo_bbox_wh cfg).1
          && Qgt_bool (y2 b - y1 b) (min_pseudo_bbox_wh cfg).2) <$> bs.
Proof.
  rewrite <- !list_fmap_compose.
  by rewrite zip_with_fmap_l, zip_with_fmap_r, zip_with_diag.
Qed.

Lemma filter_pseudo_one_idemp (cfg : SemiTrainCfg) (gi kept : InstanceData) :
  filter_pseudo_one cfg gi = Ok kept → filter_pseudo_one cfg kept = Ok kept.
Proof.
  unfold filter_pseudo_one at 1.
  destruct (decide (length (bboxes gi) = 0)) as [Hz|Hz].
  { intros [= <-]. unfold filter_pseudo_one. by rewrite decide_True. }
  rewrite filter_pseudo_one_mask. unfold select_instances.
  set (test := λ b, Qgt_bool (x2 b - x1 b) (min_pseudo_bbox_wh cfg).1
                    && Qgt_bool (y2 b - y1 b) (min_pseudo_bbox_wh cfg).2).
  intros (b & Hb & (l & Hl & [= <-])%bind_Ok)%bind_Ok.
  unfold masked_select in Hb, Hl.
  destruct (decide (length (bboxes gi) = _)) as [Hlb|]; [|done].
  destruct (decide (length (labels gi) = _)) as [Hll|]; [|done].
  injection Hb as <-. injection Hl as <-.
  set (b := (filter _ (zip (bboxes gi) _)).*1).
  set (l := (filter _ (zip (labels gi) _)).*1).
  assert (Forall (λ x, test x = true) b) as Htest by apply masked_self.
  assert (length l = length b) as Hlen.
  { destruct (masked_select_zip (bboxes gi) (labels gi) (test <$> bboxes gi))
      as (b' & l' & Hb' & Hl' & Hlen & _); [done..|].
    rewrite masked_select_Ok in Hb' by done.
    rewrite masked_select_Ok in Hl' by done.
    injection Hb' as <-. injection Hl' as <-. done. }
  unfold filter_pseudo_one. simpl.
  destruct (decide (length b = 0)); [done|].
  rewrite filter_pseudo_one_mask. fold test. unfold select_instances.
  assert (Forall (λ m, m = true) (test <$> b)) as Hall by by apply Forall_fmap.
  rewrite !masked_select_all by (rewrite ?length_fmap; done). done.
Qed.

(** X11.  [filter_pseudo_instances] is idempotent: a batch it has
    returned passes it unchanged. *)
Theorem filter_pseudo_instances_idempotent {Meta : Type} (cfg : SemiTrainCfg)
    (batch_data_samples out : list (DataSample Meta)) :
  filter_pseudo_instances cfg batch_data_samples = Ok out →
  filter_pseudo_instances cfg out = Ok out.
Proof.
  unfold filter_pseudo_instances. intros H%mapM_Ok. apply mapM_Ok.
  induction H as [|ds ds' samples out Hds _ IH]; constructor; [|done].
  apply bind_Ok in Hds as (gi & Hgi & [= <-]). simpl.
  by rewrite (filter_pseudo_one_idemp _ _ _ Hgi).
Qed.

Lemma filter_pseudo_instances_idempotent_witness :
  filter_pseudo_instances example_cfg example_batch
  = Ok [mkSample (mkInstances [BBox 0 0 10 10] [3%Z]) tt]
  ∧ filter_pseudo_instances example_cfg
      [mkSample (mkInstances [BBox 0 0 10 10] [3%Z]) tt]
    = Ok [mkSample (mkInstances [BBox 0 0 10 10] [3%Z]) tt].
Proof.
  assert (filter_pseudo_instances example_cfg example_batch
          = Ok [mkSample (mkInstances [BBox 0 0 10 10] [3%Z]) tt]) as H
    by (vm_compute; reflexivity).
  split; [exact H|].
  exact (filter_pseudo_instances_idempotent example_cfg example_batch _ H).
Defined.

(** X12.  [update_pseudo_instances] pairs samples and predictions with
    [zip]: it returns the whole batch with its meta information, a sample
    for which the teacher returned no prediction keeps the instances it
    had, and predictions beyond the batch are ignored. *)
Theorem update_pseudo_instances_zip {Inputs Meta : Type}
    (teacher_predict : Inputs → list (DataSample Meta) → list PredInstances)
    (cfg : SemiTrainCfg) (batch_inputs : Inputs)
    (batch_data_samples out : list (DataSample Meta)) :
  update_pseudo_instances teacher_predict cfg batch_inputs batch_data_samples
  = Ok out →
  let results_list := teacher_predict batch_inputs batch_data_samples in
  length out = length batch_data_samples
  ∧ meta <$> out = meta <$> batch_data_samples
  ∧ drop (length results_list) out
    = drop (length results_list) batch_data_samples
  ∧ ∀ i results, i < length batch_data_samples →
                 results_list !! i = Some results →
                 ∃ ds, out !! i = Some ds
                       ∧ update_pseudo_one cfg results = Ok (gt_instances ds).
Proof.
  unfold update_pseudo_instances.
  generalize (teacher_predict batch_inputs batch_data_samples) as results_list.
  intros results_list H. simpl. revert results_list out H.
  induction batch_data_samples as [|ds samples IH]; intros results_list out H.
  - destruct results_list; injection H as <-; repeat split; try done;
      intros i results Hi; simpl in Hi; lia.
  - destruct results_list as [|r results_list].
    { injection H as <-. repeat split; try done. }
    simpl in H.
    apply bind_Ok in H as (gi & Hgi & (tl & Htl & [= <-])%bind_Ok).
    destruct (IH _ _ Htl) as (Hlen & Hmeta & Hdrop & Hres).
    split; [simpl; by rewrite Hlen|].
    split; [cbn [fmap list_fmap meta]; f_equal; exact Hmeta|].
    split; [done|].
    intros [|i] results Hi Hr; simpl in *.
    + injection Hr as <-. by eexists.
    + apply Hres; [lia|done].
Qed.

Lemma update_pseudo_instances_zip_witness :
  update_pseudo_instances (λ (_ : unit) (_ : list (DataSample unit)), [])
                          example_cfg tt example_batch
  = Ok example_batch
  ∧ drop 0 example_batch = drop 0 example_batch.
Proof.
  assert (update_pseudo_instances
            (λ (_ : unit) (_ : list (DataSample unit)), [])
            example_cfg tt example_batch = Ok example_batch) as H
    by reflexivity.
  split; [exact H|].
  destruct (update_pseudo_instances_zip _ _ _ _ _ H) as (_ & _ & Hdrop & _).
  exact Hdrop.
Defined.

Section project_facts.

Context {Meta : Type}.
Variable cfg : SemiTrainCfg.
Variable bbox_project : list bbox → Meta → list bbox.

Hypothesis bbox_project_length :
  ∀ bs m, length (bbox_project bs m) = length bs.

Lemma project_loop_spec (pseudo samples : list (DataSample Meta)) :
  Forall (λ ds, instances_well_formed (gt_instances ds)) pseudo →
  Forall (λ ds, instances_well_formed (gt_instances ds)) samples →
  length (project_loop bbox_project pseudo samples) = length samples
  ∧ Forall (λ ds, instances_well_formed (gt_instances ds))
           (project_loop bbox_project pseudo samples)
  ∧ ∀ i ds, samples !! i = Some ds →
      project_loop bbox_project pseudo samples !! i
      = Some (match pseudo !! i with
              | Some p =>
                  mkSample (mkInstances
                              (bbox_project (bboxes (gt_instances p)) (meta ds))
                              (labels (gt_instances p)))
                           (meta ds)
              | None => ds
              end).
Proof.
  intros Hp. revert samples.
  induction Hp as [|p pseudo Hp _ IH]; intros samples Hs.
  - assert (project_loop bbox_project [] samples = samples) as ->
      by (by destruct samples).
    split; [done|]. split; [done|]. intros i ds Hi. by rewrite lookup_nil.
  - destruct samples as [|ds samples]; [by repeat split|].
    apply Forall_cons in Hs as [Hds Hs].
    destruct (IH samples Hs) as (Hlen & Hwf & Hl).
    split; [simpl; by rewrite Hlen|]. split.
    + simpl. constructor; [|done]. unfold instances_well_formed in *. simpl.
      by rewrite bbox_project_length.
    + intros [|i] ds' Hi; simpl in *; [by injection Hi as <-|by apply Hl].
Qed.

End project_facts.

(** X13.  [project_pseudo_instances] gives sample [i] the pseudo boxes of
    sample [i] of the teacher's batch, projected with the sample's own
    homography and image shape, that are wide and high enough, with their
    labels; a sample without a counterpart in the teacher's batch keeps,
    filtered in the same way, the instances it had. *)
Theorem project_pseudo_instances_filters {Meta : Type} (cfg : SemiTrainCfg)
    (bbox_project : list bbox → Meta → list bbox)
    (batch_pseudo_instances batch_data_samples : list (DataSample Meta)) :
  (∀ bs m, length (bbox_project bs m) = length bs) →
  Forall (λ ds, instances_well_formed (gt_instances ds)) batch_pseudo_instances →
  Forall (λ ds, instances_well_formed (gt_instances ds)) batch_data_samples →
  ∃ out,
    project_pseudo_instances cfg bbox_project batch_pseudo_instances
                             batch_data_samples = Ok out
    ∧ length out = length batch_data_samples
    ∧ ∀ i ds, batch_data_samples !! i = Some ds →
        ∃ ds', out !! i = Some ds' ∧ meta ds' = meta ds
               ∧ large_enough cfg
                   (match batch_pseudo_instances !! i with
                    | Some p =>
                        mkInstances
                          (bbox_project (bboxes (gt_instances p)) (meta ds))
                          (labels (gt_instances p))
                    | None => gt_instances ds
                    end)
                   (gt_instances ds').
Proof.
  intros Hproj Hp Hs.
  destruct (project_loop_spec bbox_project Hproj _ _ Hp Hs) as (Hlen & Hwf & Hl).
  unfold project_pseudo_instances.
  set (projected := project_loop bbox_project batch_pseudo_instances
                                 batch_data_samples) in *.
  assert (∃ out, filter_pseudo_instances cfg projected = Ok out
                 ∧ Forall2 (λ ds ds', large_enough cfg (gt_instances ds)
                                                   (gt_instances ds')
                                      ∧ meta ds' = meta ds) projected out)
    as (out & Hout & Hall).
  { unfold filter_pseudo_instances. clearbody projected. clear Hlen Hl.
    induction Hwf as [|ds samples Hds _ (tl & Htl & Hall)].
    - exists []. by split.
    - destruct (filter_pseudo_one_spec cfg _ Hds) as (kept & Hk & Hspec).
      exists (mkSample kept (meta ds) :: tl). simpl.
      rewrite Hk. simpl. rewrite Htl. simpl.
      split; [done|]. by constructor. }
  exists out. split; [done|].
  split; [by rewrite <- (Forall2_length _ _ _ Hall)|].
  intros i ds Hi. specialize (Hl i ds Hi).
  destruct (Forall2_lookup_l _ _ _ _ _ Hall Hl) as (ds' & Hds' & Hle & Hmeta).
  exists ds'. split; [done|].
  destruct (batch_pseudo_instances !! i) as [p|]; simpl in *; done.
Qed.

Lemma project_pseudo_instances_filters_witness :
  (∀ (bs : list bbox) (m : unit), length (id bs) = length bs)
  ∧ Forall (λ ds : DataSample unit, instances_well_formed (gt_instances ds))
           example_batch
  ∧ Forall (λ ds : DataSample unit, instances_well_formed (gt_instances ds))
           (example_sup_batch ++ example_sup_batch)
  ∧ ∃ out,
      project_pseudo_instances example_cfg (λ bs (_ : unit), id bs)
        example_batch (example_sup_batch ++ example_sup_batch) = Ok out
      ∧ length out = 2.
Proof.
  assert (∀ (bs : list bbox) (m : unit), length (id bs) = length bs) as H1
    by reflexivity.
  assert (Forall (λ ds : DataSample unit,
                    instances_well_formed (gt_instances ds)) example_batch)
    as H2 by (repeat constructor).
  assert (Forall (λ ds : DataSample unit,
                    instances_well_formed (gt_instances ds))
                 (example_sup_batch ++ example_sup_batch))
    as H3 by (repeat constructor).
  split; [exact H1|]. split; [exact H2|]. split; [exact H3|].
  destruct (project_pseudo_instances_filters example_cfg
              (λ bs (_ : unit), id bs) example_batch
              (example_sup_batch ++ example_sup_batch) H1 H2 H3)
    as (out & Hout & Hlen & _).
  exists out. split; [exact Hout|exact Hlen].
Defined.

End SemiMixUpMore.

(** ** CascadeRoIHead: configuration, skipped stages and the test path *)

Module CascadeMore.

Import Cascade CascadeFacts.

Section train_errors.

Context {C : Components} (self : CascadeRoIHead C).
Variable x : Feats C.
Variable img_meta : list (Meta C).
Variable gt_bboxes : list (Boxes C).
Variable gt_labels : list (Labels C).
Variable gt_bboxes_ignore : option (list (Boxes C)).
Variable gt_masks : option (Masks C).

Abbreviation loop :=
  (assign_sample_loop x img_meta gt_bboxes gt_labels gt_bboxes_ignore).
Abbreviation stage :=
  (run_stage self x img_meta gt_bboxes gt_labels gt_bboxes_ignore gt_masks).
Abbreviation stages :=
  (run_stages self x img_meta gt_bboxes gt_labels gt_bboxes_ignore gt_masks).

Lemma index_Raise {A} (l : list A) (i : nat) (e : exn) :
  index l i = Raise e → e = IndexError.
Proof. unfold index. destruct (l !! i); congruence. Qed.

Lemma index_short {A} (l : list A) (i : nat) :
  length l ≤ i → index l i = Raise IndexError.
Proof. intros H. unfold index. by rewrite lookup_ge_None_2. Qed.

Lemma ignore_at_Raise (j : nat) (e : exn) :
  ignore_at img_meta gt_bboxes_ignore j = Raise e → e = IndexError.
Proof.
  unfold ignore_at. destruct gt_bboxes_ignore as [l|].
  - destruct (index l j) eqn:E; simpl; [done|].
    intros [= <-]. by eapply index_Raise.
  - destruct (decide _); congruence.
Qed.

Lemma loop_Raise (i : nat) (cfg : Cfg C) (P : list (Boxes C)) (js : list nat)
    (e : exn) :
  loop i cfg P js = Raise e → e = IndexError.
Proof.
  induction js as [|j js IH]; simpl; [done|].
  destruct (index P j) eqn:E1; simpl; [|intros [= <-]; by eapply index_Raise].
  destruct (index gt_bboxes j) eqn:E2; simpl;
    [|intros [= <-]; by eapply index_Raise].
  destruct (ignore_at _ _ j) eqn:E3; simpl;
    [|intros [= <-]; by eapply ignore_at_Raise].
  destruct (index gt_labels j) eqn:E4; simpl;
    [|intros [= <-]; by eapply index_Raise].
  destruct (loop i cfg P js) eqn:E5; simpl; [done|].
  intros [= <-]. by apply IH.
Qed.

Lemma stage_Raise (i : nat) (st : train_state C) (e : exn) :
  stage i st = Raise e → e = IndexError.
Proof.
  unfold run_stage.
  destruct (index (train_cfg self) i) eqn:E1; simpl;
    [|intros [= <-]; by eapply index_Raise].
  destruct (index (stage_loss_weights self) i) eqn:E2; simpl;
    [|intros [= <-]; by eapply index_Raise].
  destruct (loop _ _ _ _) eqn:E3; simpl;
    [|intros [= <-]; by eapply loop_Raise].
  destruct (decide _); [done|].
  destruct (with_mask self); destruct (decide _); done.
Qed.

Lemma stages_Raise (l : list nat) (st : train_state C) (e : exn) :
  stages l st = Raise e → e = IndexError.
Proof.
  revert st. induction l as [|i l IH]; intros st; simpl; [done|].
  destruct (stage i st) eqn:E; simpl; [apply IH|].
  intros [= <-]. by eapply stage_Raise.
Qed.

Lemma stages_app (l1 l2 : list nat) (st : train_state C) :
  stages (l1 ++ l2) st = stages l1 st ≫= stages l2.
Proof.
  revert st. induction l1 as [|i l1 IH]; intros st; simpl; [done|].
  destruct (stage i st); simpl; [apply IH|done].
Qed.

Lemma stage_short (i : nat) (st : train_state C) :
  length (train_cfg self) ≤ i ∨ length (stage_loss_weights self) ≤ i →
  stage i st = Raise IndexError.
Proof.
  intros H. unfold run_stage.
  destruct (index (train_cfg self) i) eqn:E1; simpl.
  - destruct H as [H|H].
    + by rewrite index_short in E1.
    + by rewrite index_short.
  - f_equal. by eapply index_Raise.
Qed.

End train_errors.

(** X14.  [forward_train] reads [train_cfg[i]] and [stage_loss_weights[i]]
    in every stage before anything else: with fewer than [num_stages]
    entries in either list it raises [IndexError], whatever the batch
    (also an empty one), and returns no loss. *)
Theorem forward_train_short_config {C : Components} (self : CascadeRoIHead C)
    (x : Feats C) (img_meta : list (Meta C)) (gt_bboxes : list (Boxes C))
    (gt_labels : list (Labels C)) (gt_bboxes_ignore : option (list (Boxes C)))
    (gt_masks : option (Masks C)) (proposal_list : list (Boxes C)) :
  length (train_cfg self) < num_stages self
  ∨ length (stage_loss_weights self) < num_stages self →
  forward_train self x img_meta gt_bboxes gt_labels gt_bboxes_ignore gt_masks
                proposal_list = Raise IndexError.
Proof.
  intros H. unfold forward_train, forward_train_state.
  set (k := length (train_cfg self) `min` length (stage_loss_weights self)).
  assert (k < num_stages self) as Hk by lia.
  replace (num_stages self) with (k + S (num_stages self - S k)) by lia.
  rewrite seq_app, stages_app. simpl.
  destruct (run_stages _ _ _ _ _ _ _ (seq 0 k) _) as [st|e] eqn:E; simpl.
  - rewrite stage_short by lia. done.
  - f_equal. by eapply stages_Raise.
Qed.

Lemma forward_train_short_config_witness :
  (length (train_cfg (mkHead example_components 2 [1%Q] [tt; tt] false false
                             true)) < 2
   ∨ length [1%Q] < 2)
  ∧ forward_train (mkHead example_components 2 [1%Q] [tt; tt] false false true)
                  tt [] [] [] None None []
    = Raise IndexError.
Proof.
  assert (length (train_cfg (mkHead example_components 2 [1%Q] [tt; tt] false
                                    false true)) < 2
          ∨ length [1%Q] < 2) as H by (right; simpl; lia).
  split; [exact H|].
  exact (forward_train_short_config
           (mkHead example_components 2 [1%Q] [tt; tt] false false true)
           tt [] [] [] None None [] H).
Defined.

Section skipped.

Context {C : Components} (self : CascadeRoIHead C).
Variable x : Feats C.
Variable img_meta : list (Meta C).

Lemma loss_events_stage (i j : nat) (ls : list (event C))
    (d : gmap string (LossVal C)) :
  Forall (is_loss_event j) ls → (i, d) ∈ loss_events ls → i = j.
Proof.
  intros Hls. unfold loss_events. rewrite list_elem_of_omap.
  intros (e & He & Hd).
  destruct (proj1 (Forall_forall _ _) Hls e He) as [entries ->].
  by injection Hd as <- _.
Qed.

(** A loss call of stage [i] is preceded by the extraction of the
    features of a non-empty set of RoIs of stage [i]. *)
Lemma cascade_trace_loss (n i0 : nat) (P : list (Boxes C)) (tr : list (event C))
    (i : nat) (d : gmap string (LossVal C)) :
  cascade_trace self x img_meta n i0 P tr → (i, d) ∈ loss_events tr →
  ∃ rois, EvExtract i rois ∈ tr ∧ len_rois C rois ≠ 0.
Proof.
  induction 1 as [|n i0 P seg P' tr Hseg _ IH]; intros Hin.
  { by apply elem_of_nil in Hin. }
  rewrite loss_events_app in Hin. apply elem_of_app in Hin as [Hin|Hin].
  - inversion Hseg as [srs Hlen Hz|srs ls Hlen rois Hnz Hlast Hls
                       |srs ls targets Hlen rois refined Hnz Hlt Hls]; subst.
    + rewrite loss_events_stage_calls in Hin. by apply elem_of_nil in Hin.
    + rewrite !loss_events_app, loss_events_stage_calls in Hin. simpl in Hin.
      apply (loss_events_stage _ _ _ _ Hls) in Hin as ->.
      exists rois. split; [|done].
      rewrite !elem_of_app, !elem_of_cons. auto 10.
    + rewrite !loss_events_app, loss_events_stage_calls in Hin. simpl in Hin.
      rewrite app_nil_r in Hin.
      apply (loss_events_stage _ _ _ _ Hls) in Hin as ->.
      exists rois. split; [|done].
      rewrite !elem_of_app, !elem_of_cons. auto 10.
  - destruct (IH Hin) as (rois & Hr & Hnz). exists rois. split; [|done].
    apply elem_of_app. by right.
Qed.

End skipped.

(** X15.  A stage that sampled no RoI contributes nothing to the returned
    dictionary: every key 's{i}.name' of the result belongs to a stage [i]
    that extracted the features of a non-empty set of RoIs, so a skipped
    stage leaves no entry at all. *)
Theorem forward_train_skipped_stage_no_keys {C : Components}
    (self : CascadeRoIHead C)
    (x : Feats C) (img_meta : list (Meta C)) (gt_bboxes : list (Boxes C))
    (gt_labels : list (Labels C)) (gt_bboxes_ignore : option (list (Boxes C)))
    (gt_masks : option (Masks C)) (proposal_list : list (Boxes C)) :
  num_stages self ≤ length (train_cfg self) →
  num_stages self ≤ length (stage_loss_weights self) →
  length proposal_list = length img_meta →
  length gt_bboxes = length img_meta →
  length gt_labels = length img_meta →
  (∀ l, gt_bboxes_ignore = Some l → length l = length img_meta) →
  (∀ i rois targets pred srs,
     length (refine_bboxes C i rois targets pred srs img_meta)
     = length img_meta) →
  ∃ st,
    forward_train_state self x img_meta gt_bboxes gt_labels gt_bboxes_ignore
                        gt_masks proposal_list = Ok st
    ∧ forward_train self x img_meta gt_bboxes gt_labels gt_bboxes_ignore
                    gt_masks proposal_list = Ok (losses st)
    ∧ (∀ i name, is_Some (losses st !! loss_key i name) →
         ∃ rois, EvExtract i rois ∈ trace st ∧ len_rois C rois ≠ 0)
    ∧ ((∀ i rois, EvExtract i rois ∉ trace st) → losses st = ∅).
Proof.
  intros Hcfg Hw HP Hgb Hgl Hign Hrefine.
  destruct (run_stages_spec self x img_meta gt_bboxes gt_labels gt_bboxes_ignore
              gt_masks Hgb Hgl Hign Hrefine (num_stages self) 0
              (mkTrainState proposal_list ∅ []))
    as (st & tr & Hrun & Htr & Hcasc & Hl & Hev); [done..|].
  simpl in Htr, Hl. subst tr.
  exists st. split; [done|].
  split; [unfold forward_train, forward_train_state; by rewrite Hrun|].
  destruct (fold_losses_spec self _ Hev) as [Hinv _].
  split.
  - intros i name [v Hv]. rewrite Hl in Hv.
    destruct (Hinv _ _ Hv) as (j & d & name' & val & lw & Hin & _ & _ & Hk & _).
    apply loss_key_inj in Hk as [-> _].
    by eapply cascade_trace_loss.
  - intros Hno. apply map_empty. intros k.
    destruct (losses st !! k) as [v|] eqn:Hv; [|done]. exfalso.
    rewrite Hl in Hv.
    destruct (Hinv _ _ Hv) as (j & d & name' & val & lw & Hin & _).
    destruct (cascade_trace_loss _ _ _ _ _ _ _ _ _ Hcasc Hin) as (rois & Hr & _).
    by destruct (Hno j rois).
Qed.

Lemma forward_train_skipped_stage_no_keys_witness :
  num_stages example_head ≤ length (train_cfg example_head)
  ∧ num_stages example_head ≤ length (stage_loss_weights example_head)
  ∧ ∃ st,
      forward_train_state example_head tt [tt] [[7]] [tt] None None [[]] = Ok st
      ∧ forward_train example_head tt [tt] [[7]] [tt] None None [[]]
        = Ok (losses st)
      ∧ ((∀ i rois, @EvExtract example_components i rois ∉ trace st) →
         losses st = ∅).
Proof.
  assert (num_stages example_head ≤ length (train_cfg example_head)) as H1
    by (simpl; lia).
  assert (num_stages example_head ≤ length (stage_loss_weights example_head))
    as H2 by (simpl; lia).
  split; [exact H1|]. split; [exact H2|].
  destruct (forward_train_skipped_stage_no_keys example_head tt [tt] [[7]] [tt]
              None None [[]] H1 H2 eq_refl eq_refl eq_refl)
    as (st & Hst & Hl & _ & Hempty).
  - intros l Hl. discriminate Hl.
  - intros i rois targets pred srs. reflexivity.
  - exists st. split; [exact Hst|]. split; [exact Hl|exact Hempty].
Defined.

Section test_more.

Context {C : Components} (self : CascadeRoIHead C).
Variable x : Feats C.
Variable img_meta0 : Meta C.
Variable rois0 : Rois C.

Abbreviation N := (num_stages self).

Abbreviation tested := (tested self x img_meta0 rois0).

Lemma test_stage_tested (i : nat) (st st' : test_state) :
  i < N → tested i st →
  test_stage self x img_meta0 i st = Ok st' → tested (S i) st'.
Proof.
  intros Hi (Hr & Hlen & _) H. unfold test_stage in H.
  rewrite Nat.min_l in Hr by lia.
  fold (stage_forward self x i (rois st)) in H.
  destruct (decide (i < N - 1)) as [Hlt|Hlast].
  - apply bind_Ok in H as (l & Hl & [= <-]).
    split; [|split]; cbn [rois ms_scores last_bbox_pred].
    + rewrite Nat.min_l by lia. cbn [rois_at]. rewrite Hr. simpl.
      rewrite Hl. done.
    + rewrite length_app. simpl. lia.
    + intros _. exists (rois st). by rewrite Nat.sub_succ, Nat.sub_0_r.
  - injection H as <-.
    split; [|split]; cbn [rois ms_scores last_bbox_pred].
    + rewrite Nat.min_r by lia. by replace (N - 1) with i by lia.
    + rewrite length_app. simpl. lia.
    + intros _. exists (rois st). by rewrite Nat.sub_succ, Nat.sub_0_r.
Qed.

Lemma test_stages_tested (n i : nat) (st st' : test_state) :
  i + n ≤ N → tested i st →
  test_stages self x img_meta0 (seq i n) st = Ok st' → tested (i + n) st'.
Proof.
  revert i st. induction n as [|n IH]; intros i st Hn Hst H.
  - injection H as <-. by rewrite Nat.add_0_r.
  - simpl in H. apply bind_Ok in H as (st1 & H1 & H).
    replace (i + S n) with (S i + n) by lia.
    apply (IH (S i) st1); [lia| |done].
    apply (test_stage_tested i st); [lia|done..].
Qed.


Lemma tested_init : tested 0 (mkTestState rois0 [] None).
Proof. split; [done|]. split; [done|]. intros H. lia. Qed.

End test_more.

(** A result of [simple_test] comes from the state the loop over all the
    stages has left. *)
Lemma simple_test_inv {C : Components} (self : CascadeRoIHead C)
    (x : Feats C) (proposal_list : list (Boxes C)) (img_meta : list (Meta C))
    (rescale : bool) (cls_score : tensor) (dets : Dets C) :
  simple_test self x proposal_list img_meta rescale = Ok (cls_score, dets) →
  ∃ img_meta0 r,
    img_meta !! 0 = Some img_meta0
    ∧ 0 < num_stages self
    ∧ rois_at self x img_meta0 (bbox2roi C proposal_list) (num_stages self - 1)
      = Ok r
    ∧ dets = get_det_bboxes C r cls_score
               (stage_forward self x (num_stages self - 1) r).2 img_meta0
               rescale.
Proof.
  unfold simple_test.
  intros (m & Hm%index_Ok & (st & Hst & H)%bind_Ok)%bind_Ok.
  destruct (decide (num_stages self = 0)) as [|Hn]; [done|].
  apply (test_stages_tested self x m (bbox2roi C proposal_list)) in Hst
    as (Hr & _ & Hpred); [|simpl; lia|apply tested_init].
  rewrite Nat.add_0_l in Hr, Hpred. rewrite Nat.min_r in Hr by lia.
  destruct Hpred as (r & Hr' & Hp); [lia|]. rewrite Hp in H.
  injection H as <- <-.
  assert (r = rois st) as -> by congruence.
  exists m, (rois st). split; [done|]. split; [lia|]. done.
Qed.

(** X16.  The detections of [simple_test] are decoded by [get_det_bboxes]
    from the RoIs the last stage has scored (the proposals regressed by
    every earlier stage, not by the last one), the averaged score and the
    box prediction of the last stage on these RoIs. *)
Theorem simple_test_last_stage {C : Components} (self : CascadeRoIHead C)
    (x : Feats C) (proposal_list : list (Boxes C)) (img_meta : list (Meta C))
    (rescale : bool) (cls_score : tensor) (dets : Dets C) :
  simple_test self x proposal_list img_meta rescale = Ok (cls_score, dets) →
  ∃ img_meta0 r,
    img_meta !! 0 = Some img_meta0
    ∧ 0 < num_stages self
    ∧ rois_at self x img_meta0 (bbox2roi C proposal_list) (num_stages self - 1)
      = Ok r
    ∧ dets = get_det_bboxes C r cls_score
               (stage_forward self x (num_stages self - 1) r).2 img_meta0
               rescale.
Proof. apply simple_test_inv. Qed.

Lemma simple_test_last_stage_witness :
  simple_test example_head tt [[1; 2]] [tt] false
  = Ok (tensor_div (py_sum [[[1; 1]; [2; 1]]; [[3; 1]; [4; 1]]]%Q) 2, [2; 3])
  ∧ ∃ img_meta0 r,
      [tt] !! 0 = Some img_meta0
      ∧ rois_at example_head tt img_meta0 (bbox2roi example_components [[1; 2]])
                1 = Ok r
      ∧ [2; 3] = get_det_bboxes example_components r
                   (tensor_div (py_sum [[[1; 1]; [2; 1]]; [[3; 1]; [4; 1]]]%Q) 2)
                   (stage_forward example_head tt 1 r).2 img_meta0 false.
Proof.
  assert (simple_test example_head tt [[1; 2]] [tt] false
          = Ok (tensor_div (py_sum [[[1; 1]; [2; 1]]; [[3; 1]; [4; 1]]]%Q) 2,
                [2; 3])) as H by (vm_compute; reflexivity).
  split; [exact H|].
  destruct (simple_test_last_stage example_head tt [[1; 2]] [tt] false _ _ H)
    as (m & r & Hm & _ & Hr & Hd).
  exists m, r. split; [exact Hm|]. split; [exact Hr|exact Hd].
Defined.



(** *** Construction of the head *)

Lemma fmap_zip_l {A B X} (f : A → X) (l : list A) (k : list B) :
  length l = length k → (λ p : A * B, f p.1) <$> zip l k = f <$> l.
Proof.
  revert k. induction l as [|a l IH]; intros [|b k] H; try done.
  cbn [zip_with fmap list_fmap fst]. f_equal. apply IH. by injection H.
Qed.

Lemma fmap_zip_r {A B X} (f : B → X) (l : list A) (k : list B) :
  length l = length k → (λ p : A * B, f p.2) <$> zip l k = f <$> k.
Proof.
  revert k. induction l as [|a l IH]; intros [|b k] H; try done.
  cbn [zip_with fmap list_fmap snd]. f_equal. apply IH. by injection H.
Qed.

(** X18.  After [init_bboxhead] and [init_maskhead] the head holds one box
    extractor, one box head, one mask head and one mask extractor per
    stage (a configuration that is not a list is used for every stage);
    the mask branch shares the box extractors exactly when no mask
    extractor is configured, and then [self.mask_roi_extractor] is the
    list [self.bbox_roi_extractor] itself. *)
Theorem init_heads_per_stage
    {ExtractorCfg HeadCfg MaskHeadCfg Extractor Head MaskHead : Type}
    (build_roi_extractor : ExtractorCfg → Extractor)
    (build_head : HeadCfg → Head) (build_mask_head : MaskHeadCfg → MaskHead)
    (num_stages : nat) (bbox_roi_extractor : stage_cfg ExtractorCfg)
    (bbox_head : stage_cfg HeadCfg)
    (mask_roi_extractor : option (stage_cfg ExtractorCfg))
    (mask_head : stage_cfg MaskHeadCfg)
    (extractors : list Extractor) (heads : list Head)
    (mask_heads : list MaskHead) (share : bool)
    (mask_extractors : list Extractor) :
  init_bboxhead build_roi_extractor build_head num_stages bbox_roi_extractor
                bbox_head = Some (extractors, heads) →
  init_maskhead build_roi_extractor build_mask_head num_stages extractors
                mask_roi_extractor mask_head
  = Some (mask_heads, share, mask_extractors) →
  length extractors = num_stages ∧ length heads = num_stages
  ∧ length mask_heads = num_stages ∧ length mask_extractors = num_stages
  ∧ extractors = build_roi_extractor <$> per_stage num_stages bbox_roi_extractor
  ∧ heads = build_head <$> per_stage num_stages bbox_head
  ∧ (share = true ↔ mask_roi_extractor = None)
  ∧ (share = true → mask_extractors = extractors).
Proof.
  unfold init_bboxhead, init_maskhead.
  destruct (decide _) as [[He Hh]|]; [|done]. intros [= <- <-].
  destruct (decide _) as [Hm|]; [|done].
  rewrite fmap_zip_l, fmap_zip_r by done.
  destruct mask_roi_extractor as [c|].
  - destruct (decide _) as [Hc|]; [|done]. intros [= <- <- <-].
    rewrite !length_fmap. repeat split; try done; lia.
  - intros [= <- <- <-]. rewrite !length_fmap.
    repeat split; try done; lia.
Qed.

Lemma init_heads_per_stage_witness :
  init_bboxhead S S 3 (Single 10) (PerStage [1; 2; 3])
  = Some ([11; 11; 11], [2; 3; 4])
  ∧ init_maskhead S S 3 [11; 11; 11] None (Single 20)
    = Some ([21; 21; 21], true, [11; 11; 11])
  ∧ length [11; 11; 11] = 3 ∧ length [21; 21; 21] = 3.
Proof.
  assert (init_bboxhead S S 3 (Single 10) (PerStage [1; 2; 3])
          = Some ([11; 11; 11], [2; 3; 4])) as H1 by reflexivity.
  assert (init_maskhead S S 3 [11; 11; 11] None (Single 20)
          = Some ([21; 21; 21], true, [11; 11; 11])) as H2 by reflexivity.
  split; [exact H1|]. split; [exact H2|].
  destruct (init_heads_per_stage S S S 3 (Single 10) (PerStage [1; 2; 3]) None
              (Single 20) _ _ _ _ _ H1 H2) as (He & _ & Hm & _).
  split; [exact He|exact Hm].
Defined.

(** *** [forward_dummy] *)

Lemma foldl_snoc {A} (f : nat → list A) (acc : list A) (l : list nat) :
  foldl (λ outs i, outs ++ f i) acc l = acc ++ concat (f <$> l).
Proof.
  revert acc. induction l as [|i l IH]; intros acc; simpl.
  - by rewrite app_nil_r.
  - by rewrite IH, app_assoc.
Qed.

Lemma chunks_shape {A} (f : nat → list A) (n cols : nat) :
  (∀ i, length (f i) = cols) → shape (f <$> seq 0 n) n cols.
Proof.
  intros H. split; [by rewrite length_fmap, length_seq|].
  apply Forall_fmap, Forall_forall. intros i _. apply H.
Qed.

Lemma chunks_lookup {A} (f : nat → list A) (n cols i c : nat) :
  (∀ i, length (f i) = cols) → i < n → c < cols →
  concat (f <$> seq 0 n) !! (i * cols + c) = f i !! c.
Proof.
  intros H Hi Hc.
  rewrite (mget_concat _ _ _ _ _ (chunks_shape f n cols H) Hc).
  unfold mget. by rewrite list_lookup_fmap, lookup_seq_lt.
Qed.

(** X19.  [forward_dummy] returns two entries per stage, the score and the
    box prediction of that stage, followed with a mask head by one mask
    prediction per stage; unlike the test path it runs every stage on the
    RoIs of the proposals themselves, without regressing them from stage
    to stage. *)
Theorem forward_dummy_outputs {C : Components} (self : CascadeRoIHead C)
    (rois_take : nat → Rois C → Rois C) (x : Feats C) (proposals : Boxes C) :
  let outs := forward_dummy self rois_take x proposals in
  let rois := bbox2roi C [proposals] in
  length outs = (if with_mask self then 3 else 2) * num_stages self
  ∧ (∀ i, i < num_stages self →
       outs !! (i * 2) = Some (OutScore (stage_forward self x i rois).1)
       ∧ outs !! (i * 2 + 1) = Some (OutBbox (stage_forward self x i rois).2))
  ∧ (with_mask self = true →
     ∀ i, i < num_stages self →
          ∃ mask_pred, outs !! (num_stages self * 2 + i)
                       = Some (OutMask mask_pred)).
Proof.
  intros outs rois. subst outs. unfold forward_dummy. fold rois.
  set (n := num_stages self).
  set (f := λ i : nat, [@OutScore C (stage_forward self x i rois).1;
                        OutBbox (stage_forward self x i rois).2]).
  set (g := λ i : nat,
         [@OutMask C
            (mask_head C i
               (if with_shared_head self
                then shared_head C
                       (self_mask_roi_extractor self i x (rois_take 100 rois))
                else self_mask_roi_extractor self i x (rois_take 100 rois)))]).
  rewrite (foldl_snoc f). rewrite app_nil_l.
  pose proof (length_concat_shape _ _ _ (chunks_shape f n 2 (λ _, eq_refl)))
    as Hlen.
  assert (∀ i, i < n →
            concat (f <$> seq 0 n) !! (i * 2)
            = Some (OutScore (stage_forward self x i rois).1)
            ∧ concat (f <$> seq 0 n) !! (i * 2 + 1)
              = Some (OutBbox (stage_forward self x i rois).2)) as Hf.
  { intros i Hi. split.
    - rewrite <- (Nat.add_0_r (i * 2)).
      by rewrite (chunks_lookup f n 2 i 0 (λ _, eq_refl)) by lia.
    - by rewrite (chunks_lookup f n 2 i 1 (λ _, eq_refl)) by lia. }
  destruct (with_mask self).
  - rewrite (foldl_snoc g).
    pose proof (length_concat_shape _ _ _ (chunks_shape g n 1 (λ _, eq_refl)))
      as Hleng.
    split; [rewrite length_app; lia|]. split.
    + intros i Hi. destruct (Hf i Hi) as [H1 H2].
      rewrite !lookup_app_l by lia. done.
    + intros _ i Hi. rewrite lookup_app_r by lia.
      replace (n * 2 + i - length (concat (f <$> seq 0 n))) with (i * 1 + 0)
        by lia.
      rewrite (chunks_lookup g n 1 i 0 (λ _, eq_refl)) by lia.
      by eexists.
  - split; [lia|]. split; [done|]. done.
Qed.

End CascadeMore.
